(** * A shallow embedding of the matrix / vector library

    The JavaScript classes [Vector3], [Matrix2x2], [Matrix3x3] and
    [Matrix4x4] are embedded as programs of a small state-and-exception
    monad over a heap of objects.

    - Numbers.  A JavaScript number is a real number ([Num r]) or [NaN].
      Rounding and overflow of IEEE doubles are left out: arithmetic on
      [Num] is exact.  [NaN] also stands for [undefined] (the value read
      from a missing array element), which every arithmetic operator of the
      library turns into NaN.  The infinities are not represented: a
      division by zero is recorded as [NaN].  What is proved on this model
      is a statement in exact real arithmetic.  Where a property stated for
      every number fails on doubles because a product overflows, module
      [Ieee] runs the same methods on binary64 numbers at a concrete input.
    - Objects.  Arrays and [Vector3] instances live in a heap and are
      handled through references, so that in-place mutation, copies and
      aliasing are those of the source.  A matrix instance only carries its
      [entries] array, which no method ever reassigns; it is represented by
      the reference of that array.
    - Control.  [throw] is the outcome [Thrown]; a [for] loop over a
      constant range is a fold over [seq].  [prettyPrint], which only
      writes to the console, is left out.
    - The demos.  Of the two demo scripts the pure parts are embedded:
      [computeKernelWeight] of the image-processing page and the matrix
      that [drawScene] builds; their WebGL calls are left out. *)

From Stdlib Require Import Reals Lra Lia List Arith Bool.
From Stdlib Require PrimFloat.
Import ListNotations.

Local Open Scope R_scope.

(** ** Numbers *)

Inductive num : Type :=
| Num (r : R)
| NaN.

Declare Scope num_scope.
Delimit Scope num_scope with num.
Bind Scope num_scope with num.

Module JsNum.

Definition lift2 (f : R -> R -> R) (a b : num) : num :=
  match a, b with
  | Num x, Num y => Num (f x y)
  | _, _ => NaN
  end.

Definition add : num -> num -> num := lift2 Rplus.
Definition sub : num -> num -> num := lift2 Rminus.
Definition mul : num -> num -> num := lift2 Rmult.

(** [a / b]; a zero divisor gives a non-finite value, recorded as [NaN]. *)
Definition div (a b : num) : num :=
  match a, b with
  | Num x, Num y => if Req_dec_T y 0 then NaN else Num (x / y)
  | _, _ => NaN
  end.

(** Unary minus. *)
Definition neg (a : num) : num :=
  match a with
  | Num x => Num (- x)
  | NaN => NaN
  end.

(** [a ** n] for a non-negative integer exponent ([NaN ** 0] is 1). *)
Definition pow (a : num) (n : nat) : num :=
  match a with
  | Num x => Num (x ^ n)
  | NaN => if Nat.eqb n 0 then Num 1 else NaN
  end.

(** [Math.sqrt]. *)
Definition sqrt (a : num) : num :=
  match a with
  | Num x => if Rlt_dec x 0 then NaN else Num (R_sqrt.sqrt x)
  | NaN => NaN
  end.

(** [Math.cos], [Math.sin], [Math.tan]; the tangent has no real value
    where the cosine vanishes. *)
Definition cos (a : num) : num :=
  match a with Num x => Num (Rtrigo_def.cos x) | NaN => NaN end.
Definition sin (a : num) : num :=
  match a with Num x => Num (Rtrigo_def.sin x) | NaN => NaN end.
Definition tan (a : num) : num :=
  match a with
  | Num x => if Req_dec_T (Rtrigo_def.cos x) 0 then NaN else Num (Rtrigo1.tan x)
  | NaN => NaN
  end.

(** [a > b]: false as soon as one side is NaN. *)
Definition gt (a b : num) : bool :=
  match a, b with
  | Num x, Num y => if Rlt_dec y x then true else false
  | _, _ => false
  end.

(** [a === b] on numbers: NaN is equal to nothing. *)
Definition strict_eq (a b : num) : bool :=
  match a, b with
  | Num x, Num y => if Req_dec_T x y then true else false
  | _, _ => false
  end.

(** [Math.PI] and [Number.EPSILON] (2^-52). *)
Definition PI : num := Num Rtrigo1.PI.
Definition EPSILON : num := Num (/ 2 ^ 52).


(** [a <= b]: false as soon as one side is NaN. *)
Definition le (a b : num) : bool :=
  match a, b with
  | Num x, Num y => if Rle_dec x y then true else false
  | _, _ => false
  end.

End JsNum.

Infix "+" := JsNum.add : num_scope.
Infix "-" := JsNum.sub : num_scope.
Infix "*" := JsNum.mul : num_scope.
Infix "/" := JsNum.div : num_scope.
Notation "- a" := (JsNum.neg a) : num_scope.

(** ** Heap, references and the monad *)

Inductive obj : Type :=
| Arr (es : list num)            (* an array of numbers *)
| Vec (x y z : num).             (* a Vector3 instance *)

Definition ref : Type := nat.
Definition heap : Type := list obj.

Definition lookup (h : heap) (r : ref) : option obj := nth_error h r.

Fixpoint upd (h : heap) (r : ref) (o : obj) : heap :=
  match h, r with
  | [], _ => []
  | _ :: t, O => o :: t
  | x :: t, S r' => x :: upd t r' o
  end.

(** Outcome of a run: a value and the final heap, a thrown [Error] (with
    the heap at that point), or [Stuck] when a reference does not denote an
    object of the expected class (no well-typed caller gets there). *)
Inductive result (A : Type) : Type :=
| Ok (a : A) (h : heap)
| Thrown (h : heap)
| Stuck.
Arguments Ok {A} a h.
Arguments Thrown {A} h.
Arguments Stuck {A}.

Definition M (A : Type) : Type := heap -> result A.

Definition ret {A} (a : A) : M A := fun h => Ok a h.

Definition bind {A B} (m : M A) (f : A -> M B) : M B :=
  fun h =>
    match m h with
    | Ok a h' => f a h'
    | Thrown h' => Thrown h'
    | Stuck => Stuck
    end.

Definition throw {A} : M A := fun h => Thrown h.

Notation "x <- c1 ;; c2" := (bind c1 (fun x => c2))
  (at level 61, c1 at next level, right associativity).
Notation "c1 ;; c2" := (bind c1 (fun _ => c2))
  (at level 61, right associativity).
Notation "' pat <- c1 ;; c2" :=
  (bind c1 (fun x => match x with pat => c2 end))
  (at level 61, pat pattern, c1 at next level, right associativity).

(** [new]: allocation of a fresh object at the end of the heap. *)
Definition alloc (o : obj) : M ref :=
  fun h => Ok (length h) (h ++ [o]).

Definition read_arr (r : ref) : M (list num) :=
  fun h => match lookup h r with Some (Arr es) => Ok es h | _ => Stuck end.

Definition write_arr (r : ref) (es : list num) : M unit :=
  fun h => match lookup h r with Some (Arr _) => Ok tt (upd h r (Arr es)) | _ => Stuck end.

Definition read_vec (r : ref) : M (num * num * num) :=
  fun h => match lookup h r with Some (Vec x y z) => Ok (x, y, z) h | _ => Stuck end.

Definition write_vec (r : ref) (v : num * num * num) : M unit :=
  fun h =>
    match lookup h r with
    | Some (Vec _ _ _) => let '(x, y, z) := v in Ok tt (upd h r (Vec x y z))
    | _ => Stuck
    end.

(** *** JavaScript arrays *)

(** [es[i] = v] on the contents of an array: an index past the end extends
    the array, the skipped positions being holes (read back as
    [undefined]). *)
Fixpoint arr_set (es : list num) (i : nat) (v : num) : list num :=
  match es, i with
  | [], _ => repeat NaN i ++ [v]
  | _ :: t, O => v :: t
  | e :: t, S i' => e :: arr_set t i' v
  end.

(** [a[i]] *)
Definition aget (a : ref) (i : nat) : M num :=
  es <- read_arr a ;; ret (nth i es NaN).

(** [a[i] = v] *)
Definition aset (a : ref) (i : nat) (v : num) : M unit :=
  es <- read_arr a ;; write_arr a (arr_set es i v).

(** [a.push(v)] *)
Definition push (a : ref) (v : num) : M unit :=
  es <- read_arr a ;; write_arr a (es ++ [v]).

(** An array literal [[e0, e1, ...]], and the spread copy [[...a]]. *)
Definition array_lit (es : list num) : M ref := alloc (Arr es).
Definition spread (a : ref) : M ref :=
  es <- read_arr a ;; alloc (Arr es).

(** [new Array(n)]: [n] holes. *)
Definition new_Array (n : nat) : M ref := alloc (Arr (repeat NaN n)).

(** *** Loops *)

Fixpoint for_each (l : list nat) (body : nat -> M unit) : M unit :=
  match l with
  | [] => ret tt
  | i :: l' => body i ;; for_each l' body
  end.

(** [for (let i = 0; i < n; i++) body] *)
Definition for_ (n : nat) (body : nat -> M unit) : M unit :=
  for_each (seq 0 n) body.

Fixpoint fold_each {S : Type} (l : list nat) (body : S -> nat -> M S) (s : S) : M S :=
  match l with
  | [] => ret s
  | i :: l' => s' <- body s i ;; fold_each l' body s'
  end.

(** [let acc = s; for (let i = 0; i < n; i++) acc = body(acc, i)]: a loop
    that updates one local variable. *)
Definition for_acc {S : Type} (n : nat) (s : S) (body : S -> nat -> M S) : M S :=
  fold_each (seq 0 n) body s.

(** ** Vector3 (js/vector3.js) *)

Module Vector3.

Local Open Scope num_scope.

(** [new Vector3(x, y, z)] *)
Definition new (x y z : num) : M ref := alloc (Vec x y z).

Definition get_x (v : ref) : M num := '(x, _, _) <- read_vec v ;; ret x.
Definition get_y (v : ref) : M num := '(_, y, _) <- read_vec v ;; ret y.
Definition get_z (v : ref) : M num := '(_, _, z) <- read_vec v ;; ret z.

Definition set_x (v : ref) (a : num) : M unit :=
  '(_, y, z) <- read_vec v ;; write_vec v (a, y, z).
Definition set_y (v : ref) (a : num) : M unit :=
  '(x, _, z) <- read_vec v ;; write_vec v (x, a, z).
Definition set_z (v : ref) (a : num) : M unit :=
  '(x, y, _) <- read_vec v ;; write_vec v (x, y, a).

(** A constructor argument [x = 0] that is read from an array of numbers:
    past the end of the array the read gives [undefined], which the default
    value 0 replaces; an element in range is a number and is passed as it
    is. *)
Definition arg_or_zero (a : ref) (i : nat) : M num :=
  es <- read_arr a ;; ret (nth i es (Num 0)).

(** [static fromArray(entries)] *)
Definition fromArray (entries : ref) : M ref :=
  e0 <- arg_or_zero entries 0 ;; e1 <- arg_or_zero entries 1 ;;
  e2 <- arg_or_zero entries 2 ;;
  new e0 e1 e2.

(** [static subtract(v1, v2)] *)
Definition subtract (v1 v2 : ref) : M ref :=
  x1 <- get_x v1 ;; x2 <- get_x v2 ;;
  y1 <- get_y v1 ;; y2 <- get_y v2 ;;
  z1 <- get_z v1 ;; z2 <- get_z v2 ;;
  new (x1 - x2) (y1 - y2) (z1 - z2).

(** [static sum(v1, v2)] *)
Definition sum (v1 v2 : ref) : M ref :=
  x1 <- get_x v1 ;; x2 <- get_x v2 ;;
  y1 <- get_y v1 ;; y2 <- get_y v2 ;;
  z1 <- get_z v1 ;; z2 <- get_z v2 ;;
  new (x1 + x2) (y1 + y2) (z1 + z2).

(** [static cross(v1, v2)] *)
Definition cross (v1 v2 : ref) : M ref :=
  y1 <- get_y v1 ;; z2 <- get_z v2 ;; z1 <- get_z v1 ;; y2 <- get_y v2 ;;
  let cx := y1 * z2 - z1 * y2 in
  z1 <- get_z v1 ;; x2 <- get_x v2 ;; x1 <- get_x v1 ;; z2 <- get_z v2 ;;
  let cy := z1 * x2 - x1 * z2 in
  x1 <- get_x v1 ;; y2 <- get_y v2 ;; y1 <- get_y v1 ;; x2 <- get_x v2 ;;
  let cz := x1 * y2 - y1 * x2 in
  new cx cy cz.

(** [sub(v)] *)
Definition sub (this v : ref) : M unit :=
  a <- get_x this ;; b <- get_x v ;; set_x this (a - b) ;;
  a <- get_y this ;; b <- get_y v ;; set_y this (a - b) ;;
  a <- get_z this ;; b <- get_z v ;; set_z this (a - b).

(** [add(v)] *)
Definition add (this v : ref) : M unit :=
  a <- get_x this ;; b <- get_x v ;; set_x this (a + b) ;;
  a <- get_y this ;; b <- get_y v ;; set_y this (a + b) ;;
  a <- get_z this ;; b <- get_z v ;; set_z this (a + b).

(** [divide(d)] *)
Definition divide (this : ref) (d : num) : M unit :=
  a <- get_x this ;; set_x this (a / d) ;;
  a <- get_y this ;; set_y this (a / d) ;;
  a <- get_z this ;; set_z this (a / d).

(** [length()] *)
Definition length (this : ref) : M num :=
  x <- get_x this ;; y <- get_y this ;; z <- get_z this ;;
  ret (JsNum.sqrt (JsNum.pow x 2 + JsNum.pow y 2 + JsNum.pow z 2)).

(** [zeroValues()] *)
Definition zeroValues (this : ref) : M unit :=
  set_x this (Num 0) ;; set_y this (Num 0) ;; set_z this (Num 0).

(** [normalize()] *)
Definition normalize (this : ref) : M ref :=
  length <- length this ;;
  (if JsNum.gt length JsNum.EPSILON then divide this length else zeroValues this) ;;
  ret this.

(** [entries()] *)
Definition entries (this : ref) : M ref :=
  x <- get_x this ;; y <- get_y this ;; z <- get_z this ;;
  array_lit [x; y; z].

End Vector3.

(** ** Matrix2x2 *)

Module Matrix2x2.

Local Open Scope num_scope.

(** [constructor(entries)]: the instance keeps the array it is given. *)
Definition new (entries : ref) : M ref := ret entries.

(** [constructor()] with the default argument [new Array(4)]. *)
Definition new_default : M ref := e <- new_Array 4 ;; new e.

(** [static identity()] *)
Definition identity : M ref :=
  e <- array_lit [Num 1; Num 0;
                  Num 0; Num 1] ;;
  new e.

(** [copy()] *)
Definition copy (this : ref) : M ref :=
  e <- spread this ;; new e.

(** [mult(b)] *)
Definition mult (this b : ref) : M unit :=
  a <- copy this ;;
  for_ 2 (fun i =>
    for_ 2 (fun j =>
      sum <- for_acc 2 (Num 0) (fun sum k =>
               x <- aget a (i * 2 + k) ;;
               y <- aget b (k * 2 + j) ;;
               ret (sum + x * y)) ;;
      aset this (i * 2 + j) sum)).

(** [premult(b)] *)
Definition premult (this b : ref) : M unit :=
  a <- copy this ;;
  for_ 2 (fun i =>
    for_ 2 (fun j =>
      sum <- for_acc 2 (Num 0) (fun sum k =>
               x <- aget b (k * 2 + j) ;;
               y <- aget a (i * 2 + k) ;;
               ret (sum + x * y)) ;;
      aset this (i * 2 + j) sum)).

(** [determinant()] *)
Definition determinant (this : ref) : M num :=
  e0 <- aget this 0 ;; e3 <- aget this 3 ;;
  e1 <- aget this 1 ;; e2 <- aget this 2 ;;
  ret (e0 * e3 - e1 * e2).

End Matrix2x2.

(** ** Matrix3x3 (js/matrix3x3.js) *)

Module Matrix3x3.

Local Open Scope num_scope.

(** [constructor(entries)] *)
Definition new (entries : ref) : M ref := ret entries.

(** [constructor()] with the default argument [new Array(9)]. *)
Definition new_default : M ref := e <- new_Array 9 ;; new e.

(** [static identity()] *)
Definition identity : M ref :=
  e <- array_lit [Num 1; Num 0; Num 0;
                  Num 0; Num 1; Num 0;
                  Num 0; Num 0; Num 1] ;;
  new e.

(** [static translation(tx, ty)] *)
Definition translation (tx ty : num) : M ref :=
  e <- array_lit [Num 1; Num 0; Num 0;
                  Num 0; Num 1; Num 0;
                  tx;    ty;    Num 1] ;;
  new e.

(** [static rotation(angleInRadians)] *)
Definition rotation (angleInRadians : num) : M ref :=
  let c := JsNum.cos angleInRadians in
  let s := JsNum.sin angleInRadians in
  e <- array_lit [c;     - s;   Num 0;
                  s;     c;     Num 0;
                  Num 0; Num 0; Num 1] ;;
  new e.

(** [static scaling(sx, sy)] *)
Definition scaling (sx sy : num) : M ref :=
  e <- array_lit [sx;    Num 0; Num 0;
                  Num 0; sy;    Num 0;
                  Num 0; Num 0; Num 1] ;;
  new e.

(** [static projection(width, height)] *)
Definition projection (width height : num) : M ref :=
  e <- array_lit [Num 2 / width; Num 0;             Num 0;
                  Num 0;         Num (-2) / height; Num 0;
                  Num (-1);      Num 1;             Num 1] ;;
  new e.

(** [copy()] *)
Definition copy (this : ref) : M ref :=
  e <- spread this ;; new e.

(** [mult(b)] *)
Definition mult (this b : ref) : M unit :=
  a <- copy this ;;
  for_ 3 (fun i =>
    for_ 3 (fun j =>
      sum <- for_acc 3 (Num 0) (fun sum k =>
               x <- aget a (i * 3 + k) ;;
               y <- aget b (k * 3 + j) ;;
               ret (sum + x * y)) ;;
      aset this (i * 3 + j) sum)).

(** [premult(b)] *)
Definition premult (this b : ref) : M unit :=
  a <- copy this ;;
  for_ 3 (fun i =>
    for_ 3 (fun j =>
      sum <- for_acc 3 (Num 0) (fun sum k =>
               x <- aget b (k * 3 + j) ;;
               y <- aget a (i * 3 + k) ;;
               ret (sum + x * y)) ;;
      aset this (i * 3 + j) sum)).

(** [static multiply(a, b)] *)
Definition multiply (a b : ref) : M ref :=
  c <- identity ;;
  mult c a ;;
  mult c b ;;
  ret c.

(** [translate(tx, ty)] *)
Definition translate (this : ref) (tx ty : num) : M unit :=
  t <- translation tx ty ;;
  mult this t.

(** [scale(sx, sy)] *)
Definition scale (this : ref) (sx sy : num) : M unit :=
  s <- scaling sx sy ;;
  mult this s.

(** [rotate(angleInRadians)] *)
Definition rotate (this : ref) (angleInRadians : num) : M unit :=
  r <- rotation angleInRadians ;;
  mult this r.

(** [_cofactor(i, j)] *)
Definition _cofactor (this : ref) (i j : nat) : M ref :=
  entries <- array_lit [] ;;
  for_ 3 (fun a =>
    if Nat.eqb a i then ret tt else
    for_ 3 (fun b =>
      if Nat.eqb b j then ret tt else
      e <- aget this (a * 3 + b) ;;
      push entries e)) ;;
  Matrix2x2.new entries.

(** [determinant()] *)
Definition determinant (this : ref) : M num :=
  for_acc 3 (Num 0) (fun sum j =>
    let sign := JsNum.pow (Num (-1)) j in
    c <- _cofactor this 0 j ;;
    subDet <- Matrix2x2.determinant c ;;
    e <- aget this j ;;
    ret (sum + sign * e * subDet)).

(** [_adjointDeterminant(i, j)] *)
Definition _adjointDeterminant (this : ref) (i j : nat) : M num :=
  adjoint <- copy this ;;
  for_ 3 (fun k =>
    aset adjoint (k * 3 + i) (if Nat.eqb k j then Num 1 else Num 0)) ;;
  determinant adjoint.

(** [inverse()] *)
Definition inverse (this : ref) : M ref :=
  det <- determinant this ;;
  if JsNum.strict_eq det (Num 0) then throw else
  entries <- array_lit [] ;;
  for_ 4 (fun i =>
    for_ 4 (fun j =>
      d <- _adjointDeterminant this i j ;;
      push entries (d / det))) ;;
  new entries.

End Matrix3x3.

(** ** Matrix4x4 (js/matrix4x4.js) *)

Module Matrix4x4.

Local Open Scope num_scope.

(** [constructor(entries)] *)
Definition new (entries : ref) : M ref := ret entries.

(** [constructor()] with the default argument [new Array(16)]. *)
Definition new_default : M ref := e <- new_Array 16 ;; new e.

(** [static identity()] *)
Definition identity : M ref :=
  e <- array_lit [Num 1; Num 0; Num 0; Num 0;
                  Num 0; Num 1; Num 0; Num 0;
                  Num 0; Num 0; Num 1; Num 0;
                  Num 0; Num 0; Num 0; Num 1] ;;
  new e.

(** [static fromTranslation(tx, ty, tz)] *)
Definition fromTranslation (tx ty tz : num) : M ref :=
  e <- array_lit [Num 1; Num 0; Num 0; Num 0;
                  Num 0; Num 1; Num 0; Num 0;
                  Num 0; Num 0; Num 1; Num 0;
                  tx;    ty;    tz;    Num 1] ;;
  new e.

(** [static fromXRotation(angleInRadians)] *)
Definition fromXRotation (angleInRadians : num) : M ref :=
  let c := JsNum.cos angleInRadians in
  let s := JsNum.sin angleInRadians in
  e <- array_lit [Num 1; Num 0; Num 0; Num 0;
                  Num 0; c;     s;     Num 0;
                  Num 0; - s;   c;     Num 0;
                  Num 0; Num 0; Num 0; Num 1] ;;
  new e.

(** [static fromYRotation(angleInRadians)] *)
Definition fromYRotation (angleInRadians : num) : M ref :=
  let c := JsNum.cos angleInRadians in
  let s := JsNum.sin angleInRadians in
  e <- array_lit [c;     Num 0; - s;   Num 0;
                  Num 0; Num 1; Num 0; Num 0;
                  s;     Num 0; c;     Num 0;
                  Num 0; Num 0; Num 0; Num 1] ;;
  new e.

(** [static fromZRotation(angleInRadians)] *)
Definition fromZRotation (angleInRadians : num) : M ref :=
  let c := JsNum.cos angleInRadians in
  let s := JsNum.sin angleInRadians in
  e <- array_lit [c;     s;     Num 0; Num 0;
                  - s;   c;     Num 0; Num 0;
                  Num 0; Num 0; Num 1; Num 0;
                  Num 0; Num 0; Num 0; Num 1] ;;
  new e.

(** [static fromScaling(sx, sy, sz)] *)
Definition fromScaling (sx sy sz : num) : M ref :=
  e <- array_lit [sx;    Num 0; Num 0; Num 0;
                  Num 0; sy;    Num 0; Num 0;
                  Num 0; Num 0; sz;    Num 0;
                  Num 0; Num 0; Num 0; Num 1] ;;
  new e.

(** [static orthographic(left, right, bottom, top, near, far)] *)
Definition orthographic (left right bottom top near far : num) : M ref :=
  e <- array_lit [Num 2 / (right - left); Num 0; Num 0; Num 0;
                  Num 0; Num 2 / (top - bottom); Num 0; Num 0;
                  Num 0; Num 0; Num 2 / (near - far); Num 0;
                  (left + right) / (left - right);
                  (bottom + top) / (bottom - top);
                  (near + far) / (near - far);
                  Num 1] ;;
  new e.

(** [static perspective(fieldOfViewInRadians, aspect, near = 1, far = 2000)];
    an omitted argument is [None]. *)
Definition perspective (fieldOfViewInRadians aspect : num) (near far : option num) : M ref :=
  let near := match near with Some n => n | None => Num 1 end in
  let far := match far with Some f => f | None => Num 2000 end in
  let f := JsNum.tan (JsNum.PI * Num (1 / 2) - Num (1 / 2) * fieldOfViewInRadians) in
  let rangeInv := Num 1 / (near - far) in
  e <- array_lit [f / aspect; Num 0; Num 0; Num 0;
                  Num 0; f; Num 0; Num 0;
                  Num 0; Num 0; (near + far) * rangeInv; Num (-1);
                  Num 0; Num 0; near * far * rangeInv * Num 2; Num 0] ;;
  new e.

(** [static lookAt(origin, target, up = new Vector3(0, 1, 0))]; an
    omitted [up] is [None]. *)
Definition lookAt (origin target : ref) (up : option ref) : M ref :=
  up <- match up with
        | Some u => ret u
        | None => Vector3.new (Num 0) (Num 1) (Num 0)
        end ;;
  d <- Vector3.subtract origin target ;;
  zAxis <- Vector3.normalize d ;;
  c <- Vector3.cross up zAxis ;;
  xAxis <- Vector3.normalize c ;;
  c' <- Vector3.cross zAxis xAxis ;;
  yAxis <- Vector3.normalize c' ;;
  xx <- Vector3.get_x xAxis ;; xy <- Vector3.get_y xAxis ;; xz <- Vector3.get_z xAxis ;;
  yx <- Vector3.get_x yAxis ;; yy <- Vector3.get_y yAxis ;; yz <- Vector3.get_z yAxis ;;
  zx <- Vector3.get_x zAxis ;; zy <- Vector3.get_y zAxis ;; zz <- Vector3.get_z zAxis ;;
  ox <- Vector3.get_x origin ;; oy <- Vector3.get_y origin ;; oz <- Vector3.get_z origin ;;
  e <- array_lit [xx; xy; xz; Num 0;
                  yx; yy; yz; Num 0;
                  zx; zy; zz; Num 0;
                  ox; oy; oz; Num 1] ;;
  new e.

(** [copy()] *)
Definition copy (this : ref) : M ref :=
  e <- spread this ;; new e.

(** [mult(b)] *)
Definition mult (this b : ref) : M unit :=
  a <- copy this ;;
  for_ 4 (fun i =>
    for_ 4 (fun j =>
      sum <- for_acc 4 (Num 0) (fun sum k =>
               x <- aget a (i * 4 + k) ;;
               y <- aget b (k * 4 + j) ;;
               ret (sum + x * y)) ;;
      aset this (i * 4 + j) sum)).

(** [premult(b)] *)
Definition premult (this b : ref) : M unit :=
  a <- copy this ;;
  for_ 4 (fun i =>
    for_ 4 (fun j =>
      sum <- for_acc 4 (Num 0) (fun sum k =>
               x <- aget b (i * 4 + k) ;;
               y <- aget a (k * 4 + j) ;;
               ret (sum + x * y)) ;;
      aset this (i * 4 + j) sum)).

(** [static multiply(a, b)] *)
Definition multiply (a b : ref) : M ref :=
  c <- identity ;;
  mult c a ;;
  mult c b ;;
  ret c.

(** [translate(tx, ty, tz)] *)
Definition translate (this : ref) (tx ty tz : num) : M unit :=
  t <- fromTranslation tx ty tz ;;
  premult this t.

(** [scale(sx, sy, sz)] *)
Definition scale (this : ref) (sx sy sz : num) : M unit :=
  s <- fromScaling sx sy sz ;;
  premult this s.

(** [xRotate(angleInRadians)] *)
Definition xRotate (this : ref) (angleInRadians : num) : M unit :=
  r <- fromXRotation angleInRadians ;;
  premult this r.

(** [yRotate(angleInRadians)] *)
Definition yRotate (this : ref) (angleInRadians : num) : M unit :=
  r <- fromYRotation angleInRadians ;;
  premult this r.

(** [zRotate(angleInRadians)] *)
Definition zRotate (this : ref) (angleInRadians : num) : M unit :=
  r <- fromZRotation angleInRadians ;;
  premult this r.

(** [_cofactor(i, j)] *)
Definition _cofactor (this : ref) (i j : nat) : M ref :=
  entries <- array_lit [] ;;
  for_ 4 (fun a =>
    if Nat.eqb a i then ret tt else
    for_ 4 (fun b =>
      if Nat.eqb b j then ret tt else
      e <- aget this (a * 4 + b) ;;
      push entries e)) ;;
  Matrix3x3.new entries.

(** [determinant()] *)
Definition determinant (this : ref) : M num :=
  for_acc 4 (Num 0) (fun sum j =>
    let sign := JsNum.pow (Num (-1)) j in
    c <- _cofactor this 0 j ;;
    subDet <- Matrix3x3.determinant c ;;
    e <- aget this j ;;
    ret (sum + sign * e * subDet)).

(** [_adjointDeterminant(i, j)] *)
Definition _adjointDeterminant (this : ref) (i j : nat) : M num :=
  adjoint <- copy this ;;
  for_ 4 (fun k =>
    aset adjoint (k * 4 + i) (if Nat.eqb k j then Num 1 else Num 0)) ;;
  determinant adjoint.

(** [inverse()] *)
Definition inverse (this : ref) : M ref :=
  det <- determinant this ;;
  if JsNum.strict_eq det (Num 0) then throw else
  entries <- array_lit [] ;;
  for_ 4 (fun i =>
    for_ 4 (fun j =>
      d <- _adjointDeterminant this i j ;;
      push entries (d / det))) ;;
  new entries.

End Matrix4x4.

(** ** The kernel weight of the image-processing demo (js/image-processing.js) *)

Module ImageProcessing.

Local Open Scope num_scope.

(** [kernel.reduce(function (prev, curr) { return prev + curr; })], with no
    initial value: the first element starts the accumulation, and an empty
    array makes [reduce] throw (a TypeError).  A kernel is an array literal
    of numbers; holes, which [reduce] would skip, do not occur in it. *)
Definition reduce_sum (kernel : ref) : M num :=
  es <- read_arr kernel ;;
  match es with
  | [] => throw
  | first :: rest => ret (fold_left (fun prev curr => prev + curr) rest first)
  end.

(** [computeKernelWeight(kernel)] *)
Definition computeKernelWeight (kernel : ref) : M num :=
  weight <- reduce_sum kernel ;;
  ret (if JsNum.le weight (Num 0) then Num 1 else weight).

End ImageProcessing.

(** ** The 2D demo ([drawScene]) *)

Module Scene.


End Scene.

(** ** Functional model of the array contents

    What each loop nest of the matrix classes leaves in the array it
    fills, as a function of the contents it reads.  The refinement lemmas
    below prove that the methods compute exactly these values; the
    algebra of the claims is then carried out on them. *)

Module Val.

Local Open Scope num_scope.

Definition entry (es : list num) (i : nat) : num := nth i es NaN.

(** [sum = 0; for (k < n) sum += term(k)] *)
Definition sum_terms (n : nat) (term : nat -> num) : num :=
  fold_left (fun s k => s + term k) (seq 0 n) (Num 0).

(** [for (i < n) for (j < n) T[i * n + j] = cell(i, j)] *)
Definition fill (n : nat) (cell : nat -> nat -> num) (T : list num) : list num :=
  fold_left
    (fun T' i =>
       fold_left (fun T'' j => arr_set T'' (i * n + j) (cell i j)) (seq 0 n) T')
    (seq 0 n) T.

(** Contents of [this] after [this.mult(b)], [b] another array. *)
Definition mult (n : nat) (A B : list num) : list num :=
  fill n (fun i j => sum_terms n (fun k => entry A (i * n + k) * entry B (k * n + j))) A.

(** Contents of [this] after [this.premult(b)] in Matrix2x2 and Matrix3x3. *)
Definition premult_kj_ik (n : nat) (A B : list num) : list num :=
  fill n (fun i j => sum_terms n (fun k => entry B (k * n + j) * entry A (i * n + k))) A.

(** Contents of [this] after [this.premult(b)] in Matrix4x4. *)
Definition premult_ik_kj (n : nat) (A B : list num) : list num :=
  fill n (fun i j => sum_terms n (fun k => entry B (i * n + k) * entry A (k * n + j))) A.

(** Entries pushed by [_cofactor(i, j)] on a matrix of order [n]. *)
Definition cofactor (n : nat) (T : list num) (i j : nat) : list num :=
  fold_left
    (fun E a =>
       if Nat.eqb a i then E else
       fold_left (fun E' b => if Nat.eqb b j then E' else E' ++ [entry T (a * n + b)])
                 (seq 0 n) E)
    (seq 0 n) [].

Definition det2 (T : list num) : num :=
  entry T 0 * entry T 3 - entry T 1 * entry T 2.

Definition det3 (T : list num) : num :=
  fold_left
    (fun sum j => sum + JsNum.pow (Num (-1)) j * entry T j * det2 (cofactor 3 T 0 j))
    (seq 0 3) (Num 0).

Definition det4 (T : list num) : num :=
  fold_left
    (fun sum j => sum + JsNum.pow (Num (-1)) j * entry T j * det3 (cofactor 4 T 0 j))
    (seq 0 4) (Num 0).

(** The copy that [_adjointDeterminant(i, j)] takes the determinant of. *)
Definition adjoint (n : nat) (T : list num) (i j : nat) : list num :=
  fold_left
    (fun A k => arr_set A (k * n + i) (if Nat.eqb k j then Num 1 else Num 0))
    (seq 0 n) T.

(** Entries pushed by the two loops of [inverse()], both of which run to
    [bound]; [adj i j] is the value of [_adjointDeterminant(i, j)]. *)
Definition inverse_entries (bound : nat) (adj : nat -> nat -> num) (det : num) : list num :=
  fold_left
    (fun E i => fold_left (fun E' j => E' ++ [adj i j / det]) (seq 0 bound) E)
    (seq 0 bound) [].

Definition inverse3 (T : list num) : list num :=
  inverse_entries 4 (fun i j => det3 (adjoint 3 T i j)) (det3 T).

Definition inverse4 (T : list num) : list num :=
  inverse_entries 4 (fun i j => det4 (adjoint 4 T i j)) (det4 T).

(** Components of a Vector3 (x, y, z) after [normalize()]. *)
Definition normalized (x y z : num) : num * num * num :=
  let len := JsNum.sqrt (JsNum.pow x 2 + JsNum.pow y 2 + JsNum.pow z 2) in
  if JsNum.gt len JsNum.EPSILON
  then (x / len, y / len, z / len)
  else (Num 0, Num 0, Num 0).

End Val.

(** ** Mathematical notions used to state the properties *)

(** Row-major entries of the identity matrix of order [n]. *)
Definition identity_entries (n : nat) : list num :=
  flat_map (fun i => map (fun j => if Nat.eqb i j then Num 1 else Num 0) (seq 0 n)) (seq 0 n).

(** The sum of [f 0 .. f (n - 1)] over the reals. *)
Fixpoint Rsum (n : nat) (f : nat -> R) : R :=
  match n with
  | O => 0
  | S n' => Rsum n' f + f n'
  end.

(** Entry (i, j) of the matrix product X × Y of two real matrices of
    order [n] given by their row-major entries. *)
Definition product_entry (n : nat) (X Y : list R) (i j : nat) : R :=
  Rsum n (fun k => nth (i * n + k) X 0 * nth (k * n + j) Y 0).

(** Row-major entries of the product X × Y. *)
Definition product (n : nat) (X Y : list R) : list R :=
  flat_map (fun i => map (fun j => product_entry n X Y i j) (seq 0 n)) (seq 0 n).

(** Modelled from the spec: the row-vector convention of the glossary,
    [v' = v × M], for a vector of [n] components and a row-major matrix of
    order [n]; the product itself is not computed anywhere under js/ (the
    vertex shader does it). *)
Definition row_times_matrix (n : nat) (v : list R) (m : list R) : list R :=
  map (fun j => Rsum n (fun i => nth i v 0 * nth (i * n + j) m 0)) (seq 0 n).

(** A heap [h'] extends [h] when it only adds objects behind it: every
    object of [h] is still there, unchanged. *)
Definition extends (h h' : heap) : Prop := exists g, h' = h ++ g.

(** In heap [h], the array behind [r] holds the real numbers [rs]. *)
Definition holds (h : heap) (r : ref) (rs : list R) : Prop :=
  lookup h r = Some (Arr (map Num rs)).

(** From [h] to [h'], no object of [h] other than [w] has changed. *)
Definition unchanged_except (w : ref) (h h' : heap) : Prop :=
  forall r, (r < length h)%nat -> r <> w -> lookup h' r = lookup h r.

(** Row-major entries of the identity matrix of order [n], as reals. *)
Definition identity_reals (n : nat) : list R :=
  flat_map (fun i => map (fun j => if Nat.eqb i j then 1 else 0) (seq 0 n)) (seq 0 n).

(** The real entries that the static builders put in a new matrix, for
    real arguments ([builders3_reals] and [builders4_reals] below). *)
Definition translation3 (tx ty : R) : list R :=
  [1; 0; 0;  0; 1; 0;  tx; ty; 1].
Definition rotation3 (a : R) : list R :=
  [cos a; - sin a; 0;  sin a; cos a; 0;  0; 0; 1].
Definition scaling3 (sx sy : R) : list R :=
  [sx; 0; 0;  0; sy; 0;  0; 0; 1].
Definition translation4 (tx ty tz : R) : list R :=
  [1; 0; 0; 0;  0; 1; 0; 0;  0; 0; 1; 0;  tx; ty; tz; 1].
Definition xRotation4 (a : R) : list R :=
  [1; 0; 0; 0;  0; cos a; sin a; 0;  0; - sin a; cos a; 0;  0; 0; 0; 1].
Definition yRotation4 (a : R) : list R :=
  [cos a; 0; - sin a; 0;  0; 1; 0; 0;  sin a; 0; cos a; 0;  0; 0; 0; 1].
Definition zRotation4 (a : R) : list R :=
  [cos a; sin a; 0; 0;  - sin a; cos a; 0; 0;  0; 0; 1; 0;  0; 0; 0; 1].
Definition scaling4 (sx sy sz : R) : list R :=
  [sx; 0; 0; 0;  0; sy; 0; 0;  0; 0; sz; 0;  0; 0; 0; 1].

(** The minor of a matrix of order [n]: row [i] and column [j] deleted, the
    other rows and columns in their order. *)
Definition skip (i a : nat) : nat := if Nat.ltb a i then a else S a.

Definition minor (n : nat) (A : list R) (i j : nat) : list R :=
  flat_map
    (fun a => map (fun b => nth (skip i a * n + skip j b) A 0) (seq 0 (n - 1)))
    (seq 0 (n - 1)).

(** A matrix of order [n], given by its row-major entries, with a row
    (resp. a column) of zeros. *)
Definition zero_row (n : nat) (rs : list R) : Prop :=
  exists i, (i < n)%nat /\ forall j, (j < n)%nat -> nth (i * n + j) rs 0 = 0.

Definition zero_column (n : nat) (rs : list R) : Prop :=
  exists j, (j < n)%nat /\ forall i, (i < n)%nat -> nth (i * n + j) rs 0 = 0.


(** ** The methods over IEEE doubles

    The modules above compute on exact reals.  A JavaScript number is an
    IEEE 754 binary64 value: a product or a sum that leaves the range
    becomes an infinity, and [0 * Infinity] or [Infinity - Infinity] is
    NaN.  Module [Ieee] repeats, over the binary64 numbers of the kernel
    ([PrimFloat]), the heap, the monad and those methods whose behaviour
    at such values a claim depends on: [Vector3.cross], [length],
    [divide], [zeroValues] and [normalize], and the determinants,
    [_cofactor], [copy], [_adjointDeterminant] and [inverse] of the matrix
    classes.  The bodies are those of the modules above, operator by
    operator; the programs run inside the logic on concrete inputs. *)

Module Ieee.

Import PrimFloat.
Local Open Scope float_scope.

(** 2^600, a finite double (about 4.1e180) whose square overflows. *)
Definition two_pow_600 : float := 0x1p600.

(** [Number.EPSILON], 2^-52. *)
Definition EPSILON : float := 0x1p-52.

(** [x ** n] for the exponents the library uses, 2 and the loop index of
    [(-1) ** j]: the product of [n] factors [x], which is the exact power
    when that is a double and overflows when the power does
    ([NaN ** 0] is 1). *)
Fixpoint pow (x : float) (n : nat) : float :=
  match n with
  | O => 1
  | S n' => x * pow x n'
  end.

(** [a > b] and [a === b] on numbers are the IEEE comparisons: false as
    soon as one side is NaN. *)
Definition gt (a b : float) : bool := ltb b a.
Definition strict_eq (a b : float) : bool := eqb a b.


Inductive obj : Type :=
| Arr (es : list float)          (* an array of numbers *)
| Vec (x y z : float).           (* a Vector3 instance *)

Definition heap : Type := list obj.

Definition lookup (h : heap) (r : ref) : option obj := nth_error h r.

Fixpoint upd (h : heap) (r : ref) (o : obj) : heap :=
  match h, r with
  | [], _ => []
  | _ :: t, O => o :: t
  | x :: t, S r' => x :: upd t r' o
  end.

Inductive result (A : Type) : Type :=
| Ok (a : A) (h : heap)
| Thrown (h : heap)
| Stuck.
Arguments Ok {A} a h.
Arguments Thrown {A} h.
Arguments Stuck {A}.

Definition M (A : Type) : Type := heap -> result A.

Definition ret {A} (a : A) : M A := fun h => Ok a h.

Definition bind {A B} (m : M A) (f : A -> M B) : M B :=
  fun h =>
    match m h with
    | Ok a h' => f a h'
    | Thrown h' => Thrown h'
    | Stuck => Stuck
    end.

Definition throw {A} : M A := fun h => Thrown h.

Declare Scope ieee_scope.
Delimit Scope ieee_scope with ieee.
Bind Scope ieee_scope with M.

Notation "x <- c1 ;; c2" := (bind c1 (fun x => c2))
  (at level 61, c1 at next level, right associativity) : ieee_scope.
Notation "c1 ;; c2" := (bind c1 (fun _ => c2))
  (at level 61, right associativity) : ieee_scope.
Notation "' pat <- c1 ;; c2" :=
  (bind c1 (fun x => match x with pat => c2 end))
  (at level 61, pat pattern, c1 at next level, right associativity) : ieee_scope.

Local Open Scope ieee_scope.

Definition alloc (o : obj) : M ref :=
  fun h => Ok (length h) (h ++ [o]).

Definition read_arr (r : ref) : M (list float) :=
  fun h => match lookup h r with Some (Arr es) => Ok es h | _ => Stuck end.

Definition write_arr (r : ref) (es : list float) : M unit :=
  fun h => match lookup h r with Some (Arr _) => Ok tt (upd h r (Arr es)) | _ => Stuck end.

Definition read_vec (r : ref) : M (float * float * float) :=
  fun h => match lookup h r with Some (Vec x y z) => Ok (x, y, z) h | _ => Stuck end.

Definition write_vec (r : ref) (v : float * float * float) : M unit :=
  fun h =>
    match lookup h r with
    | Some (Vec _ _ _) => let '(x, y, z) := v in Ok tt (upd h r (Vec x y z))
    | _ => Stuck
    end.

(** A missing array element is read as [undefined], which every operator
    of these methods turns into NaN; it is read as NaN here. *)
Fixpoint arr_set (es : list float) (i : nat) (v : float) : list float :=
  match es, i with
  | [], _ => repeat nan i ++ [v]
  | _ :: t, O => v :: t
  | e :: t, S i' => e :: arr_set t i' v
  end.

Definition aget (a : ref) (i : nat) : M float :=
  es <- read_arr a ;; ret (nth i es nan).

Definition aset (a : ref) (i : nat) (v : float) : M unit :=
  es <- read_arr a ;; write_arr a (arr_set es i v).

Definition push (a : ref) (v : float) : M unit :=
  es <- read_arr a ;; write_arr a (es ++ [v]).

Definition array_lit (es : list float) : M ref := alloc (Arr es).
Definition spread (a : ref) : M ref :=
  es <- read_arr a ;; alloc (Arr es).

Fixpoint for_each (l : list nat) (body : nat -> M unit) : M unit :=
  match l with
  | [] => ret tt
  | i :: l' => body i ;; for_each l' body
  end.

Definition for_ (n : nat) (body : nat -> M unit) : M unit :=
  for_each (seq 0 n) body.

Fixpoint fold_each {S : Type} (l : list nat) (body : S -> nat -> M S) (s : S) : M S :=
  match l with
  | [] => ret s
  | i :: l' => s' <- body s i ;; fold_each l' body s'
  end.

Definition for_acc {S : Type} (n : nat) (s : S) (body : S -> nat -> M S) : M S :=
  fold_each (seq 0 n) body s.

(** *** Vector3 *)

Module Vector3.

(** [new Vector3(x, y, z)] *)
Definition new (x y z : float) : M ref := alloc (Vec x y z).

Definition get_x (v : ref) : M float := '(x, _, _) <- read_vec v ;; ret x.
Definition get_y (v : ref) : M float := '(_, y, _) <- read_vec v ;; ret y.
Definition get_z (v : ref) : M float := '(_, _, z) <- read_vec v ;; ret z.

Definition set_x (v : ref) (a : float) : M unit :=
  '(_, y, z) <- read_vec v ;; write_vec v (a, y, z).
Definition set_y (v : ref) (a : float) : M unit :=
  '(x, _, z) <- read_vec v ;; write_vec v (x, a, z).
Definition set_z (v : ref) (a : float) : M unit :=
  '(x, y, _) <- read_vec v ;; write_vec v (x, y, a).

(** [static cross(v1, v2)] *)
Definition cross (v1 v2 : ref) : M ref :=
  y1 <- get_y v1 ;; z2 <- get_z v2 ;; z1 <- get_z v1 ;; y2 <- get_y v2 ;;
  let cx := y1 * z2 - z1 * y2 in
  z1 <- get_z v1 ;; x2 <- get_x v2 ;; x1 <- get_x v1 ;; z2 <- get_z v2 ;;
  let cy := z1 * x2 - x1 * z2 in
  x1 <- get_x v1 ;; y2 <- get_y v2 ;; y1 <- get_y v1 ;; x2 <- get_x v2 ;;
  let cz := x1 * y2 - y1 * x2 in
  new cx cy cz.

(** [divide(d)] *)
Definition divide (this : ref) (d : float) : M unit :=
  a <- get_x this ;; set_x this (a / d) ;;
  a <- get_y this ;; set_y this (a / d) ;;
  a <- get_z this ;; set_z this (a / d).

(** [length()] *)
Definition length (this : ref) : M float :=
  x <- get_x this ;; y <- get_y this ;; z <- get_z this ;;
  ret (sqrt (pow x 2 + pow y 2 + pow z 2)).

(** [zeroValues()] *)
Definition zeroValues (this : ref) : M unit :=
  set_x this 0 ;; set_y this 0 ;; set_z this 0.

(** [normalize()] *)
Definition normalize (this : ref) : M ref :=
  length <- length this ;;
  (if gt length EPSILON then divide this length else zeroValues this) ;;
  ret this.

End Vector3.

(** *** Matrix2x2 *)

Module Matrix2x2.

Definition new (entries : ref) : M ref := ret entries.

(** [determinant()] *)
Definition determinant (this : ref) : M float :=
  e0 <- aget this 0 ;; e3 <- aget this 3 ;;
  e1 <- aget this 1 ;; e2 <- aget this 2 ;;
  ret (e0 * e3 - e1 * e2).

End Matrix2x2.

(** *** Matrix3x3 *)

Module Matrix3x3.

Definition new (entries : ref) : M ref := ret entries.

(** [_cofactor(i, j)] *)
Definition _cofactor (this : ref) (i j : nat) : M ref :=
  entries <- array_lit [] ;;
  for_ 3 (fun a =>
    if Nat.eqb a i then ret tt else
    for_ 3 (fun b =>
      if Nat.eqb b j then ret tt else
      e <- aget this (a * 3 + b) ;;
      push entries e)) ;;
  Matrix2x2.new entries.

(** [determinant()] *)
Definition determinant (this : ref) : M float :=
  for_acc 3 0 (fun sum j =>
    let sign := pow (-1) j in
    c <- _cofactor this 0 j ;;
    subDet <- Matrix2x2.determinant c ;;
    e <- aget this j ;;
    ret (sum + sign * e * subDet)).

End Matrix3x3.

(** *** Matrix4x4 *)

Module Matrix4x4.

Definition new (entries : ref) : M ref := ret entries.

(** [copy()] *)
Definition copy (this : ref) : M ref :=
  e <- spread this ;; new e.

(** [_cofactor(i, j)] *)
Definition _cofactor (this : ref) (i j : nat) : M ref :=
  entries <- array_lit [] ;;
  for_ 4 (fun a =>
    if Nat.eqb a i then ret tt else
    for_ 4 (fun b =>
      if Nat.eqb b j then ret tt else
      e <- aget this (a * 4 + b) ;;
      push entries e)) ;;
  Matrix3x3.new entries.

(** [determinant()] *)
Definition determinant (this : ref) : M float :=
  for_acc 4 0 (fun sum j =>
    let sign := pow (-1) j in
    c <- _cofactor this 0 j ;;
    subDet <- Matrix3x3.determinant c ;;
    e <- aget this j ;;
    ret (sum + sign * e * subDet)).

(** [_adjointDeterminant(i, j)] *)
Definition _adjointDeterminant (this : ref) (i j : nat) : M float :=
  adjoint <- copy this ;;
  for_ 4 (fun k =>
    aset adjoint (k * 4 + i) (if Nat.eqb k j then 1 else 0)) ;;
  determinant adjoint.

(** [inverse()] *)
Definition inverse (this : ref) : M ref :=
  det <- determinant this ;;
  if strict_eq det 0 then throw else
  entries <- array_lit [] ;;
  for_ 4 (fun i =>
    for_ 4 (fun j =>
      d <- _adjointDeterminant this i j ;;
      push entries (d / det))) ;;
  new entries.

End Matrix4x4.

End Ieee.


(** * Properties *)

Local Open Scope nat_scope.

(** ** The heap *)

Lemma lookup_valid h r o : lookup h r = Some o -> (r < length h)%nat.
Proof.
  unfold lookup; intros H. apply nth_error_Some. congruence.
Qed.

Lemma lookup_app_old h g r : (r < length h)%nat -> lookup (h ++ g) r = lookup h r.
Proof. intros; unfold lookup; now apply nth_error_app1. Qed.

Lemma lookup_app_new h o : lookup (h ++ [o]) (length h) = Some o.
Proof.
  unfold lookup. rewrite nth_error_app2 by lia. now rewrite Nat.sub_diag.
Qed.

Lemma upd_length h r o : length (upd h r o) = length h.
Proof.
  revert r; induction h as [|x t IH]; intros [|r]; simpl; auto.
Qed.

Lemma lookup_upd_eq h r o : (r < length h)%nat -> lookup (upd h r o) r = Some o.
Proof.
  revert r; induction h as [|x t IH]; intros [|r] Hr; simpl in *;
    try lia; try reflexivity.
  apply IH; lia.
Qed.

Lemma lookup_upd_neq h r r' o : r <> r' -> lookup (upd h r o) r' = lookup h r'.
Proof.
  revert r r'; induction h as [|x t IH]; intros [|r] [|r'] Hne; simpl;
    try reflexivity; try congruence.
  apply IH; congruence.
Qed.

Lemma upd_upd h r o o' : upd (upd h r o) r o' = upd h r o'.
Proof.
  revert r; induction h as [|x t IH]; intros [|r]; simpl; try reflexivity.
  now rewrite IH.
Qed.

Lemma upd_same h r o : lookup h r = Some o -> upd h r o = h.
Proof.
  revert r; induction h as [|x t IH]; intros [|r] H; simpl in *; try congruence.
  f_equal; now apply IH.
Qed.

Lemma upd_app_fresh h g r o :
  (length h <= r)%nat -> upd (h ++ g) r o = h ++ upd g (r - length h) o.
Proof.
  revert r; induction h as [|x t IH]; intros r Hr; simpl in *.
  - now rewrite Nat.sub_0_r.
  - destruct r as [|r]; [lia|]. simpl. rewrite IH by lia. reflexivity.
Qed.

Lemma upd_app_new h o o' : upd (h ++ [o]) (length h) o' = h ++ [o'].
Proof.
  rewrite upd_app_fresh by lia. now rewrite Nat.sub_diag.
Qed.

Lemma extends_refl h : extends h h.
Proof. exists []. now rewrite app_nil_r. Qed.

Lemma extends_trans h1 h2 h3 : extends h1 h2 -> extends h2 h3 -> extends h1 h3.
Proof.
  intros [g1 ->] [g2 ->]. exists (g1 ++ g2). now rewrite app_assoc.
Qed.

Lemma extends_app h g : extends h (h ++ g).
Proof. now exists g. Qed.

Lemma extends_length h h' : extends h h' -> (length h <= length h')%nat.
Proof. intros [g ->]. rewrite length_app. lia. Qed.

Lemma extends_lookup h h' r o : extends h h' -> lookup h r = Some o -> lookup h' r = Some o.
Proof.
  intros [g ->] H. rewrite lookup_app_old; auto. eapply lookup_valid; eauto.
Qed.

Lemma extends_lookup_lt h h' r : extends h h' -> (r < length h)%nat -> lookup h' r = lookup h r.
Proof. intros [g ->] H. now apply lookup_app_old. Qed.

Lemma extends_upd_fresh h h' r o :
  extends h h' -> (length h <= r)%nat -> extends h (upd h' r o).
Proof.
  intros [g ->] Hr. rewrite upd_app_fresh by exact Hr. apply extends_app.
Qed.

(** ** Running the primitives *)

Lemma bind_ok {A B} (m : M A) (f : A -> M B) h a h' :
  m h = Ok a h' -> bind m f h = f a h'.
Proof. unfold bind; now intros ->. Qed.

Lemma run_aget h a es i :
  lookup h a = Some (Arr es) -> aget a i h = Ok (nth i es NaN) h.
Proof. intros H. unfold aget, bind, read_arr. now rewrite H. Qed.

Lemma run_aset h a es i v :
  lookup h a = Some (Arr es) -> aset a i v h = Ok tt (upd h a (Arr (arr_set es i v))).
Proof. intros H. unfold aset, bind, read_arr, write_arr. now rewrite H, H. Qed.

Lemma run_push h a es v :
  lookup h a = Some (Arr es) -> push a v h = Ok tt (upd h a (Arr (es ++ [v]))).
Proof. intros H. unfold push, bind, read_arr, write_arr. now rewrite H, H. Qed.

Lemma run_spread h a es :
  lookup h a = Some (Arr es) -> spread a h = Ok (length h) (h ++ [Arr es]).
Proof. intros H. unfold spread, bind, read_arr, alloc. now rewrite H. Qed.

Lemma run_get_x h v x y z :
  lookup h v = Some (Vec x y z) -> Vector3.get_x v h = Ok x h.
Proof. intros H. unfold Vector3.get_x, bind, read_vec. now rewrite H. Qed.

Lemma run_get_y h v x y z :
  lookup h v = Some (Vec x y z) -> Vector3.get_y v h = Ok y h.
Proof. intros H. unfold Vector3.get_y, bind, read_vec. now rewrite H. Qed.

Lemma run_get_z h v x y z :
  lookup h v = Some (Vec x y z) -> Vector3.get_z v h = Ok z h.
Proof. intros H. unfold Vector3.get_z, bind, read_vec. now rewrite H. Qed.

Lemma run_set_x h v x y z a :
  lookup h v = Some (Vec x y z) -> Vector3.set_x v a h = Ok tt (upd h v (Vec a y z)).
Proof. intros H. unfold Vector3.set_x, bind, read_vec, write_vec. now rewrite H, H. Qed.

Lemma run_set_y h v x y z a :
  lookup h v = Some (Vec x y z) -> Vector3.set_y v a h = Ok tt (upd h v (Vec x a z)).
Proof. intros H. unfold Vector3.set_y, bind, read_vec, write_vec. now rewrite H, H. Qed.

Lemma run_set_z h v x y z a :
  lookup h v = Some (Vec x y z) -> Vector3.set_z v a h = Ok tt (upd h v (Vec x y a)).
Proof. intros H. unfold Vector3.set_z, bind, read_vec, write_vec. now rewrite H, H. Qed.

(** ** Loops *)

(** A loop whose body leaves the heap alone computes a fold. *)
Lemma fold_each_pure {S : Type} (l : list nat) (body : S -> nat -> M S)
      (g : S -> nat -> S) (h : heap) :
  (forall s i, In i l -> body s i h = Ok (g s i) h) ->
  forall s, fold_each l body s h = Ok (fold_left g l s) h.
Proof.
  induction l as [|i l IH]; intros Hb s; simpl.
  - reflexivity.
  - rewrite (bind_ok _ _ _ _ _ (Hb s i (or_introl eq_refl))).
    apply IH. intros; apply Hb; now right.
Qed.

(** A loop whose body moves the heap along a family [H s] of heaps. *)
Lemma for_each_fold {S : Type} (H : S -> heap) (step : S -> nat -> S)
      (l : list nat) (body : nat -> M unit) :
  (forall s i, In i l -> body i (H s) = Ok tt (H (step s i))) ->
  forall s, for_each l body (H s) = Ok tt (H (fold_left step l s)).
Proof.
  induction l as [|i l IH]; intros Hb s; simpl.
  - reflexivity.
  - rewrite (bind_ok _ _ _ _ _ (Hb s i (or_introl eq_refl))).
    apply IH. intros; apply Hb; now right.
Qed.

(** Invariant rule: [I s h] relates the heap to a ghost state [s] that each
    iteration advances by [step]. *)
Lemma for_each_inv {S : Type} (I : S -> heap -> Prop) (step : S -> nat -> S)
      (l : list nat) (body : nat -> M unit) :
  (forall s i h, In i l -> I s h -> exists h', body i h = Ok tt h' /\ I (step s i) h') ->
  forall s h, I s h -> exists h', for_each l body h = Ok tt h' /\ I (fold_left step l s) h'.
Proof.
  induction l as [|i l IH]; intros Hb s h HI; simpl.
  - now exists h.
  - destruct (Hb s i h (or_introl eq_refl) HI) as (h1 & E1 & HI1).
    rewrite (bind_ok _ _ _ _ _ E1).
    apply IH; auto. intros; apply Hb; auto; now right.
Qed.

Lemma fold_each_inv {S : Type} (I : heap -> Prop) (g : S -> nat -> S)
      (l : list nat) (body : S -> nat -> M S) :
  (forall s i h, In i l -> I h -> exists h', body s i h = Ok (g s i) h' /\ I h') ->
  forall s h, I h -> exists h', fold_each l body s h = Ok (fold_left g l s) h' /\ I h'.
Proof.
  induction l as [|i l IH]; intros Hb s h HI; simpl.
  - now exists h.
  - destruct (Hb s i h (or_introl eq_refl) HI) as (h1 & E1 & HI1).
    rewrite (bind_ok _ _ _ _ _ E1).
    apply IH; auto. intros; apply Hb; auto; now right.
Qed.

(** ** Refinement: the methods compute the functional model *)

Lemma run_fill (n : nat) (this : ref) (cellM : nat -> nat -> M num)
      (cell : nat -> nat -> num) (h1 : heap) (T : list num) :
  lookup h1 this = Some (Arr T) ->
  (forall X i j, In i (seq 0 n) -> In j (seq 0 n) ->
     cellM i j (upd h1 this (Arr X)) = Ok (cell i j) (upd h1 this (Arr X))) ->
  for_ n (fun i => for_ n (fun j => sum <- cellM i j ;; aset this (i * n + j) sum)) h1
  = Ok tt (upd h1 this (Arr (Val.fill n cell T))).
Proof.
  intros Hthis Hcell.
  assert (Hlt : this < length h1) by (eapply lookup_valid; eauto).
  rewrite <- (upd_same h1 this (Arr T) Hthis) at 1.
  unfold for_, Val.fill.
  apply (for_each_fold (fun X => upd h1 this (Arr X))).
  intros X i Hi.
  apply (for_each_fold (fun X => upd h1 this (Arr X))
           (fun T'' j => arr_set T'' (i * n + j) (cell i j))).
  intros X' j Hj.
  rewrite (bind_ok _ _ _ _ _ (Hcell X' i j Hi Hj)).
  rewrite (run_aset _ _ X') by (now apply lookup_upd_eq).
  now rewrite upd_upd.
Qed.

Lemma run_product (n : nat) (this p q : ref) (f g : nat -> nat -> nat -> nat)
      (h1 : heap) (T P Q : list num) :
  lookup h1 this = Some (Arr T) ->
  lookup h1 p = Some (Arr P) -> lookup h1 q = Some (Arr Q) ->
  p <> this -> q <> this ->
  for_ n (fun i => for_ n (fun j =>
     sum <- for_acc n (Num 0) (fun sum k =>
              x <- aget p (f i j k) ;;
              y <- aget q (g i j k) ;;
              ret (sum + x * y)%num) ;;
     aset this (i * n + j) sum)) h1
  = Ok tt (upd h1 this (Arr (Val.fill n
       (fun i j => Val.sum_terms n
          (fun k => Val.entry P (f i j k) * Val.entry Q (g i j k))%num) T))).
Proof.
  intros Hthis Hp Hq Hpt Hqt.
  apply (run_fill n this
           (fun i j => for_acc n (Num 0) (fun sum k =>
              x <- aget p (f i j k) ;; y <- aget q (g i j k) ;; ret (sum + x * y)%num))); auto.
  intros X i j _ _.
  unfold for_acc, Val.sum_terms.
  apply (fold_each_pure (seq 0 n) _
           (fun s k => (s + Val.entry P (f i j k) * Val.entry Q (g i j k))%num)).
  intros s k _.
  assert (Hp' : lookup (upd h1 this (Arr X)) p = Some (Arr P))
    by (rewrite lookup_upd_neq; auto).
  assert (Hq' : lookup (upd h1 this (Arr X)) q = Some (Arr Q))
    by (rewrite lookup_upd_neq; auto).
  rewrite (bind_ok _ _ _ _ _ (run_aget _ _ _ _ Hp')).
  rewrite (bind_ok _ _ _ _ _ (run_aget _ _ _ _ Hq')).
  reflexivity.
Qed.

Lemma run_cofactor_loop (n : nat) (this e : ref) (i j : nat) (h : heap) (T E0 : list num) :
  lookup h this = Some (Arr T) -> lookup h e = Some (Arr E0) -> e <> this ->
  for_ n (fun a =>
    if Nat.eqb a i then ret tt else
    for_ n (fun b =>
      if Nat.eqb b j then ret tt else
      v <- aget this (a * n + b) ;; push e v)) h
  = Ok tt (upd h e (Arr (fold_left
      (fun E a =>
         if Nat.eqb a i then E else
         fold_left (fun E' b => if Nat.eqb b j then E' else E' ++ [Val.entry T (a * n + b)])
                   (seq 0 n) E)
      (seq 0 n) E0))).
Proof.
  intros Ht He Hne.
  assert (Hlt : e < length h) by (eapply lookup_valid; eauto).
  rewrite <- (upd_same h e (Arr E0) He) at 1.
  unfold for_.
  apply (for_each_fold (fun X => upd h e (Arr X))).
  intros X a _.
  destruct (Nat.eqb a i); [reflexivity|].
  apply (for_each_fold (fun X => upd h e (Arr X))
           (fun E' b => if Nat.eqb b j then E' else E' ++ [Val.entry T (a * n + b)])).
  intros X' b _.
  destruct (Nat.eqb b j); [reflexivity|].
  assert (Ht' : lookup (upd h e (Arr X')) this = Some (Arr T))
    by (rewrite lookup_upd_neq; auto).
  rewrite (bind_ok _ _ _ _ _ (run_aget _ _ _ _ Ht')).
  rewrite (run_push _ _ X') by (now apply lookup_upd_eq).
  now rewrite upd_upd.
Qed.


Lemma run_adjoint_loop (n : nat) (adjoint : ref) (i j : nat) (h : heap) (A0 : list num) :
  lookup h adjoint = Some (Arr A0) ->
  for_ n (fun k => aset adjoint (k * n + i) (if Nat.eqb k j then Num 1 else Num 0)) h
  = Ok tt (upd h adjoint (Arr (Val.adjoint n A0 i j))).
Proof.
  intros Ha.
  assert (Hlt : adjoint < length h) by (eapply lookup_valid; eauto).
  rewrite <- (upd_same h adjoint (Arr A0) Ha) at 1.
  unfold for_, Val.adjoint.
  apply (for_each_fold (fun X => upd h adjoint (Arr X))
           (fun A k => arr_set A (k * n + i) (if Nat.eqb k j then Num 1 else Num 0))).
  intros X k _.
  rewrite (run_aset _ _ X) by (now apply lookup_upd_eq).
  now rewrite upd_upd.
Qed.


Lemma run_inverse_loop (bound : nat) (adjM : nat -> nat -> M num)
      (adj : nat -> nat -> num) (det : num) (e : ref) (h0 : heap) :
  (forall i j h, extends h0 h ->
     exists h', adjM i j h = Ok (adj i j) h' /\ extends h h') ->
  length h0 <= e ->
  forall h, extends h0 h -> lookup h e = Some (Arr []) ->
  exists h',
    for_ bound (fun i => for_ bound (fun j =>
      d <- adjM i j ;; push e (d / det)%num)) h = Ok tt h'
    /\ extends h0 h'
    /\ lookup h' e = Some (Arr (Val.inverse_entries bound adj det)).
Proof.
  intros Hadj He h Hext Hl.
  unfold for_, Val.inverse_entries.
  destruct (for_each_inv
              (fun E h' => extends h0 h' /\ lookup h' e = Some (Arr E))
              (fun E i => fold_left (fun E' j => E' ++ [(adj i j / det)%num]) (seq 0 bound) E)
              (seq 0 bound)
              (fun i => for_each (seq 0 bound) (fun j => d <- adjM i j ;; push e (d / det)%num)))
    with (s := @nil num) (h := h) as (h' & E & HI); auto.
  - intros E i h1 _ HI.
    apply (for_each_inv
             (fun E h' => extends h0 h' /\ lookup h' e = Some (Arr E))
             (fun E' j => E' ++ [(adj i j / det)%num])); auto.
    intros E' j h2 _ [Hext2 Hl2].
    destruct (Hadj i j h2 Hext2) as (h3 & E3 & Hext3).
    rewrite (bind_ok _ _ _ _ _ E3).
    assert (Hl3 : lookup h3 e = Some (Arr E')) by (eapply extends_lookup; eauto).
    rewrite (run_push _ _ _ _ Hl3).
    eexists; split; [reflexivity|]. split.
    + apply extends_upd_fresh; auto. eapply extends_trans; eauto.
    + apply lookup_upd_eq. eapply lookup_valid; eauto.
  - exists h'. tauto.
Qed.

Lemma strict_eq_zero_true d : d = Num 0%R -> JsNum.strict_eq d (Num 0%R) = true.
Proof.
  intros ->. unfold JsNum.strict_eq. destruct (Req_dec_T 0 0); congruence.
Qed.

Lemma strict_eq_zero_false d : d <> Num 0%R -> JsNum.strict_eq d (Num 0%R) = false.
Proof.
  intros Hd. destruct d as [r|]; simpl; auto.
  destruct (Req_dec_T r 0); congruence.
Qed.


(** *** Matrix2x2 *)

Lemma run_copy2 h this T :
  lookup h this = Some (Arr T) ->
  Matrix2x2.copy this h = Ok (length h) (h ++ [Arr T]).
Proof.
  intros Ht. unfold Matrix2x2.copy, Matrix2x2.new.
  now rewrite (bind_ok _ _ _ _ _ (run_spread _ _ _ Ht)).
Qed.

Lemma run_mult2 h this b T B :
  lookup h this = Some (Arr T) -> lookup h b = Some (Arr B) -> this <> b ->
  Matrix2x2.mult this b h = Ok tt (upd (h ++ [Arr T]) this (Arr (Val.mult 2 T B))).
Proof.
  intros Ht Hb Hne.
  pose proof (lookup_valid _ _ _ Ht). pose proof (lookup_valid _ _ _ Hb).
  unfold Matrix2x2.mult.
  rewrite (bind_ok _ _ _ _ _ (run_copy2 _ _ _ Ht)).
  apply (run_product 2 this (length h) b (fun i j k => i * 2 + k) (fun i j k => k * 2 + j)).
  - rewrite lookup_app_old; auto.
  - apply lookup_app_new.
  - rewrite lookup_app_old; auto.
  - lia.
  - auto.
Qed.

Lemma run_premult2 h this b T B :
  lookup h this = Some (Arr T) -> lookup h b = Some (Arr B) -> this <> b ->
  Matrix2x2.premult this b h = Ok tt (upd (h ++ [Arr T]) this (Arr (Val.premult_kj_ik 2 T B))).
Proof.
  intros Ht Hb Hne.
  pose proof (lookup_valid _ _ _ Ht). pose proof (lookup_valid _ _ _ Hb).
  unfold Matrix2x2.premult.
  rewrite (bind_ok _ _ _ _ _ (run_copy2 _ _ _ Ht)).
  apply (run_product 2 this b (length h) (fun i j k => k * 2 + j) (fun i j k => i * 2 + k)).
  - rewrite lookup_app_old; auto.
  - rewrite lookup_app_old; auto.
  - apply lookup_app_new.
  - auto.
  - lia.
Qed.
Lemma run_det2 h this T :
  lookup h this = Some (Arr T) ->
  Matrix2x2.determinant this h = Ok (Val.det2 T) h.
Proof.
  intros Ht. unfold Matrix2x2.determinant.
  now rewrite !(bind_ok _ _ _ _ _ (run_aget _ _ _ _ Ht)).
Qed.


(** *** Matrix3x3 *)

Lemma run_copy3 h this T :
  lookup h this = Some (Arr T) ->
  Matrix3x3.copy this h = Ok (length h) (h ++ [Arr T]).
Proof.
  intros Ht. unfold Matrix3x3.copy, Matrix3x3.new.
  now rewrite (bind_ok _ _ _ _ _ (run_spread _ _ _ Ht)).
Qed.

Lemma run_mult3 h this b T B :
  lookup h this = Some (Arr T) -> lookup h b = Some (Arr B) -> this <> b ->
  Matrix3x3.mult this b h = Ok tt (upd (h ++ [Arr T]) this (Arr (Val.mult 3 T B))).
Proof.
  intros Ht Hb Hne.
  pose proof (lookup_valid _ _ _ Ht). pose proof (lookup_valid _ _ _ Hb).
  unfold Matrix3x3.mult.
  rewrite (bind_ok _ _ _ _ _ (run_copy3 _ _ _ Ht)).
  apply (run_product 3 this (length h) b (fun i j k => i * 3 + k) (fun i j k => k * 3 + j)).
  - rewrite lookup_app_old; auto.
  - apply lookup_app_new.
  - rewrite lookup_app_old; auto.
  - lia.
  - auto.
Qed.

Lemma run_premult3 h this b T B :
  lookup h this = Some (Arr T) -> lookup h b = Some (Arr B) -> this <> b ->
  Matrix3x3.premult this b h = Ok tt (upd (h ++ [Arr T]) this (Arr (Val.premult_kj_ik 3 T B))).
Proof.
  intros Ht Hb Hne.
  pose proof (lookup_valid _ _ _ Ht). pose proof (lookup_valid _ _ _ Hb).
  unfold Matrix3x3.premult.
  rewrite (bind_ok _ _ _ _ _ (run_copy3 _ _ _ Ht)).
  apply (run_product 3 this b (length h) (fun i j k => k * 3 + j) (fun i j k => i * 3 + k)).
  - rewrite lookup_app_old; auto.
  - rewrite lookup_app_old; auto.
  - apply lookup_app_new.
  - auto.
  - lia.
Qed.

Lemma run_cofactor3 h this i j T :
  lookup h this = Some (Arr T) ->
  Matrix3x3._cofactor this i j h = Ok (length h) (h ++ [Arr (Val.cofactor 3 T i j)]).
Proof.
  intros Ht. pose proof (lookup_valid _ _ _ Ht).
  unfold Matrix3x3._cofactor, array_lit, Matrix2x2.new.
  rewrite (bind_ok _ _ h (length h) (h ++ [Arr []]) eq_refl).
  assert (Ht' : lookup (h ++ [Arr []]) this = Some (Arr T))
    by (rewrite lookup_app_old; auto).
  rewrite (bind_ok _ _ _ _ _
             (run_cofactor_loop 3 this (length h) i j (h ++ [Arr []]) T []
                Ht' (lookup_app_new _ _) ltac:(lia))).
  now rewrite upd_app_new.
Qed.

Lemma run_det3 h this T :
  lookup h this = Some (Arr T) ->
  exists h', Matrix3x3.determinant this h = Ok (Val.det3 T) h' /\ extends h h'.
Proof.
  intros Ht. unfold Matrix3x3.determinant, for_acc, Val.det3.
  apply (fold_each_inv (fun h' => extends h h')); [|apply extends_refl].
  intros s j h1 _ Hext.
  assert (Ht1 : lookup h1 this = Some (Arr T)) by (eapply extends_lookup; eauto).
  rewrite (bind_ok _ _ _ _ _ (run_cofactor3 _ _ 0 j _ Ht1)).
  rewrite (bind_ok _ _ _ _ _ (run_det2 _ _ _ (lookup_app_new h1 _))).
  pose (h2 := h1 ++ [Arr (Val.cofactor 3 T 0 j)]).
  assert (Hext2 : extends (h1 ++ [Arr (Val.cofactor 3 T 0 j)]) h2) by apply extends_refl.
  change (h1 ++ [Arr (Val.cofactor 3 T 0 j)]) with h2.
  assert (Ht2 : lookup h2 this = Some (Arr T)).
  { eapply extends_lookup; [|exact Ht1]. eapply extends_trans; [apply extends_app|exact Hext2]. }
  rewrite (bind_ok _ _ _ _ _ (run_aget _ _ _ _ Ht2)).
  eexists; split; [reflexivity|].
  eapply extends_trans; [exact Hext|].
  eapply extends_trans; [apply extends_app|exact Hext2].
Qed.

Lemma run_adjdet3 h this i j T :
  lookup h this = Some (Arr T) ->
  exists h', Matrix3x3._adjointDeterminant this i j h
             = Ok (Val.det3 (Val.adjoint 3 T i j)) h' /\ extends h h'.
Proof.
  intros Ht. unfold Matrix3x3._adjointDeterminant.
  rewrite (bind_ok _ _ _ _ _ (run_copy3 _ _ _ Ht)).
  rewrite (bind_ok _ _ _ _ _ (run_adjoint_loop 3 _ i j _ _ (lookup_app_new h _))).
  rewrite upd_app_new.
  destruct (run_det3 _ _ _ (lookup_app_new h (Arr (Val.adjoint 3 T i j)))) as (h' & E & Hext).
  exists h'; split; [exact E|].
  eapply extends_trans; [apply extends_app|eauto].
Qed.


Lemma run_inverse3_ok h this T :
  lookup h this = Some (Arr T) -> Val.det3 T <> Num 0%R ->
  exists e h', Matrix3x3.inverse this h = Ok e h' /\ extends h h' /\ length h <= e
               /\ lookup h' e = Some (Arr (Val.inverse3 T)).
Proof.
  intros Ht Hd. unfold Matrix3x3.inverse.
  destruct (run_det3 _ _ _ Ht) as (h1 & E1 & Hext1).
  rewrite (bind_ok _ _ _ _ _ E1), (strict_eq_zero_false _ Hd).
  unfold array_lit.
  rewrite (bind_ok _ _ h1 (length h1) (h1 ++ [Arr []]) eq_refl).
  destruct (run_inverse_loop 4 (Matrix3x3._adjointDeterminant this)
              (fun i j => Val.det3 (Val.adjoint 3 T i j)) (Val.det3 T)
              (length h1) h) with (h := h1 ++ [Arr []]) as (h' & E & Hext & Hl).
  - intros i j h2 Hext2. apply run_adjdet3. eapply extends_lookup; eauto.
  - now apply extends_length.
  - eapply extends_trans; [eauto|apply extends_app].
  - apply lookup_app_new.
  - rewrite (bind_ok _ _ _ _ _ E). unfold Matrix3x3.new, ret.
    exists (length h1), h'. repeat split; auto. now apply extends_length.
Qed.

(** *** Matrix4x4 *)

Lemma run_copy4 h this T :
  lookup h this = Some (Arr T) ->
  Matrix4x4.copy this h = Ok (length h) (h ++ [Arr T]).
Proof.
  intros Ht. unfold Matrix4x4.copy, Matrix4x4.new.
  now rewrite (bind_ok _ _ _ _ _ (run_spread _ _ _ Ht)).
Qed.

Lemma run_mult4 h this b T B :
  lookup h this = Some (Arr T) -> lookup h b = Some (Arr B) -> this <> b ->
  Matrix4x4.mult this b h = Ok tt (upd (h ++ [Arr T]) this (Arr (Val.mult 4 T B))).
Proof.
  intros Ht Hb Hne.
  pose proof (lookup_valid _ _ _ Ht). pose proof (lookup_valid _ _ _ Hb).
  unfold Matrix4x4.mult.
  rewrite (bind_ok _ _ _ _ _ (run_copy4 _ _ _ Ht)).
  apply (run_product 4 this (length h) b (fun i j k => i * 4 + k) (fun i j k => k * 4 + j)).
  - rewrite lookup_app_old; auto.
  - apply lookup_app_new.
  - rewrite lookup_app_old; auto.
  - lia.
  - auto.
Qed.

Lemma run_premult4 h this b T B :
  lookup h this = Some (Arr T) -> lookup h b = Some (Arr B) -> this <> b ->
  Matrix4x4.premult this b h = Ok tt (upd (h ++ [Arr T]) this (Arr (Val.premult_ik_kj 4 T B))).
Proof.
  intros Ht Hb Hne.
  pose proof (lookup_valid _ _ _ Ht). pose proof (lookup_valid _ _ _ Hb).
  unfold Matrix4x4.premult.
  rewrite (bind_ok _ _ _ _ _ (run_copy4 _ _ _ Ht)).
  apply (run_product 4 this b (length h) (fun i j k => i * 4 + k) (fun i j k => k * 4 + j)).
  - rewrite lookup_app_old; auto.
  - rewrite lookup_app_old; auto.
  - apply lookup_app_new.
  - auto.
  - lia.
Qed.

Lemma run_cofactor4 h this i j T :
  lookup h this = Some (Arr T) ->
  Matrix4x4._cofactor this i j h = Ok (length h) (h ++ [Arr (Val.cofactor 4 T i j)]).
Proof.
  intros Ht. pose proof (lookup_valid _ _ _ Ht).
  unfold Matrix4x4._cofactor, array_lit, Matrix3x3.new.
  rewrite (bind_ok _ _ h (length h) (h ++ [Arr []]) eq_refl).
  assert (Ht' : lookup (h ++ [Arr []]) this = Some (Arr T))
    by (rewrite lookup_app_old; auto).
  rewrite (bind_ok _ _ _ _ _
             (run_cofactor_loop 4 this (length h) i j (h ++ [Arr []]) T []
                Ht' (lookup_app_new _ _) ltac:(lia))).
  now rewrite upd_app_new.
Qed.

Lemma run_det4 h this T :
  lookup h this = Some (Arr T) ->
  exists h', Matrix4x4.determinant this h = Ok (Val.det4 T) h' /\ extends h h'.
Proof.
  intros Ht. unfold Matrix4x4.determinant, for_acc, Val.det4.
  apply (fold_each_inv (fun h' => extends h h')); [|apply extends_refl].
  intros s j h1 _ Hext.
  assert (Ht1 : lookup h1 this = Some (Arr T)) by (eapply extends_lookup; eauto).
  rewrite (bind_ok _ _ _ _ _ (run_cofactor4 _ _ 0 j _ Ht1)).
  destruct (run_det3 _ _ _ (lookup_app_new h1 (Arr (Val.cofactor 4 T 0 j))))
    as (h2 & E2 & Hext2).
  rewrite (bind_ok _ _ _ _ _ E2).
  assert (Ht2 : lookup h2 this = Some (Arr T)).
  { eapply extends_lookup; [|exact Ht1]. eapply extends_trans; [apply extends_app|exact Hext2]. }
  rewrite (bind_ok _ _ _ _ _ (run_aget _ _ _ _ Ht2)).
  eexists; split; [reflexivity|].
  eapply extends_trans; [exact Hext|].
  eapply extends_trans; [apply extends_app|exact Hext2].
Qed.

Lemma run_adjdet4 h this i j T :
  lookup h this = Some (Arr T) ->
  exists h', Matrix4x4._adjointDeterminant this i j h
             = Ok (Val.det4 (Val.adjoint 4 T i j)) h' /\ extends h h'.
Proof.
  intros Ht. unfold Matrix4x4._adjointDeterminant.
  rewrite (bind_ok _ _ _ _ _ (run_copy4 _ _ _ Ht)).
  rewrite (bind_ok _ _ _ _ _ (run_adjoint_loop 4 _ i j _ _ (lookup_app_new h _))).
  rewrite upd_app_new.
  destruct (run_det4 _ _ _ (lookup_app_new h (Arr (Val.adjoint 4 T i j)))) as (h' & E & Hext).
  exists h'; split; [exact E|].
  eapply extends_trans; [apply extends_app|eauto].
Qed.

Lemma run_inverse4_throw h this T :
  lookup h this = Some (Arr T) -> Val.det4 T = Num 0%R ->
  exists h', Matrix4x4.inverse this h = Thrown h' /\ extends h h'.
Proof.
  intros Ht Hd. unfold Matrix4x4.inverse.
  destruct (run_det4 _ _ _ Ht) as (h1 & E1 & Hext1).
  rewrite (bind_ok _ _ _ _ _ E1), (strict_eq_zero_true _ Hd).
  exists h1; split; [reflexivity|assumption].
Qed.

Lemma run_inverse4_ok h this T :
  lookup h this = Some (Arr T) -> Val.det4 T <> Num 0%R ->
  exists e h', Matrix4x4.inverse this h = Ok e h' /\ extends h h' /\ length h <= e
               /\ lookup h' e = Some (Arr (Val.inverse4 T)).
Proof.
  intros Ht Hd. unfold Matrix4x4.inverse.
  destruct (run_det4 _ _ _ Ht) as (h1 & E1 & Hext1).
  rewrite (bind_ok _ _ _ _ _ E1), (strict_eq_zero_false _ Hd).
  unfold array_lit.
  rewrite (bind_ok _ _ h1 (length h1) (h1 ++ [Arr []]) eq_refl).
  destruct (run_inverse_loop 4 (Matrix4x4._adjointDeterminant this)
              (fun i j => Val.det4 (Val.adjoint 4 T i j)) (Val.det4 T)
              (length h1) h) with (h := h1 ++ [Arr []]) as (h' & E & Hext & Hl).
  - intros i j h2 Hext2. apply run_adjdet4. eapply extends_lookup; eauto.
  - now apply extends_length.
  - eapply extends_trans; [eauto|apply extends_app].
  - apply lookup_app_new.
  - rewrite (bind_ok _ _ _ _ _ E). unfold Matrix4x4.new, ret.
    exists (length h1), h'. repeat split; auto. now apply extends_length.
Qed.

(** *** Vector3 *)

Lemma run_new h x y z :
  Vector3.new x y z h = Ok (length h) (h ++ [Vec x y z]).
Proof. reflexivity. Qed.

Lemma run_subtract h v1 v2 x1 y1 z1 x2 y2 z2 :
  lookup h v1 = Some (Vec x1 y1 z1) -> lookup h v2 = Some (Vec x2 y2 z2) ->
  Vector3.subtract v1 v2 h = Ok (length h) (h ++ [Vec (x1 - x2) (y1 - y2) (z1 - z2)]).
Proof.
  intros H1 H2. unfold Vector3.subtract.
  rewrite (bind_ok _ _ _ _ _ (run_get_x _ _ _ _ _ H1)), (bind_ok _ _ _ _ _ (run_get_x _ _ _ _ _ H2)).
  rewrite (bind_ok _ _ _ _ _ (run_get_y _ _ _ _ _ H1)), (bind_ok _ _ _ _ _ (run_get_y _ _ _ _ _ H2)).
  rewrite (bind_ok _ _ _ _ _ (run_get_z _ _ _ _ _ H1)), (bind_ok _ _ _ _ _ (run_get_z _ _ _ _ _ H2)).
  reflexivity.
Qed.

Lemma run_cross h v1 v2 x1 y1 z1 x2 y2 z2 :
  lookup h v1 = Some (Vec x1 y1 z1) -> lookup h v2 = Some (Vec x2 y2 z2) ->
  Vector3.cross v1 v2 h
  = Ok (length h) (h ++ [Vec (y1 * z2 - z1 * y2) (z1 * x2 - x1 * z2) (x1 * y2 - y1 * x2)]).
Proof.
  intros H1 H2. unfold Vector3.cross.
  rewrite (bind_ok _ _ _ _ _ (run_get_y _ _ _ _ _ H1)), (bind_ok _ _ _ _ _ (run_get_z _ _ _ _ _ H2)).
  rewrite (bind_ok _ _ _ _ _ (run_get_z _ _ _ _ _ H1)), (bind_ok _ _ _ _ _ (run_get_y _ _ _ _ _ H2)).
  rewrite (bind_ok _ _ _ _ _ (run_get_z _ _ _ _ _ H1)), (bind_ok _ _ _ _ _ (run_get_x _ _ _ _ _ H2)).
  rewrite (bind_ok _ _ _ _ _ (run_get_x _ _ _ _ _ H1)), (bind_ok _ _ _ _ _ (run_get_z _ _ _ _ _ H2)).
  rewrite (bind_ok _ _ _ _ _ (run_get_x _ _ _ _ _ H1)), (bind_ok _ _ _ _ _ (run_get_y _ _ _ _ _ H2)).
  rewrite (bind_ok _ _ _ _ _ (run_get_y _ _ _ _ _ H1)), (bind_ok _ _ _ _ _ (run_get_x _ _ _ _ _ H2)).
  reflexivity.
Qed.

Lemma run_length h v x y z :
  lookup h v = Some (Vec x y z) ->
  Vector3.length v h
  = Ok (JsNum.sqrt (JsNum.pow x 2 + JsNum.pow y 2 + JsNum.pow z 2)) h.
Proof.
  intros H. unfold Vector3.length.
  rewrite (bind_ok _ _ _ _ _ (run_get_x _ _ _ _ _ H)).
  rewrite (bind_ok _ _ _ _ _ (run_get_y _ _ _ _ _ H)).
  rewrite (bind_ok _ _ _ _ _ (run_get_z _ _ _ _ _ H)).
  reflexivity.
Qed.

Lemma run_divide h v x y z d :
  lookup h v = Some (Vec x y z) ->
  Vector3.divide v d h = Ok tt (upd h v (Vec (x / d) (y / d) (z / d))).
Proof.
  intros H. pose proof (lookup_valid _ _ _ H) as Hlt. unfold Vector3.divide.
  rewrite (bind_ok _ _ _ _ _ (run_get_x _ _ _ _ _ H)).
  rewrite (bind_ok _ _ _ _ _ (run_set_x _ _ _ _ _ (x / d)%num H)).
  assert (H1 : lookup (upd h v (Vec (x / d) y z)) v = Some (Vec (x / d) y z))
    by (now apply lookup_upd_eq).
  rewrite (bind_ok _ _ _ _ _ (run_get_y _ _ _ _ _ H1)).
  rewrite (bind_ok _ _ _ _ _ (run_set_y _ _ _ _ _ (y / d)%num H1)).
  rewrite upd_upd.
  assert (H2 : lookup (upd h v (Vec (x / d) (y / d) z)) v = Some (Vec (x / d) (y / d) z))
    by (now apply lookup_upd_eq).
  rewrite (bind_ok _ _ _ _ _ (run_get_z _ _ _ _ _ H2)).
  rewrite (run_set_z _ _ _ _ _ (z / d)%num H2).
  now rewrite upd_upd.
Qed.

Lemma run_zeroValues h v x y z :
  lookup h v = Some (Vec x y z) ->
  Vector3.zeroValues v h = Ok tt (upd h v (Vec (Num 0) (Num 0) (Num 0))).
Proof.
  intros H. pose proof (lookup_valid _ _ _ H) as Hlt. unfold Vector3.zeroValues.
  rewrite (bind_ok _ _ _ _ _ (run_set_x _ _ _ _ _ (Num 0) H)).
  assert (H1 : lookup (upd h v (Vec (Num 0) y z)) v = Some (Vec (Num 0) y z))
    by (now apply lookup_upd_eq).
  rewrite (bind_ok _ _ _ _ _ (run_set_y _ _ _ _ _ (Num 0) H1)).
  rewrite upd_upd.
  assert (H2 : lookup (upd h v (Vec (Num 0) (Num 0) z)) v = Some (Vec (Num 0) (Num 0) z))
    by (now apply lookup_upd_eq).
  rewrite (run_set_z _ _ _ _ _ (Num 0) H2).
  now rewrite upd_upd.
Qed.

(** The components [normalize()] leaves in a vector. *)
Lemma run_normalize h v x y z :
  lookup h v = Some (Vec x y z) ->
  let len := JsNum.sqrt (JsNum.pow x 2 + JsNum.pow y 2 + JsNum.pow z 2) in
  Vector3.normalize v h
  = Ok v (upd h v (if JsNum.gt len JsNum.EPSILON
                   then Vec (x / len) (y / len) (z / len)
                   else Vec (Num 0) (Num 0) (Num 0))).
Proof.
  intros H len. unfold Vector3.normalize.
  rewrite (bind_ok _ _ _ _ _ (run_length _ _ _ _ _ H)). fold len.
  destruct (JsNum.gt len JsNum.EPSILON).
  - now rewrite (bind_ok _ _ _ _ _ (run_divide _ _ _ _ _ len H)).
  - now rewrite (bind_ok _ _ _ _ _ (run_zeroValues _ _ _ _ _ H)).
Qed.

Lemma run_normalize_new h x y z :
  exists x' y' z',
    Vector3.normalize (length h) (h ++ [Vec x y z]) = Ok (length h) (h ++ [Vec x' y' z']).
Proof.
  rewrite (run_normalize _ _ _ _ _ (lookup_app_new h (Vec x y z))).
  destruct (JsNum.gt _ _); do 3 eexists; now rewrite upd_app_new.
Qed.

Lemma run_lookAt_given_up h origin target u :
  (exists x y z, lookup h origin = Some (Vec x y z)) ->
  (exists x y z, lookup h target = Some (Vec x y z)) ->
  (exists x y z, lookup h u = Some (Vec x y z)) ->
  exists m h', Matrix4x4.lookAt origin target (Some u) h = Ok m h' /\ extends h h'.
Proof.
  intros (ox & oy & oz & Ho) (tx & ty & tz & Ht) (ux & uy & uz & Hu).
  unfold Matrix4x4.lookAt.
  rewrite (bind_ok _ _ h u h eq_refl).
  rewrite (bind_ok _ _ _ _ _ (run_subtract _ _ _ _ _ _ _ _ _ Ho Ht)).
  destruct (run_normalize_new h (ox - tx) (oy - ty) (oz - tz)) as (zx & zy & zz & Ez).
  rewrite (bind_ok _ _ _ _ _ Ez).
  set (h1 := h ++ [Vec zx zy zz]).
  assert (Hext1 : extends h h1) by apply extends_app.
  assert (Hz1 : lookup h1 (length h) = Some (Vec zx zy zz)) by apply lookup_app_new.
  pose proof (extends_lookup _ _ _ _ Hext1 Hu) as Hu1.
  rewrite (bind_ok _ _ _ _ _ (run_cross _ _ _ _ _ _ _ _ _ Hu1 Hz1)).
  destruct (run_normalize_new h1 (uy * zz - uz * zy) (uz * zx - ux * zz) (ux * zy - uy * zx))
    as (xx & xy & xz & Ex).
  rewrite (bind_ok _ _ _ _ _ Ex).
  set (h2 := h1 ++ [Vec xx xy xz]).
  assert (Hext2 : extends h1 h2) by apply extends_app.
  assert (Hx2 : lookup h2 (length h1) = Some (Vec xx xy xz)) by apply lookup_app_new.
  pose proof (extends_lookup _ _ _ _ Hext2 Hz1) as Hz2.
  rewrite (bind_ok _ _ _ _ _ (run_cross _ _ _ _ _ _ _ _ _ Hz2 Hx2)).
  destruct (run_normalize_new h2 (zy * xz - zz * xy) (zz * xx - zx * xz) (zx * xy - zy * xx))
    as (yx & yy & yz & Ey).
  rewrite (bind_ok _ _ _ _ _ Ey).
  set (h3 := h2 ++ [Vec yx yy yz]).
  assert (Hext3 : extends h2 h3) by apply extends_app.
  assert (Hy3 : lookup h3 (length h2) = Some (Vec yx yy yz)) by apply lookup_app_new.
  pose proof (extends_lookup _ _ _ _ Hext3 Hx2) as Hx3.
  pose proof (extends_lookup _ _ _ _ Hext3 Hz2) as Hz3.
  assert (Hext : extends h h3) by (repeat (eapply extends_trans; eauto)).
  pose proof (extends_lookup _ _ _ _ Hext Ho) as Ho3.
  rewrite (bind_ok _ _ _ _ _ (run_get_x _ _ _ _ _ Hx3)), (bind_ok _ _ _ _ _ (run_get_y _ _ _ _ _ Hx3)),
          (bind_ok _ _ _ _ _ (run_get_z _ _ _ _ _ Hx3)).
  rewrite (bind_ok _ _ _ _ _ (run_get_x _ _ _ _ _ Hy3)), (bind_ok _ _ _ _ _ (run_get_y _ _ _ _ _ Hy3)),
          (bind_ok _ _ _ _ _ (run_get_z _ _ _ _ _ Hy3)).
  rewrite (bind_ok _ _ _ _ _ (run_get_x _ _ _ _ _ Hz3)), (bind_ok _ _ _ _ _ (run_get_y _ _ _ _ _ Hz3)),
          (bind_ok _ _ _ _ _ (run_get_z _ _ _ _ _ Hz3)).
  rewrite (bind_ok _ _ _ _ _ (run_get_x _ _ _ _ _ Ho3)), (bind_ok _ _ _ _ _ (run_get_y _ _ _ _ _ Ho3)),
          (bind_ok _ _ _ _ _ (run_get_z _ _ _ _ _ Ho3)).
  do 2 eexists; split; [reflexivity|].
  eapply extends_trans; [exact Hext|apply extends_app].
Qed.

Lemma run_lookAt_default_up h origin target :
  Matrix4x4.lookAt origin target None h
  = Matrix4x4.lookAt origin target (Some (length h)) (h ++ [Vec (Num 0) (Num 1) (Num 0)]).
Proof. reflexivity. Qed.

(** ** Algebra on the functional model *)

Ltac val_compute :=
  cbv [Val.mult Val.premult_kj_ik Val.premult_ik_kj Val.fill Val.sum_terms Val.entry
       Val.cofactor Val.det2 Val.det3 Val.det4 Val.adjoint Val.inverse_entries
       Val.inverse3 Val.inverse4 identity_entries
       product product_entry row_times_matrix Rsum
       fold_left seq nth arr_set app repeat map flat_map length Nat.eqb Nat.mul Nat.add
       JsNum.pow JsNum.add JsNum.sub JsNum.mul JsNum.lift2 JsNum.neg pow].

Ltac val_compute_in H :=
  cbv [Val.mult Val.premult_kj_ik Val.premult_ik_kj Val.fill Val.sum_terms Val.entry
       Val.cofactor Val.det2 Val.det3 Val.det4 Val.adjoint Val.inverse_entries
       Val.inverse3 Val.inverse4 identity_entries
       product product_entry row_times_matrix Rsum
       fold_left seq nth arr_set app repeat map flat_map length Nat.eqb Nat.mul Nat.add
       JsNum.pow JsNum.add JsNum.sub JsNum.mul JsNum.lift2 JsNum.neg pow] in H.

(** Entry-wise equality of two lists of numbers. *)
Ltac nums_eq tac :=
  repeat (apply f_equal2; [try (apply f_equal; tac)|]); try reflexivity.

Lemma div_Num x y : y <> 0%R -> (Num x / Num y)%num = Num (x / y).
Proof.
  intros Hy. unfold JsNum.div. destruct (Req_dec_T y 0); [contradiction|reflexivity].
Qed.

Ltac list_of_length rs H n :=
  match n with
  | O => destruct rs; [clear H|discriminate H]
  | S ?m => destruct rs as [|? rs]; [discriminate H|list_of_length rs H m]
  end.

(** Instantiate a bounded universal hypothesis at every index below the bound. *)
Ltac at_indices H n :=
  match n with
  | O => idtac
  | S ?m => let Hm := fresh "Hz" in
            pose proof (H m ltac:(lia)) as Hm; cbn in Hm; at_indices H m
  end.

(** Case analysis on an index known to be below a constant bound. *)
Ltac index_cases i n tac :=
  match n with
  | O => exfalso; lia
  | S ?m => destruct i as [|i]; [tac|index_cases i m tac]
  end.

Ltac zero_line n :=
  match goal with
  | H0 : exists i, i < _ /\ _ |- _ =>
      let i := fresh "i" in let Hi := fresh "Hi" in let Hz := fresh "Hall" in
      destruct H0 as (i & Hi & Hz);
      index_cases i n ltac:(at_indices Hz n; subst; val_compute; f_equal; ring)
  end.

Lemma det2_zero_line rs :
  length rs = 4 -> zero_row 2 rs \/ zero_column 2 rs -> Val.det2 (map Num rs) = Num 0.
Proof.
  intros Hlen Hz. list_of_length rs Hlen 4.
  unfold zero_row, zero_column in Hz. destruct Hz as [Hz|Hz]; zero_line 2.
Qed.

Lemma det3_zero_line rs :
  length rs = 9 -> zero_row 3 rs \/ zero_column 3 rs -> Val.det3 (map Num rs) = Num 0.
Proof.
  intros Hlen Hz. list_of_length rs Hlen 9.
  unfold zero_row, zero_column in Hz. destruct Hz as [Hz|Hz]; zero_line 3.
Qed.

Lemma det4_zero_line rs :
  length rs = 16 -> zero_row 4 rs \/ zero_column 4 rs -> Val.det4 (map Num rs) = Num 0.
Proof.
  intros Hlen Hz. list_of_length rs Hlen 16.
  unfold zero_row, zero_column in Hz. destruct Hz as [Hz|Hz]; zero_line 4.
Qed.

Lemma det_identity_val :
  Val.det2 (identity_entries 2) = Num 1 /\
  Val.det3 (identity_entries 3) = Num 1 /\
  Val.det4 (identity_entries 4) = Num 1.
Proof. repeat split; val_compute; f_equal; ring. Qed.

Local Open Scope R_scope.

Lemma sum4_div_r a0 a1 a2 a3 b0 b1 b2 b3 D d :
  D <> 0 -> a0 * b0 + a1 * b1 + a2 * b2 + a3 * b3 = d * D ->
  0 + a0 * (b0 / D) + a1 * (b1 / D) + a2 * (b2 / D) + a3 * (b3 / D) = d.
Proof.
  intros HD H.
  replace (0 + a0 * (b0 / D) + a1 * (b1 / D) + a2 * (b2 / D) + a3 * (b3 / D))
    with ((a0 * b0 + a1 * b1 + a2 * b2 + a3 * b3) / D) by (field; exact HD).
  rewrite H. field; exact HD.
Qed.

Lemma sum4_div_l a0 a1 a2 a3 b0 b1 b2 b3 D d :
  D <> 0 -> b0 * a0 + b1 * a1 + b2 * a2 + b3 * a3 = d * D ->
  0 + (b0 / D) * a0 + (b1 / D) * a1 + (b2 / D) * a2 + (b3 / D) * a3 = d.
Proof.
  intros HD H.
  replace (0 + (b0 / D) * a0 + (b1 / D) * a1 + (b2 / D) * a2 + (b3 / D) * a3)
    with ((b0 * a0 + b1 * a1 + b2 * a2 + b3 * a3) / D) by (field; exact HD).
  rewrite H. field; exact HD.
Qed.

(** The determinant of a matrix of reals is a real. *)
Lemma det4_Num rs :
  length rs = 16%nat -> exists D, Val.det4 (map Num rs) = Num D.
Proof.
  intros Hlen. list_of_length rs Hlen 16%nat. val_compute. eexists; reflexivity.
Qed.

Lemma det3_Num rs :
  length rs = 9%nat -> exists D, Val.det3 (map Num rs) = Num D.
Proof.
  intros Hlen. list_of_length rs Hlen 9%nat. val_compute. eexists; reflexivity.
Qed.

Lemma Num_neq_0 D : Num D <> Num 0 -> D <> 0.
Proof. intros H E. apply H. now rewrite E. Qed.

Lemma inverse4_right rs :
  length rs = 16%nat -> Val.det4 (map Num rs) <> Num 0 ->
  Val.mult 4 (map Num rs) (Val.inverse4 (map Num rs)) = identity_entries 4.
Proof.
  intros Hlen Hd.
  destruct (det4_Num rs Hlen) as (D & ED). rewrite ED in Hd. apply Num_neq_0 in Hd.
  unfold Val.inverse4. rewrite ED.
  list_of_length rs Hlen 16%nat.
  val_compute_in ED. injection ED as ED.
  val_compute. rewrite !(div_Num _ D Hd). cbv beta iota.
  nums_eq ltac:(apply sum4_div_r; [exact Hd|rewrite <- ED; ring]).
Qed.

Lemma inverse4_left rs :
  length rs = 16%nat -> Val.det4 (map Num rs) <> Num 0 ->
  Val.mult 4 (Val.inverse4 (map Num rs)) (map Num rs) = identity_entries 4.
Proof.
  intros Hlen Hd.
  destruct (det4_Num rs Hlen) as (D & ED). rewrite ED in Hd. apply Num_neq_0 in Hd.
  unfold Val.inverse4. rewrite ED.
  list_of_length rs Hlen 16%nat.
  val_compute_in ED. injection ED as ED.
  val_compute. rewrite !(div_Num _ D Hd). cbv beta iota.
  nums_eq ltac:(apply sum4_div_l; [exact Hd|rewrite <- ED; ring]).
Qed.



(** Whatever the non-singular matrix of order 3, [inverse()] pushes sixteen
    entries, and the one read back at row 1, column 0 (flat index 3) is
    [_adjointDeterminant(0, 3) / det], that is 0. *)
Lemma inverse3_row1_col0 rs :
  length rs = 9%nat -> Val.det3 (map Num rs) <> Num 0 ->
  length (Val.inverse3 (map Num rs)) = 16%nat
  /\ nth (1 * 3 + 0) (Val.inverse3 (map Num rs)) NaN = Num 0.
Proof.
  intros Hlen Hd.
  destruct (det3_Num rs Hlen) as (D & ED). rewrite ED in Hd. apply Num_neq_0 in Hd.
  unfold Val.inverse3. rewrite ED.
  list_of_length rs Hlen 9%nat.
  val_compute. rewrite !(div_Num _ D Hd).
  split; [reflexivity|]. f_equal. field. exact Hd.
Qed.

Lemma det3_identity : Val.det3 (identity_entries 3) = Num 1%R.
Proof. val_compute. f_equal. ring. Qed.

Lemma inverse3_identity :
  Val.inverse3 (identity_entries 3)
  = map Num [1; 0; 0; 0;
             0; 1; 0; 0;
             0; 0; 1; 0;
             1; 1; 1; 1]%R.
Proof.
  unfold Val.inverse3. rewrite det3_identity.
  val_compute.
  rewrite !div_Num by lra.
  nums_eq ltac:(field).
Qed.

Lemma mult3_identity_inverse :
  Val.mult 3 (identity_entries 3) (Val.inverse3 (identity_entries 3))
  = map Num [1; 0; 0;
             0; 0; 1;
             0; 0; 0]%R.
Proof.
  rewrite inverse3_identity. val_compute. nums_eq ltac:(ring).
Qed.

Local Close Scope R_scope.

(** ** Products computed by [mult] and [premult] *)

Lemma mult_val_product :
  (forall X Y, length X = 4 -> length Y = 4 ->
     Val.mult 2 (map Num X) (map Num Y) = map Num (product 2 X Y)) /\
  (forall X Y, length X = 9 -> length Y = 9 ->
     Val.mult 3 (map Num X) (map Num Y) = map Num (product 3 X Y)) /\
  (forall X Y, length X = 16 -> length Y = 16 ->
     Val.mult 4 (map Num X) (map Num Y) = map Num (product 4 X Y)).
Proof.
  repeat split; intros X Y HX HY.
  - list_of_length X HX 4; list_of_length Y HY 4. val_compute. reflexivity.
  - list_of_length X HX 9; list_of_length Y HY 9. val_compute. reflexivity.
  - list_of_length X HX 16; list_of_length Y HY 16. val_compute. reflexivity.
Qed.

(** The loop of [premult] in Matrix2x2 and Matrix3x3 accumulates
    [b[k, j] * a[i, k]]: it leaves this × b, as [mult] does. *)
Lemma premult_kj_ik_val_product :
  (forall A B, length A = 4 -> length B = 4 ->
     Val.premult_kj_ik 2 (map Num A) (map Num B) = map Num (product 2 A B)) /\
  (forall A B, length A = 9 -> length B = 9 ->
     Val.premult_kj_ik 3 (map Num A) (map Num B) = map Num (product 3 A B)).
Proof.
  repeat split; intros X Y HX HY.
  - list_of_length X HX 4; list_of_length Y HY 4. val_compute. nums_eq ltac:(ring).
  - list_of_length X HX 9; list_of_length Y HY 9. val_compute. nums_eq ltac:(ring).
Qed.

(** The loop of [premult] in Matrix4x4 accumulates [b[i, k] * a[k, j]]: it
    leaves b × this. *)
Lemma premult_ik_kj_val_product A B :
  length A = 16 -> length B = 16 ->
  Val.premult_ik_kj 4 (map Num A) (map Num B) = map Num (product 4 B A).
Proof.
  intros HX HY.
  list_of_length A HX 16; list_of_length B HY 16. val_compute. reflexivity.
Qed.

Lemma run_premult2_product h a b A B :
  lookup h a = Some (Arr (map Num A)) -> lookup h b = Some (Arr (map Num B)) ->
  a <> b -> length A = 4 -> length B = 4 ->
  exists h', Matrix2x2.premult a b h = Ok tt h'
             /\ lookup h' a = Some (Arr (map Num (product 2 A B)))
             /\ lookup h' b = Some (Arr (map Num B)).
Proof.
  intros Ha Hb Hne HA HB.
  rewrite (run_premult2 _ _ _ _ _ Ha Hb Hne).
  pose proof (lookup_valid _ _ _ Ha). pose proof (lookup_valid _ _ _ Hb).
  eexists; split; [reflexivity|]. split.
  - rewrite lookup_upd_eq by (rewrite length_app; lia).
    now rewrite (proj1 premult_kj_ik_val_product).
  - rewrite lookup_upd_neq by auto. now rewrite lookup_app_old.
Qed.

Lemma run_premult3_product h a b A B :
  lookup h a = Some (Arr (map Num A)) -> lookup h b = Some (Arr (map Num B)) ->
  a <> b -> length A = 9 -> length B = 9 ->
  exists h', Matrix3x3.premult a b h = Ok tt h'
             /\ lookup h' a = Some (Arr (map Num (product 3 A B)))
             /\ lookup h' b = Some (Arr (map Num B)).
Proof.
  intros Ha Hb Hne HA HB.
  rewrite (run_premult3 _ _ _ _ _ Ha Hb Hne).
  pose proof (lookup_valid _ _ _ Ha). pose proof (lookup_valid _ _ _ Hb).
  eexists; split; [reflexivity|]. split.
  - rewrite lookup_upd_eq by (rewrite length_app; lia).
    now rewrite (proj2 premult_kj_ik_val_product).
  - rewrite lookup_upd_neq by auto. now rewrite lookup_app_old.
Qed.

Lemma run_premult4_product h a b A B :
  lookup h a = Some (Arr (map Num A)) -> lookup h b = Some (Arr (map Num B)) ->
  a <> b -> length A = 16 -> length B = 16 ->
  exists h', Matrix4x4.premult a b h = Ok tt h'
             /\ lookup h' a = Some (Arr (map Num (product 4 B A)))
             /\ lookup h' b = Some (Arr (map Num B)).
Proof.
  intros Ha Hb Hne HA HB.
  rewrite (run_premult4 _ _ _ _ _ Ha Hb Hne).
  pose proof (lookup_valid _ _ _ Ha). pose proof (lookup_valid _ _ _ Hb).
  eexists; split; [reflexivity|]. split.
  - rewrite lookup_upd_eq by (rewrite length_app; lia).
    now rewrite premult_ik_kj_val_product.
  - rewrite lookup_upd_neq by auto. now rewrite lookup_app_old.
Qed.

Lemma run_mult4_product h a b A B :
  lookup h a = Some (Arr (map Num A)) -> lookup h b = Some (Arr (map Num B)) ->
  a <> b -> length A = 16 -> length B = 16 ->
  exists h', Matrix4x4.mult a b h = Ok tt h'
             /\ lookup h' a = Some (Arr (map Num (product 4 A B)))
             /\ lookup h' b = Some (Arr (map Num B)).
Proof.
  intros Ha Hb Hne HA HB.
  rewrite (run_mult4 _ _ _ _ _ Ha Hb Hne).
  pose proof (lookup_valid _ _ _ Ha). pose proof (lookup_valid _ _ _ Hb).
  eexists; split; [reflexivity|]. split.
  - rewrite lookup_upd_eq by (rewrite length_app; lia).
    now rewrite (proj2 (proj2 mult_val_product)).
  - rewrite lookup_upd_neq by auto. now rewrite lookup_app_old.
Qed.

(** The copy that [mult] takes protects the left operand only.  When the
    argument is the receiver itself, the loop reads entries of [b] that it
    has already overwritten: [m.mult(m)] on [1,1, 1,1] leaves [2,2, 3,3],
    not the square [2,2, 2,2]. *)
Lemma mult2_aliased :
  Matrix2x2.mult 0 0 [Arr (map Num [1; 1;  1; 1]%R)]
  = Ok tt [Arr (map Num [2; 2;  3; 3]%R); Arr (map Num [1; 1;  1; 1]%R)]
  /\ product 2 [1; 1;  1; 1]%R [1; 1;  1; 1]%R = [2; 2;  2; 2]%R.
Proof.
  split.
  - cbv [Matrix2x2.mult Matrix2x2.copy Matrix2x2.new spread alloc read_arr write_arr
         aget aset bind ret for_ for_acc for_each fold_each seq lookup nth_error nth
         upd arr_set length app map Nat.mul Nat.add JsNum.add JsNum.mul JsNum.lift2].
    do 3 f_equal. nums_eq ltac:(ring).
  - val_compute. repeat (apply f_equal2; [ring|]). reflexivity.
Qed.

(** ** The inverse of the identity of order 3 *)

Lemma run_identity3 h :
  Matrix3x3.identity h = Ok (length h) (h ++ [Arr (identity_entries 3)]).
Proof. reflexivity. Qed.

(** [Matrix3x3.identity().inverse()]: the two loops of [inverse()] run to 4,
    so sixteen values are pushed, [_adjointDeterminant(i, j) / det] for
    [i, j] in 0..3. *)
Lemma run_identity3_inverse h :
  exists inv h',
    Matrix3x3.inverse (length h) (h ++ [Arr (identity_entries 3)]) = Ok inv h'
    /\ extends (h ++ [Arr (identity_entries 3)]) h'
    /\ length h < inv
    /\ lookup h' inv
       = Some (Arr (map Num [1; 0; 0; 0;  0; 1; 0; 0;  0; 0; 1; 0;  1; 1; 1; 1]%R)).
Proof.
  destruct (run_inverse3_ok _ _ _ (lookup_app_new h (Arr (identity_entries 3))))
    as (inv & h' & E & Hext & Hfresh & Hl).
  { rewrite det3_identity. intros H; injection H; lra. }
  exists inv, h'. rewrite <- inverse3_identity. repeat split; auto.
  rewrite length_app in Hfresh. simpl in Hfresh. lia.
Qed.

(** C1.  Entry (i, j) of the inverse of a non-singular Matrix3x3 would be
    [_adjointDeterminant(i, j) / determinant()], for i, j in 0..2.  On the
    identity, [inverse()] returns sixteen entries, and the one at row 1,
    column 1 (flat index 1 * 3 + 1) is 0, whereas
    [_adjointDeterminant(1, 1) / determinant()] is 1: the loops of
    [inverse()] run to 4, the order of Matrix4x4, instead of 3. *)
Theorem inverse3_identity_wrong_entry (h : heap) :
  exists inv h',
    (m <- Matrix3x3.identity ;;
     inv <- Matrix3x3.inverse m ;;
     got <- aget inv (1 * 3 + 1) ;;
     a <- Matrix3x3._adjointDeterminant m 1 1 ;;
     d <- Matrix3x3.determinant m ;;
     ret (inv, got, (a / d)%num)) h
    = Ok (inv, Num 0%R, Num 1%R) h'
    /\ lookup h' inv
       = Some (Arr (map Num [1; 0; 0; 0;  0; 1; 0; 0;  0; 0; 1; 0;  1; 1; 1; 1]%R)).
Proof.
  destruct (run_identity3_inverse h) as (inv & h1 & E & Hext & Hfresh & Hl).
  rewrite (bind_ok _ _ _ _ _ (run_identity3 h)), (bind_ok _ _ _ _ _ E).
  rewrite (bind_ok _ _ _ _ _ (run_aget _ _ _ _ Hl)).
  assert (Hm : lookup h1 (length h) = Some (Arr (identity_entries 3)))
    by (eapply extends_lookup; [exact Hext|apply lookup_app_new]).
  destruct (run_adjdet3 _ _ 1 1 _ Hm) as (h2 & E2 & Hext2).
  rewrite (bind_ok _ _ _ _ _ E2).
  destruct (run_det3 _ _ _ (extends_lookup _ _ _ _ Hext2 Hm)) as (h3 & E3 & Hext3).
  rewrite (bind_ok _ _ _ _ _ E3).
  exists inv, h3. split.
  - unfold ret. f_equal. f_equal.
    rewrite det3_identity.
    assert (Ha : Val.det3 (Val.adjoint 3 (identity_entries 3) 1 1) = Num 1%R)
      by (val_compute; f_equal; ring).
    rewrite Ha, div_Num by lra. f_equal. field.
  - eapply extends_lookup; [|exact Hl]. eapply extends_trans; eauto.
Qed.

(** ** Lengths of the entries arrays *)

Lemma arr_set_length es i v :
  i < length es -> length (arr_set es i v) = length es.
Proof.
  revert i; induction es as [|e t IH]; intros [|i] Hi; simpl in *; try lia.
  rewrite IH; lia.
Qed.

Lemma fold_left_preserves {A B : Type} (P : A -> Prop) (f : A -> B -> A) (l : list B) :
  (forall a b, In b l -> P a -> P (f a b)) -> forall a, P a -> P (fold_left f l a).
Proof.
  induction l as [|b l IH]; intros Hf a Ha; simpl; auto.
  apply IH; [intros; apply Hf; auto; now right|apply Hf; auto; now left].
Qed.

(** The loops of [mult] and [premult] keep the length of an array of
    [n * n] entries. *)
Lemma fill_length n cell T :
  length T = n * n -> length (Val.fill n cell T) = n * n.
Proof.
  intros HT. unfold Val.fill.
  apply (fold_left_preserves (fun X => length X = n * n)); auto.
  intros X i Hi HX.
  apply (fold_left_preserves (fun X => length X = n * n)); auto.
  intros X' j Hj HX'.
  apply in_seq in Hi. apply in_seq in Hj.
  rewrite arr_set_length; [exact HX'|]. rewrite HX'. nia.
Qed.

Lemma product_loops_keep_length n A B :
  length A = n * n ->
  length (Val.mult n A B) = n * n
  /\ length (Val.premult_kj_ik n A B) = n * n
  /\ length (Val.premult_ik_kj n A B) = n * n.
Proof.
  intros HA. repeat split; now apply fill_length.
Qed.

(** Every static builder allocates a fresh array of N² entries. *)
Lemma builders3_length h tx ty angle sx sy width height :
  Forall (fun run => exists es, run = Ok (length h) (h ++ [Arr es]) /\ length es = 9)
    [Matrix3x3.identity h; Matrix3x3.translation tx ty h; Matrix3x3.rotation angle h;
     Matrix3x3.scaling sx sy h; Matrix3x3.projection width height h].
Proof.
  repeat constructor; eexists; split; reflexivity.
Qed.

Lemma builders4_length h tx ty tz angle sx sy sz left right bottom top near far fov aspect
      onear ofar :
  Forall (fun run => exists es, run = Ok (length h) (h ++ [Arr es]) /\ length es = 16)
    [Matrix4x4.identity h; Matrix4x4.fromTranslation tx ty tz h;
     Matrix4x4.fromXRotation angle h; Matrix4x4.fromYRotation angle h;
     Matrix4x4.fromZRotation angle h; Matrix4x4.fromScaling sx sy sz h;
     Matrix4x4.orthographic left right bottom top near far h;
     Matrix4x4.perspective fov aspect onear ofar h].
Proof.
  repeat constructor; eexists; split; reflexivity.
Qed.

(** C2.  The entries of a matrix of order N would always number N², after
    every builder and every operation.  The builders, [copy], [mult] and
    [premult] keep to it (lemmas above), but
    [Matrix3x3.identity().inverse()] returns a Matrix3x3 whose entries array
    has 16 elements, not 9. *)
Theorem inverse3_identity_sixteen_entries (h : heap) :
  exists inv h' es,
    (m <- Matrix3x3.identity ;; Matrix3x3.inverse m) h = Ok inv h'
    /\ lookup h' inv = Some (Arr es)
    /\ length es = 16.
Proof.
  destruct (run_identity3_inverse h) as (inv & h1 & E & Hext & Hfresh & Hl).
  rewrite (bind_ok _ _ _ _ _ (run_identity3 h)).
  exists inv, h1. eexists. repeat split; [exact E|exact Hl|reflexivity].
Qed.

(** ** The inverse law for Matrix4x4 *)

(** [inv = M.inverse(); M.mult(inv)]: [M] ends up holding the identity. *)
Lemma run_inverse_then_mult_by4 h M rs :
  lookup h M = Some (Arr (map Num rs)) -> length rs = 16 ->
  Val.det4 (map Num rs) <> Num 0%R ->
  exists inv h1 h',
    Matrix4x4.inverse M h = Ok inv h1
    /\ Matrix4x4.mult M inv h1 = Ok tt h'
    /\ lookup h' M = Some (Arr (identity_entries 4)).
Proof.
  intros HM Hlen Hd.
  destruct (run_inverse4_ok _ _ _ HM Hd) as (inv & h1 & E & Hext & Hfresh & Hl).
  pose proof (lookup_valid _ _ _ HM) as HltM.
  pose proof (extends_lookup _ _ _ _ Hext HM) as HM1.
  exists inv, h1. eexists. split; [exact E|].
  split; [apply (run_mult4 _ _ _ _ _ HM1 Hl); lia|].
  rewrite lookup_upd_eq, inverse4_right; auto.
  rewrite length_app. apply lookup_valid in HM1. lia.
Qed.

(** [inv = M.inverse(); inv.mult(M)]: the receiver [inv] ends up holding
    the identity, and [M] keeps its entries. *)
Lemma run_inverse_then_mult4 h M rs :
  lookup h M = Some (Arr (map Num rs)) -> length rs = 16 ->
  Val.det4 (map Num rs) <> Num 0%R ->
  exists inv h1 h',
    Matrix4x4.inverse M h = Ok inv h1
    /\ Matrix4x4.mult inv M h1 = Ok tt h'
    /\ lookup h' inv = Some (Arr (identity_entries 4))
    /\ lookup h' M = Some (Arr (map Num rs)).
Proof.
  intros HM Hlen Hd.
  destruct (run_inverse4_ok _ _ _ HM Hd) as (inv & h1 & E & Hext & Hfresh & Hl).
  pose proof (lookup_valid _ _ _ HM) as HltM.
  pose proof (extends_lookup _ _ _ _ Hext HM) as HM1.
  exists inv, h1. eexists. split; [exact E|].
  split; [apply (run_mult4 _ _ _ _ _ Hl HM1); lia|]. split.
  - rewrite lookup_upd_eq, inverse4_left; auto.
    rewrite length_app. apply lookup_valid in Hl. lia.
  - rewrite lookup_upd_neq by lia. rewrite lookup_app_old; auto.
    eapply lookup_valid; eauto.
Qed.

(** C3, counterexample.  (1) Order 3: after [M.mult(M.inverse())] on the
    identity, [M] holds [1,0,0, 0,0,1, 0,0,0], not the identity.  (2) Order
    4: after [M.inverse().mult(M)] on the scaling by (2, 1, 1), [M] still
    holds its own entries, not the identity: [mult] writes into its
    receiver, the matrix returned by [inverse()]. *)
Lemma inverse_law_counterexample :
  (exists m h',
     (m <- Matrix3x3.identity ;;
      inv <- Matrix3x3.inverse m ;;
      Matrix3x3.mult m inv ;;
      ret m) [] = Ok m h'
     /\ lookup h' m = Some (Arr (map Num [1; 0; 0;  0; 0; 1;  0; 0; 0]%R))
     /\ map Num [1; 0; 0;  0; 0; 1;  0; 0; 0]%R <> identity_entries 3)
  /\
  (exists m h',
     (m <- Matrix4x4.fromScaling (Num 2%R) (Num 1%R) (Num 1%R) ;;
      inv <- Matrix4x4.inverse m ;;
      Matrix4x4.mult inv m ;;
      ret m) [] = Ok m h'
     /\ lookup h' m
        = Some (Arr (map Num [2; 0; 0; 0;  0; 1; 0; 0;  0; 0; 1; 0;  0; 0; 0; 1]%R))
     /\ map Num [2; 0; 0; 0;  0; 1; 0; 0;  0; 0; 1; 0;  0; 0; 0; 1]%R
        <> identity_entries 4).
Proof.
  split.
  - destruct (run_identity3_inverse []) as (inv & h1 & E & Hext & Hfresh & Hl).
    rewrite (bind_ok _ _ _ _ _ (run_identity3 [])), (bind_ok _ _ _ _ _ E).
    assert (Hm : lookup h1 0 = Some (Arr (identity_entries 3)))
      by (eapply extends_lookup; [exact Hext|reflexivity]).
    simpl length.
    assert (Hne : 0 <> inv) by (simpl in Hfresh; lia).
    rewrite (bind_ok _ _ _ _ _ (run_mult3 _ _ _ _ _ Hm Hl Hne)).
    do 2 eexists. split; [reflexivity|]. split.
    + rewrite lookup_upd_eq.
      * rewrite <- inverse3_identity. now rewrite mult3_identity_inverse.
      * rewrite length_app. apply lookup_valid in Hm. lia.
    + val_compute. intros H. injection H. intros. lra.
  - set (S4 := [2; 0; 0; 0;  0; 1; 0; 0;  0; 0; 1; 0;  0; 0; 0; 1]%R).
    assert (Hs : Matrix4x4.fromScaling (Num 2%R) (Num 1%R) (Num 1%R) []
                 = Ok 0 [Arr (map Num S4)]) by reflexivity.
    rewrite (bind_ok _ _ _ _ _ Hs).
    destruct (run_inverse_then_mult4 [Arr (map Num S4)] 0 S4)
      as (inv & h1 & h' & E1 & E2 & _ & HM).
    { reflexivity. }
    { reflexivity. }
    { unfold S4; val_compute. intros H. injection H. lra. }
    rewrite (bind_ok _ _ _ _ _ E1), (bind_ok _ _ _ _ _ E2).
    exists 0, h'. split; [reflexivity|]. split; [exact HM|].
    unfold S4. val_compute. intros H. injection H. intros. lra.
Qed.

(** C3.  For every non-singular Matrix4x4 [M] with real
    entries: [M.mult(M.inverse())] leaves [M] holding the identity of order
    4; [M.inverse().mult(M)] leaves the matrix returned by [inverse()]
    holding the identity of order 4, while [M] keeps its entries. *)
Theorem inverse4_law h M rs d h0 :
  lookup h M = Some (Arr (map Num rs)) -> length rs = 16 ->
  Matrix4x4.determinant M h = Ok d h0 -> d <> Num 0%R ->
  (exists inv h',
     (inv <- Matrix4x4.inverse M ;; Matrix4x4.mult M inv ;; ret inv) h = Ok inv h'
     /\ lookup h' M = Some (Arr (identity_entries 4)))
  /\
  (exists inv h',
     (inv <- Matrix4x4.inverse M ;; Matrix4x4.mult inv M ;; ret inv) h = Ok inv h'
     /\ lookup h' inv = Some (Arr (identity_entries 4))
     /\ lookup h' M = Some (Arr (map Num rs))).
Proof.
  intros HM Hlen Hdet Hd.
  destruct (run_det4 _ _ _ HM) as (h2 & E2 & _).
  rewrite E2 in Hdet. injection Hdet as Hdet _. subst d.
  split.
  - destruct (run_inverse_then_mult_by4 _ _ _ HM Hlen Hd) as (inv & h1 & h' & E & Em & Hl).
    exists inv, h'. rewrite (bind_ok _ _ _ _ _ E), (bind_ok _ _ _ _ _ Em). now split.
  - destruct (run_inverse_then_mult4 _ _ _ HM Hlen Hd) as (inv & h1 & h' & E & Em & Hl).
    exists inv, h'. rewrite (bind_ok _ _ _ _ _ E), (bind_ok _ _ _ _ _ Em). now split.
Qed.

Lemma inverse4_law_witness :
  let rs := [2; 0; 0; 0;  0; 1; 0; 0;  0; 0; 1; 0;  0; 0; 0; 1]%R in
  let h := [Arr (map Num rs)] in
  exists d h0,
    (lookup h 0 = Some (Arr (map Num rs)) /\ length rs = 16
     /\ Matrix4x4.determinant 0 h = Ok d h0 /\ d <> Num 0%R)
    /\ (exists inv h',
          (inv <- Matrix4x4.inverse 0 ;; Matrix4x4.mult 0 inv ;; ret inv) h = Ok inv h'
          /\ lookup h' 0 = Some (Arr (identity_entries 4))).
Proof.
  intros rs h.
  assert (Hdet : exists d h0, Matrix4x4.determinant 0 h = Ok d h0 /\ d <> Num 0%R).
  { do 2 eexists. split; [vm_compute; reflexivity|]. intros H; injection H; lra. }
  destruct Hdet as (d & h0 & Hdet & Hd).
  exists d, h0. split.
  - repeat split; [exact Hdet|exact Hd].
  - exact (proj1 (inverse4_law h 0 rs d h0 eq_refl eq_refl Hdet Hd)).
Defined.

(** ** [premult] *)

(** C4.  [A.premult(B)] would replace [A] with B × A, for the orders 2, 3
    and 4.  For A = [1,1,0, 0,1,0, 0,0,1] and B = [1,0,0, 1,1,0, 0,0,1],
    [Matrix3x3.premult] leaves A × B in [A] (entry (0, 0) is 2), whereas
    B × A has entry (0, 0) equal to 1: the loop multiplies
    [b[k * 3 + j]] by [a[i * 3 + k]], the sum that [mult] computes.
    [Matrix4x4.premult] does leave B × A ([run_premult4_product]). *)
Theorem premult3_leaves_this_times_b (h : heap) :
  let A := [1; 1; 0;  0; 1; 0;  0; 0; 1]%R in
  let B := [1; 0; 0;  1; 1; 0;  0; 0; 1]%R in
  exists a h',
    (a <- array_lit (map Num A) ;; a <- Matrix3x3.new a ;;
     b <- array_lit (map Num B) ;; b <- Matrix3x3.new b ;;
     Matrix3x3.premult a b ;;
     ret a) h = Ok a h'
    /\ lookup h' a = Some (Arr (map Num [2; 1; 0;  1; 1; 0;  0; 0; 1]%R))
    /\ product 3 A B = [2; 1; 0;  1; 1; 0;  0; 0; 1]%R
    /\ product 3 B A = [1; 1; 0;  1; 2; 0;  0; 0; 1]%R.
Proof.
  intros A B.
  assert (HAB : product 3 A B = [2; 1; 0;  1; 1; 0;  0; 0; 1]%R).
  { unfold A, B. val_compute. repeat (apply f_equal2; [ring|]). reflexivity. }
  assert (HBA : product 3 B A = [1; 1; 0;  1; 2; 0;  0; 0; 1]%R).
  { unfold A, B. val_compute. repeat (apply f_equal2; [ring|]). reflexivity. }
  set (h1 := (h ++ [Arr (map Num A)]) ++ [Arr (map Num B)]).
  destruct (run_premult3_product h1 (length h) (S (length h)) A B)
    as (h' & E & Ha & _); try reflexivity; try lia.
  - unfold h1. rewrite lookup_app_old by (rewrite length_app; simpl; lia).
    apply lookup_app_new.
  - unfold h1. replace (S (length h)) with (length (h ++ [Arr (map Num A)]))
      by (rewrite length_app; simpl; lia).
    apply lookup_app_new.
  - exists (length h), h'. repeat split; auto.
    + unfold array_lit, Matrix3x3.new.
      rewrite (bind_ok _ _ h (length h) (h ++ [Arr (map Num A)]) eq_refl).
      rewrite (bind_ok _ _ _ (length h) (h ++ [Arr (map Num A)]) eq_refl).
      rewrite (bind_ok _ _ (h ++ [Arr (map Num A)]) (S (length h)) h1)
        by (unfold alloc, h1; f_equal; rewrite length_app; simpl; lia).
      rewrite (bind_ok _ _ h1 (S (length h)) h1 eq_refl).
      now rewrite (bind_ok _ _ _ _ _ E).
    + now rewrite Ha, HAB.
Qed.

(** ** [inverse()] and singular matrices *)







(** ** Rotation by a quarter turn *)

Lemma run_rotation_quarter h :
  Matrix3x3.rotation (JsNum.PI / Num 2)%num h
  = Ok (length h) (h ++ [Arr (map Num [0; -1; 0;  1; 0; 0;  0; 0; 1]%R)]).
Proof.
  unfold Matrix3x3.rotation, JsNum.PI.
  rewrite div_Num by lra.
  unfold JsNum.cos, JsNum.sin, JsNum.neg. rewrite cos_PI2, sin_PI2.
  reflexivity.
Qed.

Lemma quarter_turn_row :
  row_times_matrix 3 [1; 0; 1]%R [0; -1; 0;  1; 0; 0;  0; 0; 1]%R = [0; -1; 1]%R.
Proof.
  val_compute. repeat (apply f_equal2; [ring|]). reflexivity.
Qed.

Lemma mult3_row_quarter_turn :
  Val.mult 3 (map Num [1; 0; 1;  0; 0; 0;  0; 0; 0]%R)
             (map Num [0; -1; 0;  1; 0; 0;  0; 0; 1]%R)
  = map Num [0; -1; 1;  0; 0; 0;  0; 0; 0]%R.
Proof. val_compute. nums_eq ltac:(ring). Qed.

(** C6, counterexample.  [Matrix3x3.rotation(Math.PI / 2)] has the entries
    [0,-1,0, 1,0,0, 0,0,1]; the row vector (1, 0, 1) times this matrix is
    (0, -1, 1), which is not (0, 1, 1). *)
Lemma rotation_quarter_turn_counterexample :
  exists r h' m,
    Matrix3x3.rotation (JsNum.PI / Num 2)%num [] = Ok r h'
    /\ lookup h' r = Some (Arr (map Num m))
    /\ row_times_matrix 3 [1; 0; 1]%R m = [0; -1; 1]%R
    /\ row_times_matrix 3 [1; 0; 1]%R m <> [0; 1; 1]%R.
Proof.
  exists 0, [Arr (map Num [0; -1; 0;  1; 0; 0;  0; 0; 1]%R)], [0; -1; 0;  1; 0; 0;  0; 0; 1]%R.
  split; [apply (run_rotation_quarter [])|]. split; [reflexivity|].
  rewrite quarter_turn_row. split; [reflexivity|].
  intros H. injection H. lra.
Qed.

(** C6.  The matrix produced by [Matrix3x3.rotation(Math.PI / 2)],
    applied by right-multiplication to the row vector (1, 0, 1), yields the
    row vector (0, -1, 1).  The second part states the same through the
    library's own product: [mult] on the matrix whose first row is
    (1, 0, 1) leaves (0, -1, 1) in that row. *)
Theorem rotation_quarter_turn_row_vector (h : heap) :
  (exists r h' m,
     Matrix3x3.rotation (JsNum.PI / Num 2)%num h = Ok r h'
     /\ lookup h' r = Some (Arr (map Num m))
     /\ row_times_matrix 3 [1; 0; 1]%R m = [0; -1; 1]%R)
  /\
  (exists v h',
     (v <- array_lit (map Num [1; 0; 1;  0; 0; 0;  0; 0; 0]%R) ;;
      v <- Matrix3x3.new v ;;
      r <- Matrix3x3.rotation (JsNum.PI / Num 2)%num ;;
      Matrix3x3.mult v r ;;
      ret v) h = Ok v h'
     /\ lookup h' v = Some (Arr (map Num [0; -1; 1;  0; 0; 0;  0; 0; 0]%R))).
Proof.
  split.
  - exists (length h), (h ++ [Arr (map Num [0; -1; 0;  1; 0; 0;  0; 0; 1]%R)]),
      [0; -1; 0;  1; 0; 0;  0; 0; 1]%R.
    split; [apply run_rotation_quarter|]. split; [apply lookup_app_new|].
    apply quarter_turn_row.
  - set (V := map Num [1; 0; 1;  0; 0; 0;  0; 0; 0]%R).
    set (Rm := map Num [0; -1; 0;  1; 0; 0;  0; 0; 1]%R).
    set (h1 := h ++ [Arr V]).
    set (h2 := h1 ++ [Arr Rm]).
    assert (Hv : lookup h2 (length h) = Some (Arr V)).
    { unfold h2. rewrite lookup_app_old by (unfold h1; rewrite length_app; simpl; lia).
      apply lookup_app_new. }
    assert (Hr : lookup h2 (length h1) = Some (Arr Rm)) by apply lookup_app_new.
    assert (Hne : length h <> length h1) by (unfold h1; rewrite length_app; simpl; lia).
    unfold array_lit, Matrix3x3.new.
    rewrite (bind_ok _ _ h (length h) h1 eq_refl).
    rewrite (bind_ok _ _ h1 (length h) h1 eq_refl).
    rewrite (bind_ok _ _ _ _ _ (run_rotation_quarter h1)).
    fold Rm. fold h2.
    rewrite (bind_ok _ _ _ _ _ (run_mult3 _ _ _ _ _ Hv Hr Hne)).
    do 2 eexists; split; [reflexivity|].
    rewrite lookup_upd_eq.
    + unfold V, Rm. now rewrite mult3_row_quarter_turn.
    + rewrite length_app. apply lookup_valid in Hv. lia.
Qed.

(** ** [normalize()] *)

Local Open Scope R_scope.

Lemma length_val x y z :
  JsNum.sqrt (JsNum.pow (Num x) 2 + JsNum.pow (Num y) 2 + JsNum.pow (Num z) 2)%num
  = Num (sqrt (x ^ 2 + y ^ 2 + z ^ 2)).
Proof.
  unfold JsNum.pow, JsNum.add, JsNum.lift2, JsNum.sqrt.
  destruct (Rlt_dec (x ^ 2 + y ^ 2 + z ^ 2) 0) as [Hlt|_]; [|reflexivity].
  exfalso. pose proof (pow2_ge_0 x). pose proof (pow2_ge_0 y). pose proof (pow2_ge_0 z). lra.
Qed.

Lemma epsilon_pos : 0 < / 2 ^ 52.
Proof. apply Rinv_0_lt_compat. apply pow_lt. lra. Qed.

Lemma unit_length x y z :
  let len := sqrt (x ^ 2 + y ^ 2 + z ^ 2) in
  0 < len ->
  sqrt ((x / len) ^ 2 + (y / len) ^ 2 + (z / len) ^ 2) = 1.
Proof.
  intros len Hlen.
  assert (Hs : 0 <= x ^ 2 + y ^ 2 + z ^ 2).
  { pose proof (pow2_ge_0 x). pose proof (pow2_ge_0 y). pose proof (pow2_ge_0 z). lra. }
  assert (Hsq : len ^ 2 = x ^ 2 + y ^ 2 + z ^ 2).
  { unfold len. now apply pow2_sqrt. }
  replace ((x / len) ^ 2 + (y / len) ^ 2 + (z / len) ^ 2)
    with ((x ^ 2 + y ^ 2 + z ^ 2) / len ^ 2) by (field; lra).
  rewrite <- Hsq.
  replace (len ^ 2 / len ^ 2) with 1 by (field; lra).
  apply sqrt_1.
Qed.




Local Close Scope R_scope.

(** ** Determinants *)

Lemma run_identity_det2 h :
  (m <- Matrix2x2.identity ;; Matrix2x2.determinant m) h
  = Ok (Num 1%R) (h ++ [Arr (identity_entries 2)]).
Proof.
  rewrite (bind_ok _ _ h (length h) (h ++ [Arr (identity_entries 2)]) eq_refl).
  rewrite (run_det2 _ _ _ (lookup_app_new h _)).
  now rewrite (proj1 det_identity_val).
Qed.

Lemma run_identity_det3 h :
  exists h', (m <- Matrix3x3.identity ;; Matrix3x3.determinant m) h = Ok (Num 1%R) h'.
Proof.
  rewrite (bind_ok _ _ h (length h) (h ++ [Arr (identity_entries 3)]) eq_refl).
  destruct (run_det3 _ _ _ (lookup_app_new h (Arr (identity_entries 3)))) as (h' & E & _).
  exists h'. now rewrite E, det3_identity.
Qed.

Lemma run_identity_det4 h :
  exists h', (m <- Matrix4x4.identity ;; Matrix4x4.determinant m) h = Ok (Num 1%R) h'.
Proof.
  rewrite (bind_ok _ _ h (length h) (h ++ [Arr (identity_entries 4)]) eq_refl).
  destruct (run_det4 _ _ _ (lookup_app_new h (Arr (identity_entries 4)))) as (h' & E & _).
  exists h'. now rewrite E, (proj2 (proj2 det_identity_val)).
Qed.

(** C8, counterexample.  On doubles a column of zeros does not force the
    determinant to 0: in [0, 1, 2,  0, 2^600, 1,  0, 2, 2^600] the first
    term of the expansion is [1 * 0 * (2^600 * 2^600 - 1 * 2)], that is
    [0 * Infinity], and [determinant()] returns NaN. *)
Lemma determinant_zero_column_counterexample :
  let z := PrimFloat.zero in
  let b := Ieee.two_pow_600 in
  let es := [z; PrimFloat.one; PrimFloat.two;
             z; b; PrimFloat.one;
             z; PrimFloat.two; b] in
  (forall i, (i < 3)%nat -> nth (i * 3 + 0)%nat es PrimFloat.nan = z)
  /\ exists h',
       Ieee.Matrix3x3.determinant 0%nat [Ieee.Arr es] = Ieee.Ok PrimFloat.nan h'
       /\ Ieee.strict_eq PrimFloat.nan PrimFloat.zero = false.
Proof.
  split.
  - intros i Hi. destruct i as [|[|[|i]]]; try reflexivity. lia.
  - eexists. split; vm_compute; reflexivity.
Qed.

(** C8.  For each order 2, 3 and 4, [determinant()] of the
    identity returns 1, and [determinant()] of a matrix with entries
    modelled as reals (exact arithmetic, no overflow) that has a row of
    zeros or a column of zeros returns 0. *)
Theorem determinant_identity_and_zero_line h h2 M2 rs2 h3 M3 rs3 h4 M4 rs4 :
  lookup h2 M2 = Some (Arr (map Num rs2)) -> length rs2 = 4 ->
  zero_row 2 rs2 \/ zero_column 2 rs2 ->
  lookup h3 M3 = Some (Arr (map Num rs3)) -> length rs3 = 9 ->
  zero_row 3 rs3 \/ zero_column 3 rs3 ->
  lookup h4 M4 = Some (Arr (map Num rs4)) -> length rs4 = 16 ->
  zero_row 4 rs4 \/ zero_column 4 rs4 ->
  ((exists h', (m <- Matrix2x2.identity ;; Matrix2x2.determinant m) h = Ok (Num 1%R) h')
   /\ (exists h', (m <- Matrix3x3.identity ;; Matrix3x3.determinant m) h = Ok (Num 1%R) h')
   /\ (exists h', (m <- Matrix4x4.identity ;; Matrix4x4.determinant m) h = Ok (Num 1%R) h'))
  /\
  ((exists h', Matrix2x2.determinant M2 h2 = Ok (Num 0%R) h')
   /\ (exists h', Matrix3x3.determinant M3 h3 = Ok (Num 0%R) h')
   /\ (exists h', Matrix4x4.determinant M4 h4 = Ok (Num 0%R) h')).
Proof.
  intros H2 L2 Z2 H3 L3 Z3 H4 L4 Z4. split; [split; [|split]|split; [|split]].
  - eexists. apply run_identity_det2.
  - apply run_identity_det3.
  - apply run_identity_det4.
  - exists h2. rewrite (run_det2 _ _ _ H2). now rewrite det2_zero_line.
  - destruct (run_det3 _ _ _ H3) as (h' & E & _). exists h'.
    now rewrite E, det3_zero_line.
  - destruct (run_det4 _ _ _ H4) as (h' & E & _). exists h'.
    now rewrite E, det4_zero_line.
Qed.

Lemma determinant_identity_and_zero_line_witness :
  let rs2 := [0; 0;  5; 7]%R in
  let rs3 := [1; 0; 3;  4; 0; 6;  7; 0; 9]%R in
  let rs4 := [1; 2; 3; 4;  5; 6; 7; 8;  0; 0; 0; 0;  9; 8; 7; 6]%R in
  (zero_row 2 rs2 /\ zero_column 3 rs3 /\ zero_row 4 rs4)
  /\ (exists h', Matrix2x2.determinant 0 [Arr (map Num rs2)] = Ok (Num 0%R) h')
  /\ (exists h', Matrix3x3.determinant 0 [Arr (map Num rs3)] = Ok (Num 0%R) h')
  /\ (exists h', Matrix4x4.determinant 0 [Arr (map Num rs4)] = Ok (Num 0%R) h').
Proof.
  intros rs2 rs3 rs4.
  assert (Z2 : zero_row 2 rs2).
  { exists 0. split; [lia|]. intros [|[|j]] Hj; [reflexivity|reflexivity|lia]. }
  assert (Z3 : zero_column 3 rs3).
  { exists 1. split; [lia|]. intros [|[|[|i]]] Hi; [reflexivity|reflexivity|reflexivity|lia]. }
  assert (Z4 : zero_row 4 rs4).
  { exists 2. split; [lia|].
    intros [|[|[|[|j]]]] Hj; [reflexivity|reflexivity|reflexivity|reflexivity|lia]. }
  split; [repeat split; assumption|].
  exact (proj2 (determinant_identity_and_zero_line []
                  [Arr (map Num rs2)] 0 rs2 [Arr (map Num rs3)] 0 rs3 [Arr (map Num rs4)] 0 rs4
                  eq_refl eq_refl (or_introl Z2)
                  eq_refl eq_refl (or_intror Z3)
                  eq_refl eq_refl (or_introl Z4))).
Defined.

(** ** Cross product *)

(** C9, counterexample.  On doubles, with a = b = (0, 2^600, 2^600) the
    first component of [Vector3.cross(a, b)] is [Infinity - Infinity],
    that is NaN, in either order of the arguments, and NaN is not equal
    to its negation. *)
Lemma cross_overflow_counterexample :
  let b := Ieee.two_pow_600 in
  let h := [Ieee.Vec PrimFloat.zero b b; Ieee.Vec PrimFloat.zero b b] in
  Ieee.Vector3.cross 0%nat 1%nat h
  = Ieee.Ok 2%nat (h ++ [Ieee.Vec PrimFloat.nan PrimFloat.zero PrimFloat.zero])
  /\ Ieee.Vector3.cross 1%nat 0%nat h
     = Ieee.Ok 2%nat (h ++ [Ieee.Vec PrimFloat.nan PrimFloat.zero PrimFloat.zero])
  /\ PrimFloat.eqb PrimFloat.nan (PrimFloat.opp PrimFloat.nan) = false.
Proof. repeat split; vm_compute; reflexivity. Qed.

(** C9.  For Vector3 values a = (x1, y1, z1) and
    b = (x2, y2, z2) with components modelled as reals (exact arithmetic,
    no overflow), [Vector3.cross(a, b)] returns a
    new vector with the components
    (y1*z2 - z1*y2, z1*x2 - x1*z2, x1*y2 - y1*x2), and each component of
    [Vector3.cross(b, a)] is the negation of the corresponding one. *)
Theorem cross_right_hand_anticommutative h a b (x1 y1 z1 x2 y2 z2 : R) :
  lookup h a = Some (Vec (Num x1) (Num y1) (Num z1)) ->
  lookup h b = Some (Vec (Num x2) (Num y2) (Num z2)) ->
  Vector3.cross a b h
  = Ok (length h)
       (h ++ [Vec (Num (y1 * z2 - z1 * y2)) (Num (z1 * x2 - x1 * z2)) (Num (x1 * y2 - y1 * x2))])
  /\
  Vector3.cross b a h
  = Ok (length h)
       (h ++ [Vec (Num (- (y1 * z2 - z1 * y2))) (Num (- (z1 * x2 - x1 * z2)))
                  (Num (- (x1 * y2 - y1 * x2)))]).
Proof.
  intros Ha Hb. split.
  - now rewrite (run_cross _ _ _ _ _ _ _ _ _ Ha Hb).
  - rewrite (run_cross _ _ _ _ _ _ _ _ _ Hb Ha).
    cbv [JsNum.sub JsNum.mul JsNum.lift2].
    replace (y2 * z1 - z2 * y1)%R with (- (y1 * z2 - z1 * y2))%R by ring.
    replace (z2 * x1 - x2 * z1)%R with (- (z1 * x2 - x1 * z2))%R by ring.
    replace (x2 * y1 - y2 * x1)%R with (- (x1 * y2 - y1 * x2))%R by ring.
    reflexivity.
Qed.

Lemma cross_right_hand_anticommutative_witness :
  let h := [Vec (Num 1%R) (Num 2%R) (Num 3%R); Vec (Num 4%R) (Num 5%R) (Num 6%R)] in
  (lookup h 0 = Some (Vec (Num 1%R) (Num 2%R) (Num 3%R))
   /\ lookup h 1 = Some (Vec (Num 4%R) (Num 5%R) (Num 6%R)))
  /\ Vector3.cross 0 1 h
     = Ok 2 (h ++ [Vec (Num (2 * 6 - 3 * 5)%R) (Num (3 * 4 - 1 * 6)%R) (Num (1 * 5 - 2 * 4)%R)])
  /\ Vector3.cross 1 0 h
     = Ok 2 (h ++ [Vec (Num (- (2 * 6 - 3 * 5))%R) (Num (- (3 * 4 - 1 * 6))%R)
                       (Num (- (1 * 5 - 2 * 4))%R)]).
Proof.
  intros h. split; [split; reflexivity|].
  exact (cross_right_hand_anticommutative h 0 1 1 2 3 4 5 6 eq_refl eq_refl).
Defined.

(** ** [lookAt] *)

(** C10.  For every heap and every three Vector3 arguments
    (the third possibly omitted), [Matrix4x4.lookAt(origin, target, up)]
    returns a matrix and leaves the three argument vectors as they were;
    indeed the final heap only extends the initial one, so the calls of
    [normalize()] have mutated freshly allocated vectors only. *)
Theorem lookAt_leaves_arguments_unchanged h origin target up :
  (exists x y z, lookup h origin = Some (Vec x y z)) ->
  (exists x y z, lookup h target = Some (Vec x y z)) ->
  (forall u, up = Some u -> exists x y z, lookup h u = Some (Vec x y z)) ->
  exists m h',
    Matrix4x4.lookAt origin target up h = Ok m h'
    /\ lookup h' origin = lookup h origin
    /\ lookup h' target = lookup h target
    /\ (forall u, up = Some u -> lookup h' u = lookup h u)
    /\ extends h h'.
Proof.
  intros Ho Ht Hu.
  assert (Hrun : exists m h', Matrix4x4.lookAt origin target up h = Ok m h' /\ extends h h').
  { destruct up as [u|].
    - apply run_lookAt_given_up; auto.
    - rewrite run_lookAt_default_up.
      destruct (run_lookAt_given_up (h ++ [Vec (Num 0%R) (Num 1%R) (Num 0%R)])
                  origin target (length h)) as (m & h' & E & Hext).
      + destruct Ho as (x & y & z & Ho). exists x, y, z.
        eapply extends_lookup; [apply extends_app|exact Ho].
      + destruct Ht as (x & y & z & Ht). exists x, y, z.
        eapply extends_lookup; [apply extends_app|exact Ht].
      + do 3 eexists. apply lookup_app_new.
      + exists m, h'. split; [exact E|].
        eapply extends_trans; [apply extends_app|exact Hext]. }
  destruct Hrun as (m & h' & E & Hext).
  exists m, h'. split; [exact E|].
  destruct Ho as (ox & oy & oz & Ho), Ht as (tx & ty & tz & Ht).
  split; [|split; [|split]].
  - rewrite Ho. eapply extends_lookup; eauto.
  - rewrite Ht. eapply extends_lookup; eauto.
  - intros u Hup. destruct (Hu u Hup) as (x & y & z & Hl).
    rewrite Hl. eapply extends_lookup; eauto.
  - exact Hext.
Qed.

Lemma lookAt_leaves_arguments_unchanged_witness :
  let o := Vec (Num 0%R) (Num 0%R) (Num 5%R) in
  let t := Vec (Num 0%R) (Num 0%R) (Num 0%R) in
  let u := Vec (Num 0%R) (Num 1%R) (Num 0%R) in
  let h := [o; t; u] in
  (lookup h 0 = Some o /\ lookup h 1 = Some t /\ lookup h 2 = Some u)
  /\ exists m h',
       Matrix4x4.lookAt 0 1 (Some 2) h = Ok m h'
       /\ lookup h' 0 = Some o /\ lookup h' 1 = Some t /\ lookup h' 2 = Some u.
Proof.
  intros o t u h. split; [repeat split|].
  destruct (lookAt_leaves_arguments_unchanged h 0 1 (Some 2)) as (m & h' & E & H0 & H1 & H2 & _).
  - do 3 eexists; reflexivity.
  - do 3 eexists; reflexivity.
  - intros u' Hu'. injection Hu' as <-. do 3 eexists; reflexivity.
  - exists m, h'. split; [exact E|]. split; [exact H0|]. split; [exact H1|].
    exact (H2 2 eq_refl).
Defined.

(** * Further properties *)

Ltac real_lists_eq := repeat (apply f_equal2; [try ring|]); try reflexivity.

Ltac reals_compute :=
  cbv [product product_entry Rsum identity_reals flat_map map seq app nth
       Nat.eqb Nat.mul Nat.add length].

Lemma identity_entries_reals n : identity_entries n = map Num (identity_reals n).
Proof.
  unfold identity_entries, identity_reals.
  induction (seq 0 n) as [|i l IH] at 2 4; simpl; [reflexivity|].
  rewrite map_app, IH. f_equal.
  rewrite map_map. apply map_ext. intros j. now destruct (Nat.eqb i j).
Qed.

Lemma rows_length {A : Type} (n : nat) (g : nat -> nat -> A) (l : list nat) :
  length (flat_map (fun i => map (g i) (seq 0 n)) l) = length l * n.
Proof.
  induction l as [|i l IH]; simpl; [reflexivity|].
  now rewrite length_app, length_map, length_seq, IH.
Qed.

Lemma product_length n X Y : length (product n X Y) = n * n.
Proof. unfold product. now rewrite rows_length, length_seq. Qed.

Lemma identity_reals_length n : length (identity_reals n) = n * n.
Proof. unfold identity_reals. now rewrite rows_length, length_seq. Qed.

Lemma product_identity :
  (forall A, length A = 2 * 2 ->
     product 2 A (identity_reals 2) = A /\ product 2 (identity_reals 2) A = A) /\
  (forall A, length A = 3 * 3 ->
     product 3 A (identity_reals 3) = A /\ product 3 (identity_reals 3) A = A) /\
  (forall A, length A = 4 * 4 ->
     product 4 A (identity_reals 4) = A /\ product 4 (identity_reals 4) A = A).
Proof.
  repeat split.
  - list_of_length A H 4. reals_compute. real_lists_eq.
  - list_of_length A H 4. reals_compute. real_lists_eq.
  - list_of_length A H 9. reals_compute. real_lists_eq.
  - list_of_length A H 9. reals_compute. real_lists_eq.
  - list_of_length A H 16. reals_compute. real_lists_eq.
  - list_of_length A H 16. reals_compute. real_lists_eq.
Qed.

(** ** Facts shared by the three matrix classes

    [n] is the order of the class, [mult_n] and [identity_n] its methods;
    the hypotheses are the refinement lemmas of the class. *)

Section Order.

Variable n : nat.
Variable mult_n : ref -> ref -> M unit.
Variable identity_n : M ref.

Hypothesis run_mult_n : forall h this b T B,
  lookup h this = Some (Arr T) -> lookup h b = Some (Arr B) -> this <> b ->
  mult_n this b h = Ok tt (upd (h ++ [Arr T]) this (Arr (Val.mult n T B))).

Hypothesis run_identity_n : forall h,
  identity_n h = Ok (length h) (h ++ [Arr (identity_entries n)]).

Hypothesis mult_val_n : forall X Y,
  length X = n * n -> length Y = n * n ->
  Val.mult n (map Num X) (map Num Y) = map Num (product n X Y).

Hypothesis product_identity_n : forall A,
  length A = n * n ->
  product n A (identity_reals n) = A /\ product n (identity_reals n) A = A.

Lemma mult_product h a b A B :
  holds h a A -> holds h b B -> a <> b -> length A = n * n -> length B = n * n ->
  exists h', mult_n a b h = Ok tt h'
             /\ holds h' a (product n A B)
             /\ unchanged_except a h h'
             /\ length h' = S (length h).
Proof.
  intros Ha Hb Hne LA LB.
  pose proof (lookup_valid _ _ _ Ha) as Hlt.
  rewrite (run_mult_n _ _ _ _ _ Ha Hb Hne).
  eexists; split; [reflexivity|]. split; [|split].
  - unfold holds. rewrite lookup_upd_eq by (rewrite length_app; lia).
    now rewrite mult_val_n.
  - intros r Hr Hra. rewrite lookup_upd_neq by auto. now apply lookup_app_old.
  - rewrite upd_length, length_app. simpl. lia.
Qed.

(** [m.mult(identity())] leaves the entries of [m] as they were. *)
Lemma mult_identity_right h m A :
  holds h m A -> length A = n * n ->
  exists h', (i <- identity_n ;; mult_n m i) h = Ok tt h' /\ holds h' m A.
Proof.
  intros Hm LA.
  pose proof (lookup_valid _ _ _ Hm) as Hlt.
  rewrite (bind_ok _ _ _ _ _ (run_identity_n h)).
  destruct (mult_product (h ++ [Arr (identity_entries n)]) m (length h) A (identity_reals n))
    as (h' & E & Hl & _).
  - unfold holds. rewrite lookup_app_old; auto.
  - unfold holds. rewrite <- identity_entries_reals. apply lookup_app_new.
  - lia.
  - exact LA.
  - apply identity_reals_length.
  - exists h'. split; [exact E|].
    now rewrite (proj1 (product_identity_n A LA)) in Hl.
Qed.

(** [i = identity(); i.mult(m)] leaves the entries of [m] in [i]. *)
Lemma mult_identity_left h m A :
  holds h m A -> length A = n * n ->
  exists i h', (i <- identity_n ;; mult_n i m ;; ret i) h = Ok i h'
               /\ holds h' i A /\ holds h' m A /\ i <> m.
Proof.
  intros Hm LA.
  pose proof (lookup_valid _ _ _ Hm) as Hlt.
  rewrite (bind_ok _ _ _ _ _ (run_identity_n h)).
  destruct (mult_product (h ++ [Arr (identity_entries n)]) (length h) m (identity_reals n) A)
    as (h' & E & Hl & Hf & _).
  - unfold holds. rewrite <- identity_entries_reals. apply lookup_app_new.
  - unfold holds. rewrite lookup_app_old; auto.
  - lia.
  - apply identity_reals_length.
  - exact LA.
  - rewrite (bind_ok _ _ _ _ _ E). exists (length h), h'. split; [reflexivity|].
    rewrite (proj2 (product_identity_n A LA)) in Hl. split; [exact Hl|]. split; [|lia].
    unfold holds. rewrite Hf by (rewrite ?length_app; simpl; lia).
    rewrite lookup_app_old; auto.
Qed.

(** [static multiply(a, b)]: a new matrix holding a × b; [a] and [b] may be
    the same object. *)
Lemma multiply_product h a b A B :
  holds h a A -> holds h b B -> length A = n * n -> length B = n * n ->
  exists h',
    (c <- identity_n ;; mult_n c a ;; mult_n c b ;; ret c) h = Ok (length h) h'
    /\ holds h' (length h) (product n A B)
    /\ (forall r, r < length h -> lookup h' r = lookup h r).
Proof.
  intros Ha Hb LA LB.
  pose proof (lookup_valid _ _ _ Ha) as Hlta.
  pose proof (lookup_valid _ _ _ Hb) as Hltb.
  rewrite (bind_ok _ _ _ _ _ (run_identity_n h)).
  set (h1 := h ++ [Arr (identity_entries n)]).
  assert (L1 : length h1 = S (length h)) by (unfold h1; rewrite length_app; simpl; lia).
  destruct (mult_product h1 (length h) a (identity_reals n) A)
    as (h2 & E2 & Hl2 & Hf2 & L2).
  { unfold holds, h1. rewrite <- identity_entries_reals. apply lookup_app_new. }
  { unfold holds, h1. rewrite lookup_app_old; auto. }
  { lia. }
  { apply identity_reals_length. }
  { exact LA. }
  rewrite (proj2 (product_identity_n A LA)) in Hl2.
  rewrite (bind_ok _ _ _ _ _ E2).
  assert (Hb2 : holds h2 b B).
  { unfold holds. rewrite Hf2 by lia. unfold h1. rewrite lookup_app_old; auto. }
  destruct (mult_product h2 (length h) b A B) as (h3 & E3 & Hl3 & Hf3 & L3).
  { exact Hl2. }
  { exact Hb2. }
  { lia. }
  { exact LA. }
  { exact LB. }
  rewrite (bind_ok _ _ _ _ _ E3).
  exists h3. split; [reflexivity|]. split; [exact Hl3|].
  intros r Hr. rewrite Hf3 by lia. rewrite Hf2 by lia.
  unfold h1. now apply lookup_app_old.
Qed.

End Order.

(** ** [mult], [multiply] and the identity *)

Lemma run_identity2 h :
  Matrix2x2.identity h = Ok (length h) (h ++ [Arr (identity_entries 2)]).
Proof. reflexivity. Qed.

Lemma run_identity4 h :
  Matrix4x4.identity h = Ok (length h) (h ++ [Arr (identity_entries 4)]).
Proof. reflexivity. Qed.

(** X1.  For each of the three classes, [a.mult(b)] on two distinct
    matrices of reals leaves the product a × b in [a] (entry (i, j) is the
    sum over k of a[i, k] * b[k, j]) and changes no other existing
    object, [b] included. *)
Theorem mult_leaves_this_times_b h2 a2 b2 A2 B2 h3 a3 b3 A3 B3 h4 a4 b4 A4 B4 :
  holds h2 a2 A2 -> holds h2 b2 B2 -> a2 <> b2 -> length A2 = 4 -> length B2 = 4 ->
  holds h3 a3 A3 -> holds h3 b3 B3 -> a3 <> b3 -> length A3 = 9 -> length B3 = 9 ->
  holds h4 a4 A4 -> holds h4 b4 B4 -> a4 <> b4 -> length A4 = 16 -> length B4 = 16 ->
  (exists h', Matrix2x2.mult a2 b2 h2 = Ok tt h'
              /\ holds h' a2 (product 2 A2 B2) /\ unchanged_except a2 h2 h')
  /\ (exists h', Matrix3x3.mult a3 b3 h3 = Ok tt h'
                 /\ holds h' a3 (product 3 A3 B3) /\ unchanged_except a3 h3 h')
  /\ (exists h', Matrix4x4.mult a4 b4 h4 = Ok tt h'
                 /\ holds h' a4 (product 4 A4 B4) /\ unchanged_except a4 h4 h').
Proof.
  intros Ha2 Hb2 N2 LA2 LB2 Ha3 Hb3 N3 LA3 LB3 Ha4 Hb4 N4 LA4 LB4.
  split; [|split].
  - destruct (mult_product 2 Matrix2x2.mult run_mult2 (proj1 mult_val_product)
                h2 a2 b2 A2 B2) as (h' & E & Hl & Hf & _); auto.
    exists h'. auto.
  - destruct (mult_product 3 Matrix3x3.mult run_mult3 (proj1 (proj2 mult_val_product))
                h3 a3 b3 A3 B3) as (h' & E & Hl & Hf & _); auto.
    exists h'. auto.
  - destruct (mult_product 4 Matrix4x4.mult run_mult4 (proj2 (proj2 mult_val_product))
                h4 a4 b4 A4 B4) as (h' & E & Hl & Hf & _); auto.
    exists h'. auto.
Qed.

Lemma mult_leaves_this_times_b_witness :
  let A2 := [1; 2;  3; 4]%R in
  let B2 := [0; 1;  1; 0]%R in
  let A3 := [1; 2; 3;  4; 5; 6;  7; 8; 9]%R in
  let B3 := [0; 1; 0;  1; 0; 0;  0; 0; 1]%R in
  let A4 := [1; 2; 3; 4;  5; 6; 7; 8;  9; 10; 11; 12;  13; 14; 15; 16]%R in
  let B4 := [2; 0; 0; 0;  0; 2; 0; 0;  0; 0; 2; 0;  0; 0; 0; 2]%R in
  let h2 := [Arr (map Num A2); Arr (map Num B2)] in
  let h3 := [Arr (map Num A3); Arr (map Num B3)] in
  let h4 := [Arr (map Num A4); Arr (map Num B4)] in
  (holds h2 0 A2 /\ holds h2 1 B2 /\ holds h3 0 A3 /\ holds h3 1 B3
   /\ holds h4 0 A4 /\ holds h4 1 B4)
  /\ (exists h', Matrix2x2.mult 0 1 h2 = Ok tt h' /\ holds h' 0 (product 2 A2 B2))
  /\ (exists h', Matrix3x3.mult 0 1 h3 = Ok tt h' /\ holds h' 0 (product 3 A3 B3))
  /\ (exists h', Matrix4x4.mult 0 1 h4 = Ok tt h' /\ holds h' 0 (product 4 A4 B4)).
Proof.
  intros A2 B2 A3 B3 A4 B4 h2 h3 h4.
  assert (N : 0 <> 1) by discriminate.
  destruct (mult_leaves_this_times_b h2 0 1 A2 B2 h3 0 1 A3 B3 h4 0 1 A4 B4
              eq_refl eq_refl N eq_refl eq_refl
              eq_refl eq_refl N eq_refl eq_refl
              eq_refl eq_refl N eq_refl eq_refl)
    as ((k2 & E2 & H2 & _) & (k3 & E3 & H3 & _) & (k4 & E4 & H4 & _)).
  split; [repeat split|]. split; [|split].
  - exists k2. now split.
  - exists k3. now split.
  - exists k4. now split.
Defined.

(** X2.  The identity is neutral for [mult] in each class: for a matrix
    [m] of reals, [m.mult(identity())] leaves the entries of [m] as they
    were, and [i = identity(); i.mult(m)] leaves [i] holding the entries
    of [m]. *)
Theorem mult_identity_is_neutral h2 m2 A2 h3 m3 A3 h4 m4 A4 :
  holds h2 m2 A2 -> length A2 = 4 ->
  holds h3 m3 A3 -> length A3 = 9 ->
  holds h4 m4 A4 -> length A4 = 16 ->
  ((exists h', (i <- Matrix2x2.identity ;; Matrix2x2.mult m2 i) h2 = Ok tt h'
               /\ holds h' m2 A2)
   /\ (exists h', (i <- Matrix3x3.identity ;; Matrix3x3.mult m3 i) h3 = Ok tt h'
                  /\ holds h' m3 A3)
   /\ (exists h', (i <- Matrix4x4.identity ;; Matrix4x4.mult m4 i) h4 = Ok tt h'
                  /\ holds h' m4 A4))
  /\
  ((exists i h', (i <- Matrix2x2.identity ;; Matrix2x2.mult i m2 ;; ret i) h2 = Ok i h'
                 /\ holds h' i A2 /\ holds h' m2 A2 /\ i <> m2)
   /\ (exists i h', (i <- Matrix3x3.identity ;; Matrix3x3.mult i m3 ;; ret i) h3 = Ok i h'
                    /\ holds h' i A3 /\ holds h' m3 A3 /\ i <> m3)
   /\ (exists i h', (i <- Matrix4x4.identity ;; Matrix4x4.mult i m4 ;; ret i) h4 = Ok i h'
                    /\ holds h' i A4 /\ holds h' m4 A4 /\ i <> m4)).
Proof.
  intros H2 L2 H3 L3 H4 L4.
  split; (split; [|split]).
  - apply (mult_identity_right 2 Matrix2x2.mult Matrix2x2.identity run_mult2 run_identity2
             (proj1 mult_val_product) (proj1 product_identity)); auto.
  - apply (mult_identity_right 3 Matrix3x3.mult Matrix3x3.identity run_mult3 run_identity3
             (proj1 (proj2 mult_val_product)) (proj1 (proj2 product_identity))); auto.
  - apply (mult_identity_right 4 Matrix4x4.mult Matrix4x4.identity run_mult4 run_identity4
             (proj2 (proj2 mult_val_product)) (proj2 (proj2 product_identity))); auto.
  - apply (mult_identity_left 2 Matrix2x2.mult Matrix2x2.identity run_mult2 run_identity2
             (proj1 mult_val_product) (proj1 product_identity)); auto.
  - apply (mult_identity_left 3 Matrix3x3.mult Matrix3x3.identity run_mult3 run_identity3
             (proj1 (proj2 mult_val_product)) (proj1 (proj2 product_identity))); auto.
  - apply (mult_identity_left 4 Matrix4x4.mult Matrix4x4.identity run_mult4 run_identity4
             (proj2 (proj2 mult_val_product)) (proj2 (proj2 product_identity))); auto.
Qed.

Lemma mult_identity_is_neutral_witness :
  let A2 := [1; 2;  3; 4]%R in
  let A3 := [1; 2; 3;  4; 5; 6;  7; 8; 9]%R in
  let A4 := [1; 2; 3; 4;  5; 6; 7; 8;  9; 10; 11; 12;  13; 14; 15; 16]%R in
  (holds [Arr (map Num A2)] 0 A2 /\ holds [Arr (map Num A3)] 0 A3
   /\ holds [Arr (map Num A4)] 0 A4)
  /\ (exists h', (i <- Matrix3x3.identity ;; Matrix3x3.mult 0 i) [Arr (map Num A3)] = Ok tt h'
                 /\ holds h' 0 A3).
Proof.
  intros A2 A3 A4. split; [repeat split|].
  exact (proj1 (proj2 (proj1
    (mult_identity_is_neutral [Arr (map Num A2)] 0 A2 [Arr (map Num A3)] 0 A3
       [Arr (map Num A4)] 0 A4 eq_refl eq_refl eq_refl eq_refl eq_refl eq_refl)))).
Defined.

(** X3.  [Matrix3x3.multiply(a, b)] and [Matrix4x4.multiply(a, b)] return a
    new matrix that holds the product a × b and leave every existing
    object, [a] and [b] included, as it was; [a] and [b] may be one and
    the same object. *)
Theorem multiply_returns_new_product h3 a3 b3 A3 B3 h4 a4 b4 A4 B4 :
  holds h3 a3 A3 -> holds h3 b3 B3 -> length A3 = 9 -> length B3 = 9 ->
  holds h4 a4 A4 -> holds h4 b4 B4 -> length A4 = 16 -> length B4 = 16 ->
  (exists h', Matrix3x3.multiply a3 b3 h3 = Ok (length h3) h'
              /\ holds h' (length h3) (product 3 A3 B3)
              /\ (forall r, r < length h3 -> lookup h' r = lookup h3 r))
  /\
  (exists h', Matrix4x4.multiply a4 b4 h4 = Ok (length h4) h'
              /\ holds h' (length h4) (product 4 A4 B4)
              /\ (forall r, r < length h4 -> lookup h' r = lookup h4 r)).
Proof.
  intros Ha3 Hb3 LA3 LB3 Ha4 Hb4 LA4 LB4. split.
  - apply (multiply_product 3 Matrix3x3.mult Matrix3x3.identity run_mult3 run_identity3
             (proj1 (proj2 mult_val_product)) (proj1 (proj2 product_identity))); auto.
  - apply (multiply_product 4 Matrix4x4.mult Matrix4x4.identity run_mult4 run_identity4
             (proj2 (proj2 mult_val_product)) (proj2 (proj2 product_identity))); auto.
Qed.

Lemma multiply_returns_new_product_witness :
  let A3 := [1; 2; 3;  4; 5; 6;  7; 8; 9]%R in
  let A4 := [1; 2; 3; 4;  5; 6; 7; 8;  9; 10; 11; 12;  13; 14; 15; 16]%R in
  (holds [Arr (map Num A3)] 0 A3 /\ holds [Arr (map Num A4)] 0 A4)
  /\ (exists h', Matrix3x3.multiply 0 0 [Arr (map Num A3)] = Ok 1 h'
                 /\ holds h' 1 (product 3 A3 A3) /\ holds h' 0 A3)
  /\ (exists h', Matrix4x4.multiply 0 0 [Arr (map Num A4)] = Ok 1 h'
                 /\ holds h' 1 (product 4 A4 A4) /\ holds h' 0 A4).
Proof.
  intros A3 A4. split; [repeat split|].
  destruct (multiply_returns_new_product
              [Arr (map Num A3)] 0 0 A3 A3 [Arr (map Num A4)] 0 0 A4 A4
              eq_refl eq_refl eq_refl eq_refl eq_refl eq_refl eq_refl eq_refl)
    as ((k3 & E3 & H3 & F3) & (k4 & E4 & H4 & F4)).
  split.
  - exists k3. split; [exact E3|]. split; [exact H3|].
    unfold holds. rewrite (F3 0) by (simpl; lia). reflexivity.
  - exists k4. split; [exact E4|]. split; [exact H4|].
    unfold holds. rewrite (F4 0) by (simpl; lia). reflexivity.
Defined.

(** ** The transform helpers *)



(** A helper of Matrix3x3: build a transform [T], then [this.mult(T)]. *)
Lemma run_helper3 (builder : M ref) (T : list R) h m A :
  (forall k, builder k = Ok (length k) (k ++ [Arr (map Num T)])) -> length T = 9 ->
  holds h m A -> length A = 9 ->
  exists h', (t <- builder ;; Matrix3x3.mult m t) h = Ok tt h'
             /\ holds h' m (product 3 A T) /\ unchanged_except m h h'.
Proof.
  intros Hb LT Hm LA.
  pose proof (lookup_valid _ _ _ Hm) as Hlt.
  rewrite (bind_ok _ _ _ _ _ (Hb h)).
  destruct (mult_product 3 Matrix3x3.mult run_mult3 (proj1 (proj2 mult_val_product))
              (h ++ [Arr (map Num T)]) m (length h) A T) as (h' & E & Hl & Hf & _).
  - unfold holds. now rewrite lookup_app_old.
  - apply lookup_app_new.
  - lia.
  - exact LA.
  - exact LT.
  - exists h'. split; [exact E|]. split; [exact Hl|].
    intros r Hr Hne. rewrite Hf by (rewrite ?length_app; simpl; lia).
    now apply lookup_app_old.
Qed.

Lemma premult4_product_frame h a b A B :
  holds h a A -> holds h b B -> a <> b -> length A = 16 -> length B = 16 ->
  exists h', Matrix4x4.premult a b h = Ok tt h'
             /\ holds h' a (product 4 B A) /\ unchanged_except a h h'.
Proof.
  intros Ha Hb Hne LA LB.
  pose proof (lookup_valid _ _ _ Ha) as Hlt.
  rewrite (run_premult4 _ _ _ _ _ Ha Hb Hne).
  eexists; split; [reflexivity|]. split.
  - unfold holds. rewrite lookup_upd_eq by (rewrite length_app; lia).
    now rewrite premult_ik_kj_val_product.
  - intros r Hr Hra. rewrite lookup_upd_neq by auto. now apply lookup_app_old.
Qed.

(** A helper of Matrix4x4: build a transform [T], then [this.premult(T)]. *)
Lemma run_helper4 (builder : M ref) (T : list R) h m A :
  (forall k, builder k = Ok (length k) (k ++ [Arr (map Num T)])) -> length T = 16 ->
  holds h m A -> length A = 16 ->
  exists h', (t <- builder ;; Matrix4x4.premult m t) h = Ok tt h'
             /\ holds h' m (product 4 T A) /\ unchanged_except m h h'.
Proof.
  intros Hb LT Hm LA.
  pose proof (lookup_valid _ _ _ Hm) as Hlt.
  rewrite (bind_ok _ _ _ _ _ (Hb h)).
  destruct (premult4_product_frame (h ++ [Arr (map Num T)]) m (length h) A T)
    as (h' & E & Hl & Hf).
  - unfold holds. now rewrite lookup_app_old.
  - apply lookup_app_new.
  - lia.
  - exact LA.
  - exact LT.
  - exists h'. split; [exact E|]. split; [exact Hl|].
    intros r Hr Hne. rewrite Hf by (rewrite ?length_app; simpl; lia).
    now apply lookup_app_old.
Qed.

Lemma run_translate3 h m A tx ty :
  holds h m A -> length A = 9 ->
  exists h', Matrix3x3.translate m (Num tx) (Num ty) h = Ok tt h'
             /\ holds h' m (product 3 A (translation3 tx ty)) /\ unchanged_except m h h'.
Proof.
  intros Hm LA.
  apply (run_helper3 (Matrix3x3.translation (Num tx) (Num ty)));
    [intros k; reflexivity|reflexivity|exact Hm|exact LA].
Qed.

Lemma run_scale3 h m A sx sy :
  holds h m A -> length A = 9 ->
  exists h', Matrix3x3.scale m (Num sx) (Num sy) h = Ok tt h'
             /\ holds h' m (product 3 A (scaling3 sx sy)) /\ unchanged_except m h h'.
Proof.
  intros Hm LA.
  apply (run_helper3 (Matrix3x3.scaling (Num sx) (Num sy)));
    [intros k; reflexivity|reflexivity|exact Hm|exact LA].
Qed.

Lemma run_rotate3 h m A angle :
  holds h m A -> length A = 9 ->
  exists h', Matrix3x3.rotate m (Num angle) h = Ok tt h'
             /\ holds h' m (product 3 A (rotation3 angle)) /\ unchanged_except m h h'.
Proof.
  intros Hm LA.
  apply (run_helper3 (Matrix3x3.rotation (Num angle)));
    [intros k; reflexivity|reflexivity|exact Hm|exact LA].
Qed.

Lemma run_translate4 h m A tx ty tz :
  holds h m A -> length A = 16 ->
  exists h', Matrix4x4.translate m (Num tx) (Num ty) (Num tz) h = Ok tt h'
             /\ holds h' m (product 4 (translation4 tx ty tz) A) /\ unchanged_except m h h'.
Proof.
  intros Hm LA.
  apply (run_helper4 (Matrix4x4.fromTranslation (Num tx) (Num ty) (Num tz)));
    [intros k; reflexivity|reflexivity|exact Hm|exact LA].
Qed.

Lemma run_scale4 h m A sx sy sz :
  holds h m A -> length A = 16 ->
  exists h', Matrix4x4.scale m (Num sx) (Num sy) (Num sz) h = Ok tt h'
             /\ holds h' m (product 4 (scaling4 sx sy sz) A) /\ unchanged_except m h h'.
Proof.
  intros Hm LA.
  apply (run_helper4 (Matrix4x4.fromScaling (Num sx) (Num sy) (Num sz)));
    [intros k; reflexivity|reflexivity|exact Hm|exact LA].
Qed.

Lemma run_xRotate4 h m A angle :
  holds h m A -> length A = 16 ->
  exists h', Matrix4x4.xRotate m (Num angle) h = Ok tt h'
             /\ holds h' m (product 4 (xRotation4 angle) A) /\ unchanged_except m h h'.
Proof.
  intros Hm LA.
  apply (run_helper4 (Matrix4x4.fromXRotation (Num angle)));
    [intros k; reflexivity|reflexivity|exact Hm|exact LA].
Qed.

Lemma run_yRotate4 h m A angle :
  holds h m A -> length A = 16 ->
  exists h', Matrix4x4.yRotate m (Num angle) h = Ok tt h'
             /\ holds h' m (product 4 (yRotation4 angle) A) /\ unchanged_except m h h'.
Proof.
  intros Hm LA.
  apply (run_helper4 (Matrix4x4.fromYRotation (Num angle)));
    [intros k; reflexivity|reflexivity|exact Hm|exact LA].
Qed.

Lemma run_zRotate4 h m A angle :
  holds h m A -> length A = 16 ->
  exists h', Matrix4x4.zRotate m (Num angle) h = Ok tt h'
             /\ holds h' m (product 4 (zRotation4 angle) A) /\ unchanged_except m h h'.
Proof.
  intros Hm LA.
  apply (run_helper4 (Matrix4x4.fromZRotation (Num angle)));
    [intros k; reflexivity|reflexivity|exact Hm|exact LA].
Qed.

(** X4.  The helpers of Matrix3x3 multiply on the right: for a matrix [m]
    of reals holding A, [m.translate(tx, ty)], [m.scale(sx, sy)] and
    [m.rotate(angle)] leave A × T in [m], T being the translation, scaling
    or rotation matrix, and change no other existing object. *)
Theorem helpers3_multiply_on_the_right h m A tx ty sx sy angle :
  holds h m A -> length A = 9 ->
  (exists h', Matrix3x3.translate m (Num tx) (Num ty) h = Ok tt h'
              /\ holds h' m (product 3 A (translation3 tx ty))
              /\ unchanged_except m h h')
  /\ (exists h', Matrix3x3.scale m (Num sx) (Num sy) h = Ok tt h'
                 /\ holds h' m (product 3 A (scaling3 sx sy))
                 /\ unchanged_except m h h')
  /\ (exists h', Matrix3x3.rotate m (Num angle) h = Ok tt h'
                 /\ holds h' m (product 3 A (rotation3 angle))
                 /\ unchanged_except m h h').
Proof.
  intros Hm LA. split; [|split].
  - now apply run_translate3.
  - now apply run_scale3.
  - now apply run_rotate3.
Qed.

Lemma helpers3_multiply_on_the_right_witness :
  let A := [1; 2; 3;  4; 5; 6;  7; 8; 9]%R in
  let h := [Arr (map Num A)] in
  (holds h 0 A /\ length A = 9)
  /\ exists h', Matrix3x3.translate 0 (Num 10%R) (Num 20%R) h = Ok tt h'
                /\ holds h' 0 (product 3 A (translation3 10 20)).
Proof.
  intros A h. split; [split; reflexivity|].
  destruct (helpers3_multiply_on_the_right h 0 A 10 20 1 1 0 eq_refl eq_refl)
    as ((h' & E & Hl & _) & _).
  exists h'. now split.
Defined.

(** X5.  The helpers of Matrix4x4 multiply on the left, the other way
    round: for a matrix [m] of reals holding A, [m.translate], [m.scale],
    [m.xRotate], [m.yRotate] and [m.zRotate] leave T × A in [m], T being
    the matrix of the transform, and change no other existing object. *)
Theorem helpers4_multiply_on_the_left h m A tx ty tz sx sy sz angle :
  holds h m A -> length A = 16 ->
  (exists h', Matrix4x4.translate m (Num tx) (Num ty) (Num tz) h = Ok tt h'
              /\ holds h' m (product 4 (translation4 tx ty tz) A)
              /\ unchanged_except m h h')
  /\ (exists h', Matrix4x4.scale m (Num sx) (Num sy) (Num sz) h = Ok tt h'
                 /\ holds h' m (product 4 (scaling4 sx sy sz) A)
                 /\ unchanged_except m h h')
  /\ (exists h', Matrix4x4.xRotate m (Num angle) h = Ok tt h'
                 /\ holds h' m (product 4 (xRotation4 angle) A)
                 /\ unchanged_except m h h')
  /\ (exists h', Matrix4x4.yRotate m (Num angle) h = Ok tt h'
                 /\ holds h' m (product 4 (yRotation4 angle) A)
                 /\ unchanged_except m h h')
  /\ (exists h', Matrix4x4.zRotate m (Num angle) h = Ok tt h'
                 /\ holds h' m (product 4 (zRotation4 angle) A)
                 /\ unchanged_except m h h').
Proof.
  intros Hm LA. split; [|split; [|split; [|split]]].
  - now apply run_translate4.
  - now apply run_scale4.
  - now apply run_xRotate4.
  - now apply run_yRotate4.
  - now apply run_zRotate4.
Qed.

Lemma helpers4_multiply_on_the_left_witness :
  let A := [1; 2; 3; 4;  5; 6; 7; 8;  9; 10; 11; 12;  13; 14; 15; 16]%R in
  let h := [Arr (map Num A)] in
  (holds h 0 A /\ length A = 16)
  /\ exists h', Matrix4x4.translate 0 (Num 10%R) (Num 20%R) (Num 30%R) h = Ok tt h'
                /\ holds h' 0 (product 4 (translation4 10 20 30) A).
Proof.
  intros A h. split; [split; reflexivity|].
  destruct (helpers4_multiply_on_the_left h 0 A 10 20 30 1 1 1 0 eq_refl eq_refl)
    as ((h' & E & Hl & _) & _).
  exists h'. now split.
Defined.

(** ** Composition of the helpers *)

Ltac builders_compute :=
  cbv [translation3 rotation3 scaling3 translation4 xRotation4 yRotation4
       zRotation4 scaling4];
  reals_compute.

Ltac trig_lists_eq :=
  rewrite ?cos_plus, ?sin_plus; real_lists_eq.

Lemma compose3_val A :
  length A = 9 ->
  (forall a b c d,
     product 3 (product 3 A (translation3 a b)) (translation3 c d)
     = product 3 A (translation3 (a + c) (b + d))) /\
  (forall a b c d,
     product 3 (product 3 A (scaling3 a b)) (scaling3 c d)
     = product 3 A (scaling3 (a * c) (b * d))) /\
  (forall a b,
     product 3 (product 3 A (rotation3 a)) (rotation3 b)
     = product 3 A (rotation3 (a + b))).
Proof.
  intros HA. list_of_length A HA 9.
  split; [|split]; intros; builders_compute; trig_lists_eq.
Qed.

Lemma compose4_val A :
  length A = 16 ->
  (forall a b c a' b' c',
     product 4 (translation4 a' b' c') (product 4 (translation4 a b c) A)
     = product 4 (translation4 (a + a') (b + b') (c + c')) A) /\
  (forall a b c a' b' c',
     product 4 (scaling4 a' b' c') (product 4 (scaling4 a b c) A)
     = product 4 (scaling4 (a * a') (b * b') (c * c')) A) /\
  (forall a b,
     product 4 (xRotation4 b) (product 4 (xRotation4 a) A)
     = product 4 (xRotation4 (a + b)) A) /\
  (forall a b,
     product 4 (yRotation4 b) (product 4 (yRotation4 a) A)
     = product 4 (yRotation4 (a + b)) A) /\
  (forall a b,
     product 4 (zRotation4 b) (product 4 (zRotation4 a) A)
     = product 4 (zRotation4 (a + b)) A).
Proof.
  intros HA. list_of_length A HA 16.
  split; [|split; [|split; [|split]]]; intros; builders_compute; trig_lists_eq.
Qed.

(** Two runs in sequence of a helper that leaves [f A] in [m]. *)
Lemma helper_twice (step1 step2 : M unit) (n : nat) (f1 f2 : list R -> list R) h m A :
  (forall k X, holds k m X -> length X = n ->
     exists k', step1 k = Ok tt k' /\ holds k' m (f1 X) /\ unchanged_except m k k') ->
  (forall k X, holds k m X -> length X = n ->
     exists k', step2 k = Ok tt k' /\ holds k' m (f2 X) /\ unchanged_except m k k') ->
  (forall X, length X = n -> length (f1 X) = n) ->
  holds h m A -> length A = n ->
  exists h', (step1 ;; step2) h = Ok tt h' /\ holds h' m (f2 (f1 A)).
Proof.
  intros H1 H2 Hlen Hm LA.
  destruct (H1 h A Hm LA) as (h1 & E1 & Hm1 & _).
  destruct (H2 h1 (f1 A) Hm1 (Hlen A LA)) as (h2 & E2 & Hm2 & _).
  exists h2. now rewrite (bind_ok _ _ _ _ _ E1).
Qed.

(** X6.  Successive helpers of Matrix3x3 compose: two translations leave
    what one translation by the sums leaves, two scalings what one scaling
    by the products leaves, and two rotations what one rotation by the sum
    of the angles leaves. *)
Theorem helpers3_compose h m A (a b c d sx sy sx' sy' alpha beta : R) :
  holds h m A -> length A = 9 ->
  (exists h', (Matrix3x3.translate m (Num a) (Num b) ;;
               Matrix3x3.translate m (Num c) (Num d)) h = Ok tt h'
              /\ holds h' m (product 3 A (translation3 (a + c) (b + d))))
  /\ (exists h', (Matrix3x3.scale m (Num sx) (Num sy) ;;
                  Matrix3x3.scale m (Num sx') (Num sy')) h = Ok tt h'
                 /\ holds h' m (product 3 A (scaling3 (sx * sx') (sy * sy'))))
  /\ (exists h', (Matrix3x3.rotate m (Num alpha) ;;
                  Matrix3x3.rotate m (Num beta)) h = Ok tt h'
                 /\ holds h' m (product 3 A (rotation3 (alpha + beta)))).
Proof.
  intros Hm LA.
  destruct (compose3_val A LA) as (Ht & Hs & Hr).
  split; [|split].
  - rewrite <- Ht.
    apply (helper_twice _ _ 9 (fun X => product 3 X (translation3 a b))
             (fun X => product 3 X (translation3 c d)));
      [intros; now apply run_translate3|intros; now apply run_translate3
      |intros; apply product_length|exact Hm|exact LA].
  - rewrite <- Hs.
    apply (helper_twice _ _ 9 (fun X => product 3 X (scaling3 sx sy))
             (fun X => product 3 X (scaling3 sx' sy')));
      [intros; now apply run_scale3|intros; now apply run_scale3
      |intros; apply product_length|exact Hm|exact LA].
  - rewrite <- Hr.
    apply (helper_twice _ _ 9 (fun X => product 3 X (rotation3 alpha))
             (fun X => product 3 X (rotation3 beta)));
      [intros; now apply run_rotate3|intros; now apply run_rotate3
      |intros; apply product_length|exact Hm|exact LA].
Qed.

Lemma helpers3_compose_witness :
  let A := [1; 2; 3;  4; 5; 6;  7; 8; 9]%R in
  let h := [Arr (map Num A)] in
  (holds h 0 A /\ length A = 9)
  /\ exists h', (Matrix3x3.rotate 0 (Num 1%R) ;; Matrix3x3.rotate 0 (Num 2%R)) h = Ok tt h'
                /\ holds h' 0 (product 3 A (rotation3 (1 + 2))).
Proof.
  intros A h. split; [split; reflexivity|].
  exact (proj2 (proj2 (helpers3_compose h 0 A 0 0 0 0 1 1 1 1 1 2 eq_refl eq_refl))).
Defined.

(** X7.  Successive helpers of Matrix4x4 compose in the same way:
    translations add up, scalings multiply, and rotations about one axis
    add their angles. *)
Theorem helpers4_compose h m A (a b c a' b' c' sx sy sz sx' sy' sz' alpha beta : R) :
  holds h m A -> length A = 16 ->
  (exists h', (Matrix4x4.translate m (Num a) (Num b) (Num c) ;;
               Matrix4x4.translate m (Num a') (Num b') (Num c')) h = Ok tt h'
              /\ holds h' m (product 4 (translation4 (a + a') (b + b') (c + c')) A))
  /\ (exists h', (Matrix4x4.scale m (Num sx) (Num sy) (Num sz) ;;
                  Matrix4x4.scale m (Num sx') (Num sy') (Num sz')) h = Ok tt h'
                 /\ holds h' m (product 4 (scaling4 (sx * sx') (sy * sy') (sz * sz')) A))
  /\ (exists h', (Matrix4x4.xRotate m (Num alpha) ;;
                  Matrix4x4.xRotate m (Num beta)) h = Ok tt h'
                 /\ holds h' m (product 4 (xRotation4 (alpha + beta)) A))
  /\ (exists h', (Matrix4x4.yRotate m (Num alpha) ;;
                  Matrix4x4.yRotate m (Num beta)) h = Ok tt h'
                 /\ holds h' m (product 4 (yRotation4 (alpha + beta)) A))
  /\ (exists h', (Matrix4x4.zRotate m (Num alpha) ;;
                  Matrix4x4.zRotate m (Num beta)) h = Ok tt h'
                 /\ holds h' m (product 4 (zRotation4 (alpha + beta)) A)).
Proof.
  intros Hm LA.
  destruct (compose4_val A LA) as (Ht & Hs & Hx & Hy & Hz).
  split; [|split; [|split; [|split]]].
  - rewrite <- Ht.
    apply (helper_twice _ _ 16 (fun X => product 4 (translation4 a b c) X)
             (fun X => product 4 (translation4 a' b' c') X));
      [intros; now apply run_translate4|intros; now apply run_translate4
      |intros; apply product_length|exact Hm|exact LA].
  - rewrite <- Hs.
    apply (helper_twice _ _ 16 (fun X => product 4 (scaling4 sx sy sz) X)
             (fun X => product 4 (scaling4 sx' sy' sz') X));
      [intros; now apply run_scale4|intros; now apply run_scale4
      |intros; apply product_length|exact Hm|exact LA].
  - rewrite <- Hx.
    apply (helper_twice _ _ 16 (fun X => product 4 (xRotation4 alpha) X)
             (fun X => product 4 (xRotation4 beta) X));
      [intros; now apply run_xRotate4|intros; now apply run_xRotate4
      |intros; apply product_length|exact Hm|exact LA].
  - rewrite <- Hy.
    apply (helper_twice _ _ 16 (fun X => product 4 (yRotation4 alpha) X)
             (fun X => product 4 (yRotation4 beta) X));
      [intros; now apply run_yRotate4|intros; now apply run_yRotate4
      |intros; apply product_length|exact Hm|exact LA].
  - rewrite <- Hz.
    apply (helper_twice _ _ 16 (fun X => product 4 (zRotation4 alpha) X)
             (fun X => product 4 (zRotation4 beta) X));
      [intros; now apply run_zRotate4|intros; now apply run_zRotate4
      |intros; apply product_length|exact Hm|exact LA].
Qed.

Lemma helpers4_compose_witness :
  let A := [1; 2; 3; 4;  5; 6; 7; 8;  9; 10; 11; 12;  13; 14; 15; 16]%R in
  let h := [Arr (map Num A)] in
  (holds h 0 A /\ length A = 16)
  /\ exists h', (Matrix4x4.zRotate 0 (Num 1%R) ;; Matrix4x4.zRotate 0 (Num 2%R)) h = Ok tt h'
                /\ holds h' 0 (product 4 (zRotation4 (1 + 2)) A).
Proof.
  intros A h. split; [split; reflexivity|].
  exact (proj2 (proj2 (proj2 (proj2
    (helpers4_compose h 0 A 0 0 0 0 0 0 1 1 1 1 1 1 1 2 eq_refl eq_refl))))).
Defined.

(** ** Minors and determinants *)

Ltac minor_compute :=
  cbv [minor skip Nat.ltb Nat.leb Nat.sub flat_map map seq app nth Nat.mul Nat.add].

Lemma cofactor_val_minor :
  (forall A i j, length A = 9 -> i < 3 -> j < 3 ->
     Val.cofactor 3 (map Num A) i j = map Num (minor 3 A i j)) /\
  (forall A i j, length A = 16 -> i < 4 -> j < 4 ->
     Val.cofactor 4 (map Num A) i j = map Num (minor 4 A i j)).
Proof.
  split; intros A i j HA Hi Hj.
  - list_of_length A HA 9.
    index_cases i 3 ltac:(idtac); index_cases j 3 ltac:(val_compute; minor_compute; reflexivity).
  - list_of_length A HA 16.
    index_cases i 4 ltac:(idtac); index_cases j 4 ltac:(val_compute; minor_compute; reflexivity).
Qed.

Lemma minor_length n A i j : length (minor n A i j) = (n - 1) * (n - 1).
Proof. unfold minor. now rewrite rows_length, length_seq. Qed.

(** X8.  For a row [i] and a column [j] within the order, [_cofactor(i, j)]
    of Matrix3x3 (resp. Matrix4x4) allocates a new array holding the 4
    (resp. 9) entries of the minor, row [i] and column [j] deleted and the
    others in their order, and changes no existing object. *)
Theorem cofactor_is_minor h3 m3 A3 i3 j3 h4 m4 A4 i4 j4 :
  holds h3 m3 A3 -> length A3 = 9 -> i3 < 3 -> j3 < 3 ->
  holds h4 m4 A4 -> length A4 = 16 -> i4 < 4 -> j4 < 4 ->
  (Matrix3x3._cofactor m3 i3 j3 h3
   = Ok (length h3) (h3 ++ [Arr (map Num (minor 3 A3 i3 j3))])
   /\ length (minor 3 A3 i3 j3) = 4)
  /\
  (Matrix4x4._cofactor m4 i4 j4 h4
   = Ok (length h4) (h4 ++ [Arr (map Num (minor 4 A4 i4 j4))])
   /\ length (minor 4 A4 i4 j4) = 9).
Proof.
  intros H3 L3 I3 J3 H4 L4 I4 J4. split; split.
  - rewrite (run_cofactor3 _ _ i3 j3 _ H3).
    now rewrite (proj1 cofactor_val_minor).
  - apply minor_length.
  - rewrite (run_cofactor4 _ _ i4 j4 _ H4).
    now rewrite (proj2 cofactor_val_minor).
  - apply minor_length.
Qed.

Lemma cofactor_is_minor_witness :
  let A3 := [1; 2; 3;  4; 5; 6;  7; 8; 9]%R in
  let A4 := [1; 2; 3; 4;  5; 6; 7; 8;  9; 10; 11; 12;  13; 14; 15; 16]%R in
  (holds [Arr (map Num A3)] 0 A3 /\ holds [Arr (map Num A4)] 0 A4)
  /\ Matrix3x3._cofactor 0 1 0 [Arr (map Num A3)]
     = Ok 1 ([Arr (map Num A3)] ++ [Arr (map Num (minor 3 A3 1 0))])
  /\ Matrix4x4._cofactor 0 0 3 [Arr (map Num A4)]
     = Ok 1 ([Arr (map Num A4)] ++ [Arr (map Num (minor 4 A4 0 3))]).
Proof.
  intros A3 A4. split; [split; reflexivity|].
  destruct (cofactor_is_minor [Arr (map Num A3)] 0 A3 1 0 [Arr (map Num A4)] 0 A4 0 3
              eq_refl eq_refl ltac:(lia) ltac:(lia) eq_refl eq_refl ltac:(lia) ltac:(lia))
    as ((E3 & _) & (E4 & _)).
  split; [exact E3|exact E4].
Defined.

(** *** The adjugate by substitution *)

Lemma adjoint_det_val :
  (forall A i j, length A = 9 -> i < 3 -> j < 3 ->
     Val.det3 (Val.adjoint 3 (map Num A) i j)
     = (Num ((-1) ^ (i + j)) * Val.det2 (map Num (minor 3 A j i)))%num) /\
  (forall A i j, length A = 16 -> i < 4 -> j < 4 ->
     Val.det4 (Val.adjoint 4 (map Num A) i j)
     = (Num ((-1) ^ (i + j)) * Val.det3 (map Num (minor 4 A j i)))%num).
Proof.
  split; intros A i j HA Hi Hj.
  - list_of_length A HA 9.
    index_cases i 3 ltac:(idtac);
      index_cases j 3 ltac:(minor_compute; val_compute; f_equal; ring).
  - list_of_length A HA 16.
    index_cases i 4 ltac:(idtac);
      index_cases j 4 ltac:(minor_compute; val_compute; f_equal; ring).
Qed.

(** A row index past the order: the column is filled with zeros. *)
Lemma adjoint_det_val_no_row :
  (forall A i j, length A = 9 -> i < 3 -> 3 <= j ->
     Val.det3 (Val.adjoint 3 (map Num A) i j) = Num 0) /\
  (forall A i j, length A = 16 -> i < 4 -> 4 <= j ->
     Val.det4 (Val.adjoint 4 (map Num A) i j) = Num 0).
Proof.
  split; intros A i j HA Hi Hj.
  - list_of_length A HA 9. do 3 (destruct j as [|j]; [lia|]).
    index_cases i 3 ltac:(val_compute; f_equal; ring).
  - list_of_length A HA 16. do 4 (destruct j as [|j]; [lia|]).
    index_cases i 4 ltac:(val_compute; f_equal; ring).
Qed.

(** X9.  Over the reals (exact arithmetic, no overflow),
    [_adjointDeterminant(i, j)], the determinant of a copy whose column
    [i] is replaced by the unit vector of row [j], is the signed minor
    [(-1) ** (i + j) * _cofactor(j, i).determinant()], for [i] and [j]
    within the order, and leaves the existing objects unchanged.  With a
    row index past the order the column is all zeros and the result is
    0. *)
Theorem adjoint_determinant_is_signed_minor h3 m3 A3 i3 j3 r3 h4 m4 A4 i4 j4 r4 :
  holds h3 m3 A3 -> length A3 = 9 -> i3 < 3 -> j3 < 3 -> 3 <= r3 ->
  holds h4 m4 A4 -> length A4 = 16 -> i4 < 4 -> j4 < 4 -> 4 <= r4 ->
  ((exists d c k1 k2,
      Matrix3x3._adjointDeterminant m3 i3 j3 h3 = Ok d k1 /\ extends h3 k1
      /\ (m <- Matrix3x3._cofactor m3 j3 i3 ;; Matrix2x2.determinant m) h3 = Ok c k2
      /\ d = (Num ((-1) ^ (i3 + j3)) * c)%num)
   /\ (exists k, Matrix3x3._adjointDeterminant m3 i3 r3 h3 = Ok (Num 0%R) k))
  /\
  ((exists d c k1 k2,
      Matrix4x4._adjointDeterminant m4 i4 j4 h4 = Ok d k1 /\ extends h4 k1
      /\ (m <- Matrix4x4._cofactor m4 j4 i4 ;; Matrix3x3.determinant m) h4 = Ok c k2
      /\ d = (Num ((-1) ^ (i4 + j4)) * c)%num)
   /\ (exists k, Matrix4x4._adjointDeterminant m4 i4 r4 h4 = Ok (Num 0%R) k)).
Proof.
  intros H3 L3 I3 J3 R3 H4 L4 I4 J4 R4. split; split.
  - destruct (run_adjdet3 _ _ i3 j3 _ H3) as (k1 & E1 & Hext1).
    exists (Val.det3 (Val.adjoint 3 (map Num A3) i3 j3)),
      (Val.det2 (map Num (minor 3 A3 j3 i3))), k1.
    eexists. split; [exact E1|]. split; [exact Hext1|]. split.
    + rewrite (bind_ok _ _ _ _ _ (run_cofactor3 _ _ j3 i3 _ H3)).
      rewrite (run_det2 _ _ _ (lookup_app_new h3 _)).
      now rewrite (proj1 cofactor_val_minor).
    + now apply (proj1 adjoint_det_val).
  - destruct (run_adjdet3 _ _ i3 r3 _ H3) as (k1 & E1 & _).
    exists k1. now rewrite E1, (proj1 adjoint_det_val_no_row).
  - destruct (run_adjdet4 _ _ i4 j4 _ H4) as (k1 & E1 & Hext1).
    destruct (run_det3 _ _ _ (lookup_app_new h4 (Arr (Val.cofactor 4 (map Num A4) j4 i4))))
      as (k2 & E2 & _).
    exists (Val.det4 (Val.adjoint 4 (map Num A4) i4 j4)),
      (Val.det3 (map Num (minor 4 A4 j4 i4))), k1, k2.
    split; [exact E1|]. split; [exact Hext1|]. split.
    + rewrite (bind_ok _ _ _ _ _ (run_cofactor4 _ _ j4 i4 _ H4)).
      rewrite E2. now rewrite (proj2 cofactor_val_minor).
    + now apply (proj2 adjoint_det_val).
  - destruct (run_adjdet4 _ _ i4 r4 _ H4) as (k1 & E1 & _).
    exists k1. now rewrite E1, (proj2 adjoint_det_val_no_row).
Qed.

Lemma adjoint_determinant_is_signed_minor_witness :
  let A3 := [1; 2; 3;  4; 5; 6;  7; 8; 10]%R in
  let A4 := [1; 2; 3; 4;  5; 6; 7; 8;  9; 10; 11; 12;  13; 14; 15; 17]%R in
  (holds [Arr (map Num A3)] 0 A3 /\ holds [Arr (map Num A4)] 0 A4)
  /\ (exists k, Matrix3x3._adjointDeterminant 0 1 3 [Arr (map Num A3)] = Ok (Num 0%R) k)
  /\ (exists k, Matrix4x4._adjointDeterminant 0 2 4 [Arr (map Num A4)] = Ok (Num 0%R) k).
Proof.
  intros A3 A4. split; [split; reflexivity|].
  destruct (adjoint_determinant_is_signed_minor
              [Arr (map Num A3)] 0 A3 1 2 3 [Arr (map Num A4)] 0 A4 2 1 4
              eq_refl eq_refl ltac:(lia) ltac:(lia) ltac:(lia)
              eq_refl eq_refl ltac:(lia) ltac:(lia) ltac:(lia))
    as ((_ & W3) & (_ & W4)).
  split; [exact W3|exact W4].
Defined.

(** *** The determinant of a product *)

Lemma det_product_val :
  (forall A B, length A = 4 -> length B = 4 ->
     Val.det2 (map Num (product 2 A B))
     = (Val.det2 (map Num A) * Val.det2 (map Num B))%num) /\
  (forall A B, length A = 9 -> length B = 9 ->
     Val.det3 (map Num (product 3 A B))
     = (Val.det3 (map Num A) * Val.det3 (map Num B))%num) /\
  (forall A B, length A = 16 -> length B = 16 ->
     Val.det4 (map Num (product 4 A B))
     = (Val.det4 (map Num A) * Val.det4 (map Num B))%num).
Proof.
  split; [|split]; intros A B HA HB.
  - list_of_length A HA 4; list_of_length B HB 4.
    reals_compute. val_compute. f_equal. ring.
  - list_of_length A HA 9; list_of_length B HB 9.
    reals_compute. val_compute. f_equal. ring.
  - list_of_length A HA 16; list_of_length B HB 16.
    reals_compute. val_compute. f_equal. ring.
Qed.

(** X10.  The determinant is multiplicative along [mult]: for distinct
    matrices [a] and [b] of reals, [determinant()] of [a] after
    [a.mult(b)] is the product of the determinants of [a] and [b] before. *)
Theorem determinant_of_mult h2 a2 b2 A2 B2 h3 a3 b3 A3 B3 h4 a4 b4 A4 B4 :
  holds h2 a2 A2 -> holds h2 b2 B2 -> a2 <> b2 -> length A2 = 4 -> length B2 = 4 ->
  holds h3 a3 A3 -> holds h3 b3 B3 -> a3 <> b3 -> length A3 = 9 -> length B3 = 9 ->
  holds h4 a4 A4 -> holds h4 b4 B4 -> a4 <> b4 -> length A4 = 16 -> length B4 = 16 ->
  (exists h' da db d k1 k2 k3,
     Matrix2x2.determinant a2 h2 = Ok da k1 /\ Matrix2x2.determinant b2 h2 = Ok db k2
     /\ Matrix2x2.mult a2 b2 h2 = Ok tt h' /\ Matrix2x2.determinant a2 h' = Ok d k3
     /\ d = (da * db)%num)
  /\
  (exists h' da db d k1 k2 k3,
     Matrix3x3.determinant a3 h3 = Ok da k1 /\ Matrix3x3.determinant b3 h3 = Ok db k2
     /\ Matrix3x3.mult a3 b3 h3 = Ok tt h' /\ Matrix3x3.determinant a3 h' = Ok d k3
     /\ d = (da * db)%num)
  /\
  (exists h' da db d k1 k2 k3,
     Matrix4x4.determinant a4 h4 = Ok da k1 /\ Matrix4x4.determinant b4 h4 = Ok db k2
     /\ Matrix4x4.mult a4 b4 h4 = Ok tt h' /\ Matrix4x4.determinant a4 h' = Ok d k3
     /\ d = (da * db)%num).
Proof.
  intros Ha2 Hb2 N2 LA2 LB2 Ha3 Hb3 N3 LA3 LB3 Ha4 Hb4 N4 LA4 LB4.
  split; [|split].
  - destruct (mult_product 2 Matrix2x2.mult run_mult2 (proj1 mult_val_product)
                h2 a2 b2 A2 B2 Ha2 Hb2 N2 LA2 LB2) as (h' & E & Hl & _).
    exists h', (Val.det2 (map Num A2)), (Val.det2 (map Num B2)),
      (Val.det2 (map Num (product 2 A2 B2))), h2, h2, h'.
    split; [apply (run_det2 _ _ _ Ha2)|]. split; [apply (run_det2 _ _ _ Hb2)|].
    split; [exact E|]. split; [apply (run_det2 _ _ _ Hl)|].
    now apply (proj1 det_product_val).
  - destruct (mult_product 3 Matrix3x3.mult run_mult3 (proj1 (proj2 mult_val_product))
                h3 a3 b3 A3 B3 Ha3 Hb3 N3 LA3 LB3) as (h' & E & Hl & _).
    destruct (run_det3 _ _ _ Ha3) as (k1 & E1 & _).
    destruct (run_det3 _ _ _ Hb3) as (k2 & E2 & _).
    destruct (run_det3 _ _ _ Hl) as (k3 & E3 & _).
    exists h', (Val.det3 (map Num A3)), (Val.det3 (map Num B3)),
      (Val.det3 (map Num (product 3 A3 B3))), k1, k2, k3.
    repeat (split; [assumption|]). now apply (proj1 (proj2 det_product_val)).
  - destruct (mult_product 4 Matrix4x4.mult run_mult4 (proj2 (proj2 mult_val_product))
                h4 a4 b4 A4 B4 Ha4 Hb4 N4 LA4 LB4) as (h' & E & Hl & _).
    destruct (run_det4 _ _ _ Ha4) as (k1 & E1 & _).
    destruct (run_det4 _ _ _ Hb4) as (k2 & E2 & _).
    destruct (run_det4 _ _ _ Hl) as (k3 & E3 & _).
    exists h', (Val.det4 (map Num A4)), (Val.det4 (map Num B4)),
      (Val.det4 (map Num (product 4 A4 B4))), k1, k2, k3.
    repeat (split; [assumption|]). now apply (proj2 (proj2 det_product_val)).
Qed.

Lemma determinant_of_mult_witness :
  let A2 := [1; 2;  3; 4]%R in
  let B2 := [0; 1;  1; 0]%R in
  let A3 := [1; 2; 3;  4; 5; 6;  7; 8; 10]%R in
  let B3 := [0; 1; 0;  1; 0; 0;  0; 0; 1]%R in
  let A4 := [1; 2; 3; 4;  5; 6; 7; 8;  9; 10; 11; 12;  13; 14; 15; 17]%R in
  let B4 := [2; 0; 0; 0;  0; 2; 0; 0;  0; 0; 2; 0;  0; 0; 0; 2]%R in
  let h2 := [Arr (map Num A2); Arr (map Num B2)] in
  let h3 := [Arr (map Num A3); Arr (map Num B3)] in
  let h4 := [Arr (map Num A4); Arr (map Num B4)] in
  (holds h2 0 A2 /\ holds h2 1 B2 /\ holds h3 0 A3 /\ holds h3 1 B3
   /\ holds h4 0 A4 /\ holds h4 1 B4)
  /\ exists h' da db d k1 k2 k3,
       Matrix4x4.determinant 0 h4 = Ok da k1 /\ Matrix4x4.determinant 1 h4 = Ok db k2
       /\ Matrix4x4.mult 0 1 h4 = Ok tt h' /\ Matrix4x4.determinant 0 h' = Ok d k3
       /\ d = (da * db)%num.
Proof.
  intros A2 B2 A3 B3 A4 B4 h2 h3 h4.
  assert (N : 0 <> 1) by discriminate.
  split; [repeat split|].
  exact (proj2 (proj2 (determinant_of_mult h2 0 1 A2 B2 h3 0 1 A3 B3 h4 0 1 A4 B4
              eq_refl eq_refl N eq_refl eq_refl
              eq_refl eq_refl N eq_refl eq_refl
              eq_refl eq_refl N eq_refl eq_refl))).
Defined.

(** ** Inverses of the transforms of Matrix4x4 *)

Local Open Scope R_scope.

Lemma det4_transforms (tx ty tz sx sy sz a : R) :
  Val.det4 (map Num (translation4 tx ty tz)) = Num 1
  /\ Val.det4 (map Num (scaling4 sx sy sz)) = Num (sx * sy * sz)
  /\ Val.det4 (map Num (xRotation4 a)) = Num 1
  /\ Val.det4 (map Num (yRotation4 a)) = Num 1
  /\ Val.det4 (map Num (zRotation4 a)) = Num 1.
Proof.
  pose proof (sin2_cos2 a) as Hcs. unfold Rsqr in Hcs.
  repeat split; builders_compute; val_compute; f_equal; try ring;
    ring_simplify; nra.
Qed.

Ltac inverse_entries H1 tac :=
  builders_compute; val_compute;
  rewrite !(div_Num _ _ H1); nums_eq tac.

Lemma inverse4_translation tx ty tz :
  Val.inverse4 (map Num (translation4 tx ty tz))
  = map Num (translation4 (- tx) (- ty) (- tz)).
Proof.
  unfold Val.inverse4.
  rewrite (proj1 (det4_transforms tx ty tz 0 0 0 0)).
  inverse_entries R1_neq_R0 ltac:(field).
Qed.

Lemma inverse4_scaling sx sy sz :
  sx * sy * sz <> 0 ->
  Val.inverse4 (map Num (scaling4 sx sy sz)) = map Num (scaling4 (/ sx) (/ sy) (/ sz)).
Proof.
  intros H.
  assert (sx <> 0 /\ sy <> 0 /\ sz <> 0) as (Hx & Hy & Hz).
  { repeat split; intros E; apply H; rewrite E; ring. }
  unfold Val.inverse4.
  rewrite (proj1 (proj2 (det4_transforms 0 0 0 sx sy sz 0))).
  inverse_entries H ltac:(field; auto).
Qed.

Lemma inverse4_rotations a :
  Val.inverse4 (map Num (xRotation4 a)) = map Num (xRotation4 (- a))
  /\ Val.inverse4 (map Num (yRotation4 a)) = map Num (yRotation4 (- a))
  /\ Val.inverse4 (map Num (zRotation4 a)) = map Num (zRotation4 (- a)).
Proof.
  pose proof (sin2_cos2 a) as Hcs. unfold Rsqr in Hcs.
  destruct (det4_transforms 0 0 0 0 0 0 a) as (_ & _ & Hx & Hy & Hz).
  unfold Val.inverse4. rewrite Hx, Hy, Hz.
  repeat split;
    inverse_entries R1_neq_R0
      ltac:(rewrite ?cos_neg, ?sin_neg; unfold Rdiv; rewrite Rinv_1; ring_simplify; nra).
Qed.

Local Close Scope R_scope.

Lemma run_builder_inverse4 (builder : M ref) (T : list R) h :
  (forall k, builder k = Ok (length k) (k ++ [Arr (map Num T)])) ->
  Val.det4 (map Num T) <> Num 0%R ->
  exists inv h', (m <- builder ;; Matrix4x4.inverse m) h = Ok inv h'
                 /\ lookup h' inv = Some (Arr (Val.inverse4 (map Num T)))
                 /\ extends h h'.
Proof.
  intros Hb Hd. rewrite (bind_ok _ _ _ _ _ (Hb h)).
  destruct (run_inverse4_ok _ _ _ (lookup_app_new h (Arr (map Num T))) Hd)
    as (inv & h' & E & Hext & _ & Hl).
  exists inv, h'. split; [exact E|]. split; [exact Hl|].
  eapply extends_trans; [apply extends_app|exact Hext].
Qed.

Lemma Num_1_neq_0 : Num 1%R <> Num 0%R.
Proof. intros H. injection H. lra. Qed.

(** X11.  The inverse of a scaling: when none of the factors is 0,
    [Matrix4x4.fromScaling(sx, sy, sz).inverse()] returns the scaling by
    the reciprocals (1/sx, 1/sy, 1/sz); when a factor is 0, the determinant
    is 0 and [inverse()] throws. *)
Theorem scaling_inverse h (sx sy sz zx zy zz : R) :
  (sx * sy * sz <> 0)%R -> (zx * zy * zz = 0)%R ->
  (exists inv h',
     (m <- Matrix4x4.fromScaling (Num sx) (Num sy) (Num sz) ;; Matrix4x4.inverse m) h
     = Ok inv h'
     /\ holds h' inv (scaling4 (/ sx) (/ sy) (/ sz)))
  /\
  (exists h',
     (m <- Matrix4x4.fromScaling (Num zx) (Num zy) (Num zz) ;; Matrix4x4.inverse m) h
     = Thrown h').
Proof.
  intros Hs Hz. split.
  - destruct (run_builder_inverse4
                (Matrix4x4.fromScaling (Num sx) (Num sy) (Num sz)) (scaling4 sx sy sz) h)
      as (inv & h' & E & Hl & _).
    + intros k. reflexivity.
    + rewrite (proj1 (proj2 (det4_transforms 0 0 0 sx sy sz 0))).
      intros H. injection H. exact Hs.
    + exists inv, h'. split; [exact E|].
      unfold holds. now rewrite Hl, inverse4_scaling.
  - rewrite (bind_ok _ _ h (length h) (h ++ [Arr (map Num (scaling4 zx zy zz))]) eq_refl).
    destruct (run_inverse4_throw _ _ _
                (lookup_app_new h (Arr (map Num (scaling4 zx zy zz))))) as (h' & E & _).
    + rewrite (proj1 (proj2 (det4_transforms 0 0 0 zx zy zz 0))). now rewrite Hz.
    + now exists h'.
Qed.

Lemma scaling_inverse_witness :
  ((2 * 4 * 5 <> 0)%R /\ (2 * 0 * 5 = 0)%R)
  /\ (exists inv h',
        (m <- Matrix4x4.fromScaling (Num 2%R) (Num 4%R) (Num 5%R) ;; Matrix4x4.inverse m) []
        = Ok inv h'
        /\ holds h' inv (scaling4 (/ 2) (/ 4) (/ 5)))
  /\ (exists h',
        (m <- Matrix4x4.fromScaling (Num 2%R) (Num 0%R) (Num 5%R) ;; Matrix4x4.inverse m) []
        = Thrown h').
Proof.
  assert (H1 : (2 * 4 * 5 <> 0)%R) by lra.
  assert (H2 : (2 * 0 * 5 = 0)%R) by lra.
  split; [split; assumption|].
  exact (scaling_inverse [] 2 4 5 2 0 5 H1 H2).
Defined.

(** X12.  Translations and rotations are never singular, and their inverse
    is the opposite transform: [Matrix4x4.fromTranslation(tx, ty, tz).inverse()]
    returns the translation by (-tx, -ty, -tz), and the inverse of a
    rotation about the x, y or z axis returns the rotation by the opposite
    angle about that axis. *)
Theorem translation_rotation_inverse h (tx ty tz a : R) :
  (exists inv h',
     (m <- Matrix4x4.fromTranslation (Num tx) (Num ty) (Num tz) ;; Matrix4x4.inverse m) h
     = Ok inv h'
     /\ holds h' inv (translation4 (- tx) (- ty) (- tz)))
  /\ (exists inv h',
        (m <- Matrix4x4.fromXRotation (Num a) ;; Matrix4x4.inverse m) h = Ok inv h'
        /\ holds h' inv (xRotation4 (- a)))
  /\ (exists inv h',
        (m <- Matrix4x4.fromYRotation (Num a) ;; Matrix4x4.inverse m) h = Ok inv h'
        /\ holds h' inv (yRotation4 (- a)))
  /\ (exists inv h',
        (m <- Matrix4x4.fromZRotation (Num a) ;; Matrix4x4.inverse m) h = Ok inv h'
        /\ holds h' inv (zRotation4 (- a))).
Proof.
  destruct (det4_transforms tx ty tz 0 0 0 a) as (Dt & _ & Dx & Dy & Dz).
  destruct (inverse4_rotations a) as (Ix & Iy & Iz).
  split; [|split; [|split]].
  - destruct (run_builder_inverse4
                (Matrix4x4.fromTranslation (Num tx) (Num ty) (Num tz))
                (translation4 tx ty tz) h) as (inv & h' & E & Hl & _);
      [intros k; reflexivity|rewrite Dt; exact Num_1_neq_0|].
    exists inv, h'. split; [exact E|].
    unfold holds. now rewrite Hl, inverse4_translation.
  - destruct (run_builder_inverse4 (Matrix4x4.fromXRotation (Num a)) (xRotation4 a) h)
      as (inv & h' & E & Hl & _);
      [intros k; reflexivity|rewrite Dx; exact Num_1_neq_0|].
    exists inv, h'. split; [exact E|]. unfold holds. now rewrite Hl, Ix.
  - destruct (run_builder_inverse4 (Matrix4x4.fromYRotation (Num a)) (yRotation4 a) h)
      as (inv & h' & E & Hl & _);
      [intros k; reflexivity|rewrite Dy; exact Num_1_neq_0|].
    exists inv, h'. split; [exact E|]. unfold holds. now rewrite Hl, Iy.
  - destruct (run_builder_inverse4 (Matrix4x4.fromZRotation (Num a)) (zRotation4 a) h)
      as (inv & h' & E & Hl & _);
      [intros k; reflexivity|rewrite Dz; exact Num_1_neq_0|].
    exists inv, h'. split; [exact E|]. unfold holds. now rewrite Hl, Iz.
Qed.

(** ** Vector3 *)

Lemma run_sum h v1 v2 x1 y1 z1 x2 y2 z2 :
  lookup h v1 = Some (Vec x1 y1 z1) -> lookup h v2 = Some (Vec x2 y2 z2) ->
  Vector3.sum v1 v2 h = Ok (length h) (h ++ [Vec (x1 + x2) (y1 + y2) (z1 + z2)]).
Proof.
  intros H1 H2. unfold Vector3.sum.
  rewrite (bind_ok _ _ _ _ _ (run_get_x _ _ _ _ _ H1)), (bind_ok _ _ _ _ _ (run_get_x _ _ _ _ _ H2)).
  rewrite (bind_ok _ _ _ _ _ (run_get_y _ _ _ _ _ H1)), (bind_ok _ _ _ _ _ (run_get_y _ _ _ _ _ H2)).
  rewrite (bind_ok _ _ _ _ _ (run_get_z _ _ _ _ _ H1)), (bind_ok _ _ _ _ _ (run_get_z _ _ _ _ _ H2)).
  reflexivity.
Qed.

(** The argument of [sub(v)] and [add(v)] after a write to the receiver:
    the same object when the two are aliased, untouched otherwise. *)
Lemma lookup_arg_after_write h this v x1 y1 z1 x2 y2 z2 x' y' z' :
  lookup h this = Some (Vec x1 y1 z1) -> lookup h v = Some (Vec x2 y2 z2) ->
  lookup (upd h this (Vec x' y' z')) v
  = Some (if Nat.eqb this v then Vec x' y' z' else Vec x2 y2 z2).
Proof.
  intros H1 H2. destruct (Nat.eqb_spec this v) as [->|Hne].
  - apply lookup_upd_eq. eapply lookup_valid; eauto.
  - now rewrite lookup_upd_neq.
Qed.

Section InPlace.

Variable op : num -> num -> num.
Variable method : ref -> ref -> M unit.
Hypothesis method_eq : forall this v,
  method this v
  = (a <- Vector3.get_x this ;; b <- Vector3.get_x v ;; Vector3.set_x this (op a b) ;;
     a <- Vector3.get_y this ;; b <- Vector3.get_y v ;; Vector3.set_y this (op a b) ;;
     a <- Vector3.get_z this ;; b <- Vector3.get_z v ;; Vector3.set_z this (op a b)).

(** Each component of the argument is read before the receiver's component
    of the same name is written, so also an aliased argument contributes
    its components of before the call. *)
Lemma run_in_place h this v x1 y1 z1 x2 y2 z2 :
  lookup h this = Some (Vec x1 y1 z1) -> lookup h v = Some (Vec x2 y2 z2) ->
  method this v h = Ok tt (upd h this (Vec (op x1 x2) (op y1 y2) (op z1 z2))).
Proof.
  intros H1 H2. pose proof (lookup_valid _ _ _ H1) as Hlt. rewrite method_eq.
  assert (Hy2 : forall x', exists x'',
             lookup (upd h this (Vec x' y1 z1)) v = Some (Vec x'' y2 z2)).
  { intros x'. rewrite (lookup_arg_after_write _ _ _ _ _ _ _ _ _ x' y1 z1 H1 H2).
    destruct (Nat.eqb_spec this v) as [->|_]; [|now eexists].
    rewrite H1 in H2. injection H2 as _ -> ->. now eexists. }
  assert (Hz2 : forall x' y', exists x'' y'',
             lookup (upd h this (Vec x' y' z1)) v = Some (Vec x'' y'' z2)).
  { intros x' y'. rewrite (lookup_arg_after_write _ _ _ _ _ _ _ _ _ x' y' z1 H1 H2).
    destruct (Nat.eqb_spec this v) as [->|_]; [|now do 2 eexists].
    rewrite H1 in H2. injection H2 as _ _ ->. now do 2 eexists. }
  rewrite (bind_ok _ _ _ _ _ (run_get_x _ _ _ _ _ H1)).
  rewrite (bind_ok _ _ _ _ _ (run_get_x _ _ _ _ _ H2)).
  rewrite (bind_ok _ _ _ _ _ (run_set_x _ _ _ _ _ (op x1 x2) H1)).
  assert (E1 : lookup (upd h this (Vec (op x1 x2) y1 z1)) this = Some (Vec (op x1 x2) y1 z1))
    by (now apply lookup_upd_eq).
  destruct (Hy2 (op x1 x2)) as (x'' & E2).
  rewrite (bind_ok _ _ _ _ _ (run_get_y _ _ _ _ _ E1)).
  rewrite (bind_ok _ _ _ _ _ (run_get_y _ _ _ _ _ E2)).
  rewrite (bind_ok _ _ _ _ _ (run_set_y _ _ _ _ _ (op y1 y2) E1)).
  rewrite upd_upd.
  assert (E3 : lookup (upd h this (Vec (op x1 x2) (op y1 y2) z1)) this
               = Some (Vec (op x1 x2) (op y1 y2) z1))
    by (now apply lookup_upd_eq).
  destruct (Hz2 (op x1 x2) (op y1 y2)) as (x3 & y3 & E4).
  rewrite (bind_ok _ _ _ _ _ (run_get_z _ _ _ _ _ E3)).
  rewrite (bind_ok _ _ _ _ _ (run_get_z _ _ _ _ _ E4)).
  rewrite (run_set_z _ _ _ _ _ (op z1 z2) E3).
  now rewrite upd_upd.
Qed.

End InPlace.

Lemma run_sub h this v x1 y1 z1 x2 y2 z2 :
  lookup h this = Some (Vec x1 y1 z1) -> lookup h v = Some (Vec x2 y2 z2) ->
  Vector3.sub this v h = Ok tt (upd h this (Vec (x1 - x2) (y1 - y2) (z1 - z2))).
Proof. apply (run_in_place JsNum.sub Vector3.sub). reflexivity. Qed.

Lemma run_add h this v x1 y1 z1 x2 y2 z2 :
  lookup h this = Some (Vec x1 y1 z1) -> lookup h v = Some (Vec x2 y2 z2) ->
  Vector3.add this v h = Ok tt (upd h this (Vec (x1 + x2) (y1 + y2) (z1 + z2))).
Proof. apply (run_in_place JsNum.add Vector3.add). reflexivity. Qed.

Lemma run_entries h v x y z :
  lookup h v = Some (Vec x y z) ->
  Vector3.entries v h = Ok (length h) (h ++ [Arr [x; y; z]]).
Proof.
  intros H. unfold Vector3.entries.
  rewrite (bind_ok _ _ _ _ _ (run_get_x _ _ _ _ _ H)).
  rewrite (bind_ok _ _ _ _ _ (run_get_y _ _ _ _ _ H)).
  rewrite (bind_ok _ _ _ _ _ (run_get_z _ _ _ _ _ H)).
  reflexivity.
Qed.

Lemma run_fromArray h a es :
  lookup h a = Some (Arr es) ->
  Vector3.fromArray a h
  = Ok (length h) (h ++ [Vec (nth 0 es (Num 0%R)) (nth 1 es (Num 0%R)) (nth 2 es (Num 0%R))]).
Proof.
  intros H.
  assert (E : forall i, Vector3.arg_or_zero a i h = Ok (nth i es (Num 0%R)) h).
  { intros i. unfold Vector3.arg_or_zero, bind, read_arr. now rewrite H. }
  unfold Vector3.fromArray.
  now rewrite (bind_ok _ _ _ _ _ (E 0)), (bind_ok _ _ _ _ _ (E 1)), (bind_ok _ _ _ _ _ (E 2)).
Qed.

Local Open Scope R_scope.

(** X13.  [add(v)] and [sub(v)] change the receiver in place and nothing
    else.  Over the reals (exact arithmetic, no rounding), with two
    different vectors [a.add(b)] followed by [a.sub(b)] gives [a] its
    components back and leaves the heap as it was.  When the argument is
    the receiver itself, [v.add(v)]
    doubles each component and [v.sub(v)] sets each component to 0, so
    [v.add(v); v.sub(v)] leaves the zero vector, not [v]. *)
Theorem add_sub_in_place h a b x1 y1 z1 x2 y2 z2 :
  lookup h a = Some (Vec (Num x1) (Num y1) (Num z1)) ->
  lookup h b = Some (Vec (Num x2) (Num y2) (Num z2)) ->
  a <> b ->
  Vector3.add a b h = Ok tt (upd h a (Vec (Num (x1 + x2)) (Num (y1 + y2)) (Num (z1 + z2))))
  /\ Vector3.sub a b h = Ok tt (upd h a (Vec (Num (x1 - x2)) (Num (y1 - y2)) (Num (z1 - z2))))
  /\ (Vector3.add a b ;; Vector3.sub a b) h = Ok tt h
  /\ Vector3.add a a h = Ok tt (upd h a (Vec (Num (2 * x1)) (Num (2 * y1)) (Num (2 * z1))))
  /\ Vector3.sub a a h = Ok tt (upd h a (Vec (Num 0) (Num 0) (Num 0)))
  /\ (Vector3.add a a ;; Vector3.sub a a) h = Ok tt (upd h a (Vec (Num 0) (Num 0) (Num 0))).
Proof.
  intros Ha Hb Hne. pose proof (lookup_valid _ _ _ Ha) as Hlt.
  assert (Eadd := run_add _ _ _ _ _ _ _ _ _ Ha Hb).
  assert (Eaa := run_add _ _ _ _ _ _ _ _ _ Ha Ha).
  cbn [JsNum.add JsNum.lift2] in Eadd, Eaa.
  assert (Ha' : forall h0 x y z, length h0 = length h ->
            lookup (upd h0 a (Vec x y z)) a = Some (Vec x y z)).
  { intros h0 x y z E. apply lookup_upd_eq. now rewrite E. }
  split; [exact Eadd|]. split; [exact (run_sub _ _ _ _ _ _ _ _ _ Ha Hb)|].
  split; [|split; [|split]].
  - rewrite (bind_ok _ _ _ _ _ Eadd).
    assert (Hb' : lookup (upd h a (Vec (Num (x1 + x2)) (Num (y1 + y2)) (Num (z1 + z2)))) b
                  = Some (Vec (Num x2) (Num y2) (Num z2))).
    { now rewrite lookup_upd_neq. }
    rewrite (run_sub _ _ _ _ _ _ _ _ _ (Ha' h _ _ _ eq_refl) Hb').
    cbn [JsNum.sub JsNum.lift2]. rewrite upd_upd.
    replace (x1 + x2 - x2) with x1 by ring.
    replace (y1 + y2 - y2) with y1 by ring.
    replace (z1 + z2 - z2) with z1 by ring.
    now rewrite (upd_same _ _ _ Ha).
  - rewrite Eaa. do 3 f_equal; f_equal; ring.
  - rewrite (run_sub _ _ _ _ _ _ _ _ _ Ha Ha). cbn [JsNum.sub JsNum.lift2].
    do 3 f_equal; f_equal; ring.
  - rewrite (bind_ok _ _ _ _ _ Eaa).
    rewrite (run_sub _ _ _ _ _ _ _ _ _ (Ha' h _ _ _ eq_refl) (Ha' h _ _ _ eq_refl)).
    cbn [JsNum.sub JsNum.lift2]. rewrite upd_upd.
    do 3 f_equal; f_equal; ring.
Qed.

Lemma add_sub_in_place_witness :
  let h := [Vec (Num 1) (Num 2) (Num 3); Vec (Num 4) (Num 5) (Num 6)] in
  (Vector3.add 0%nat 1%nat ;; Vector3.sub 0%nat 1%nat) h = Ok tt h
  /\ (Vector3.add 0%nat 0%nat ;; Vector3.sub 0%nat 0%nat) h
     = Ok tt (upd h 0%nat (Vec (Num 0) (Num 0) (Num 0))).
Proof.
  intros h.
  assert (Hne : 0%nat <> 1%nat) by discriminate.
  destruct (add_sub_in_place h 0%nat 1%nat 1 2 3 4 5 6 eq_refl eq_refl Hne)
    as (_ & _ & H1 & _ & _ & H2).
  split; [exact H1|exact H2].
Defined.

(** X14.  [Vector3.sum] and [Vector3.subtract] return a new vector and
    leave their arguments alone, also when both arguments are the same
    object; with real components, subtracting [b] from the sum of [a] and
    [b] gives a new vector with the components of [a]. *)
Theorem sum_then_subtract h a b x1 y1 z1 x2 y2 z2 :
  lookup h a = Some (Vec (Num x1) (Num y1) (Num z1)) ->
  lookup h b = Some (Vec (Num x2) (Num y2) (Num z2)) ->
  Vector3.sum a b h
  = Ok (length h) (h ++ [Vec (Num (x1 + x2)) (Num (y1 + y2)) (Num (z1 + z2))])
  /\ Vector3.subtract a b h
     = Ok (length h) (h ++ [Vec (Num (x1 - x2)) (Num (y1 - y2)) (Num (z1 - z2))])
  /\ (s <- Vector3.sum a b ;; Vector3.subtract s b) h
     = Ok (S (length h))
          (h ++ [Vec (Num (x1 + x2)) (Num (y1 + y2)) (Num (z1 + z2));
                 Vec (Num x1) (Num y1) (Num z1)]).
Proof.
  intros Ha Hb.
  assert (Es := run_sum _ _ _ _ _ _ _ _ _ Ha Hb). cbn [JsNum.add JsNum.lift2] in Es.
  split; [exact Es|]. split; [exact (run_subtract _ _ _ _ _ _ _ _ _ Ha Hb)|].
  rewrite (bind_ok _ _ _ _ _ Es).
  rewrite (run_subtract _ _ _ _ _ _ _ _ _ (lookup_app_new h _)
             (extends_lookup _ _ _ _ (extends_app h _) Hb)).
  cbn [JsNum.sub JsNum.lift2]. rewrite length_app, <- app_assoc. cbn [length app].
  replace (x1 + x2 - x2) with x1 by ring.
  replace (y1 + y2 - y2) with y1 by ring.
  replace (z1 + z2 - z2) with z1 by ring.
  f_equal. lia.
Qed.

Lemma sum_then_subtract_witness :
  let h := [Vec (Num 1) (Num 2) (Num 3)] in
  (s <- Vector3.sum 0%nat 0%nat ;; Vector3.subtract s 0%nat) h
  = Ok 2%nat (h ++ [Vec (Num (1 + 1)) (Num (2 + 2)) (Num (3 + 3));
                    Vec (Num 1) (Num 2) (Num 3)]).
Proof.
  intros h.
  exact (proj2 (proj2 (sum_then_subtract h 0%nat 0%nat 1 2 3 1 2 3 eq_refl eq_refl))).
Defined.

(** X15.  [entries()] returns a new three-element array of the components
    and [Vector3.fromArray] reads the first three elements of an array of
    numbers, so [Vector3.fromArray(v.entries())] is a new vector with the
    components of [v], and [v] is unchanged.  Elements that a shorter array
    does not have are replaced by the constructor's default 0, and elements
    after the third are ignored. *)
Theorem fromArray_entries h v x y z a rs :
  lookup h v = Some (Vec (Num x) (Num y) (Num z)) ->
  lookup h a = Some (Arr (map Num rs)) ->
  (e <- Vector3.entries v ;; Vector3.fromArray e) h
  = Ok (S (length h)) (h ++ [Arr [Num x; Num y; Num z]; Vec (Num x) (Num y) (Num z)])
  /\ Vector3.fromArray a h
     = Ok (length h) (h ++ [Vec (Num (nth 0 rs 0)) (Num (nth 1 rs 0)) (Num (nth 2 rs 0))]).
Proof.
  intros Hv Ha. split.
  - rewrite (bind_ok _ _ _ _ _ (run_entries _ _ _ _ _ Hv)).
    rewrite (run_fromArray _ _ _ (lookup_app_new h _)).
    rewrite length_app, <- app_assoc. cbn [length app nth]. f_equal. lia.
  - rewrite (run_fromArray _ _ _ Ha).
    now rewrite !(map_nth Num rs 0).
Qed.

Lemma fromArray_entries_witness :
  let h := [Vec (Num 1) (Num 2) (Num 3); Arr (map Num [7])] in
  (e <- Vector3.entries 0%nat ;; Vector3.fromArray e) h
  = Ok 3%nat (h ++ [Arr [Num 1; Num 2; Num 3]; Vec (Num 1) (Num 2) (Num 3)])
  /\ Vector3.fromArray 1%nat h = Ok 2%nat (h ++ [Vec (Num 7) (Num 0) (Num 0)]).
Proof.
  intros h. exact (fromArray_entries h 0%nat 1 2 3 1%nat [7] eq_refl eq_refl).
Defined.

(** X16.  [normalize()] is idempotent on a vector of real components: a
    second call leaves the heap the first call produced. *)
Theorem normalize_twice h v x y z :
  lookup h v = Some (Vec (Num x) (Num y) (Num z)) ->
  exists h', Vector3.normalize v h = Ok v h'
             /\ Vector3.normalize v h' = Ok v h'.
Proof.
  intros Hv. pose proof (lookup_valid _ _ _ Hv) as Hlt.
  pose proof epsilon_pos as Heps.
  pose proof (run_normalize _ _ _ _ _ Hv) as E. cbv zeta in E.
  rewrite length_val in E.
  set (len := sqrt (x ^ 2 + y ^ 2 + z ^ 2)) in *.
  unfold JsNum.gt, JsNum.EPSILON in E.
  destruct (Rlt_dec (/ 2 ^ 52) len) as [Hgt|Hle].
  - rewrite !div_Num in E by lra.
    eexists. split; [exact E|].
    assert (Hv' : lookup (upd h v (Vec (Num (x / len)) (Num (y / len)) (Num (z / len)))) v
                  = Some (Vec (Num (x / len)) (Num (y / len)) (Num (z / len))))
      by (now apply lookup_upd_eq).
    rewrite (run_normalize _ _ _ _ _ Hv'), length_val.
    assert (Hu : sqrt ((x / len) ^ 2 + (y / len) ^ 2 + (z / len) ^ 2) = 1)
      by (apply unit_length; fold len; lra).
    rewrite Hu.
    unfold JsNum.gt, JsNum.EPSILON.
    destruct (Rlt_dec (/ 2 ^ 52) 1) as [_|Hn].
    + rewrite !div_Num by lra. rewrite upd_upd.
      replace (x / len / 1) with (x / len) by (field; lra).
      replace (y / len / 1) with (y / len) by (field; lra).
      replace (z / len / 1) with (z / len) by (field; lra).
      reflexivity.
    + exfalso. apply Hn.
      assert (H52 : 1 < 2 ^ 52) by (apply Rlt_pow_R1; [lra|lia]).
      rewrite <- Rinv_1. apply Rinv_lt_contravar; lra.
  - eexists. split; [exact E|].
    assert (Hv' : lookup (upd h v (Vec (Num 0) (Num 0) (Num 0))) v
                  = Some (Vec (Num 0) (Num 0) (Num 0)))
      by (now apply lookup_upd_eq).
    rewrite (run_normalize _ _ _ _ _ Hv'), length_val.
    replace (0 ^ 2 + 0 ^ 2 + 0 ^ 2) with 0 by ring. rewrite sqrt_0.
    unfold JsNum.gt, JsNum.EPSILON.
    destruct (Rlt_dec (/ 2 ^ 52) 0) as [Hn|_]; [exfalso; lra|].
    now rewrite upd_upd.
Qed.

Lemma normalize_twice_witness :
  let h := [Vec (Num 3) (Num 0) (Num 4)] in
  exists h', Vector3.normalize 0%nat h = Ok 0%nat h'
             /\ Vector3.normalize 0%nat h' = Ok 0%nat h'.
Proof.
  intros h. exact (normalize_twice h 0%nat 3 0 4 eq_refl).
Defined.

Local Close Scope R_scope.

(** ** [lookAt] *)

Lemma run_normalize_val h x y z a b c :
  Val.normalized x y z = (a, b, c) ->
  Vector3.normalize (length h) (h ++ [Vec x y z]) = Ok (length h) (h ++ [Vec a b c]).
Proof.
  intros E. rewrite (run_normalize _ _ _ _ _ (lookup_app_new h (Vec x y z))).
  cbv zeta. rewrite upd_app_new. unfold Val.normalized in E.
  destruct (JsNum.gt _ _); injection E as <- <- <-; reflexivity.
Qed.

(** The three vectors and the matrix [lookAt] allocates, in this order. *)
Lemma run_lookAt_axes h origin target u ox oy oz tx ty tz ux uy uz
      zx zy zz xx xy xz yx yy yz :
  lookup h origin = Some (Vec ox oy oz) ->
  lookup h target = Some (Vec tx ty tz) ->
  lookup h u = Some (Vec ux uy uz) ->
  Val.normalized (ox - tx) (oy - ty) (oz - tz) = (zx, zy, zz) ->
  Val.normalized (uy * zz - uz * zy) (uz * zx - ux * zz) (ux * zy - uy * zx) = (xx, xy, xz) ->
  Val.normalized (zy * xz - zz * xy) (zz * xx - zx * xz) (zx * xy - zy * xx) = (yx, yy, yz) ->
  Matrix4x4.lookAt origin target (Some u) h
  = Ok (3 + length h)
       (h ++ [Vec zx zy zz; Vec xx xy xz; Vec yx yy yz;
              Arr [xx; xy; xz; Num 0%R;  yx; yy; yz; Num 0%R;
                   zx; zy; zz; Num 0%R;  ox; oy; oz; Num 1%R]]).
Proof.
  intros Ho Ht Hu Nz Nx Ny.
  unfold Matrix4x4.lookAt.
  rewrite (bind_ok _ _ h u h eq_refl).
  rewrite (bind_ok _ _ _ _ _ (run_subtract _ _ _ _ _ _ _ _ _ Ho Ht)).
  rewrite (bind_ok _ _ _ _ _ (run_normalize_val h _ _ _ _ _ _ Nz)).
  set (h1 := h ++ [Vec zx zy zz]).
  assert (Hext1 : extends h h1) by apply extends_app.
  assert (Hz1 : lookup h1 (length h) = Some (Vec zx zy zz)) by apply lookup_app_new.
  pose proof (extends_lookup _ _ _ _ Hext1 Hu) as Hu1.
  rewrite (bind_ok _ _ _ _ _ (run_cross _ _ _ _ _ _ _ _ _ Hu1 Hz1)).
  rewrite (bind_ok _ _ _ _ _ (run_normalize_val h1 _ _ _ _ _ _ Nx)).
  set (h2 := h1 ++ [Vec xx xy xz]).
  assert (Hext2 : extends h1 h2) by apply extends_app.
  assert (Hx2 : lookup h2 (length h1) = Some (Vec xx xy xz)) by apply lookup_app_new.
  pose proof (extends_lookup _ _ _ _ Hext2 Hz1) as Hz2.
  rewrite (bind_ok _ _ _ _ _ (run_cross _ _ _ _ _ _ _ _ _ Hz2 Hx2)).
  rewrite (bind_ok _ _ _ _ _ (run_normalize_val h2 _ _ _ _ _ _ Ny)).
  set (h3 := h2 ++ [Vec yx yy yz]).
  assert (Hext3 : extends h2 h3) by apply extends_app.
  assert (Hy3 : lookup h3 (length h2) = Some (Vec yx yy yz)) by apply lookup_app_new.
  pose proof (extends_lookup _ _ _ _ Hext3 Hx2) as Hx3.
  pose proof (extends_lookup _ _ _ _ Hext3 Hz2) as Hz3.
  assert (Hext : extends h h3) by (repeat (eapply extends_trans; eauto)).
  pose proof (extends_lookup _ _ _ _ Hext Ho) as Ho3.
  rewrite (bind_ok _ _ _ _ _ (run_get_x _ _ _ _ _ Hx3)), (bind_ok _ _ _ _ _ (run_get_y _ _ _ _ _ Hx3)),
          (bind_ok _ _ _ _ _ (run_get_z _ _ _ _ _ Hx3)).
  rewrite (bind_ok _ _ _ _ _ (run_get_x _ _ _ _ _ Hy3)), (bind_ok _ _ _ _ _ (run_get_y _ _ _ _ _ Hy3)),
          (bind_ok _ _ _ _ _ (run_get_z _ _ _ _ _ Hy3)).
  rewrite (bind_ok _ _ _ _ _ (run_get_x _ _ _ _ _ Hz3)), (bind_ok _ _ _ _ _ (run_get_y _ _ _ _ _ Hz3)),
          (bind_ok _ _ _ _ _ (run_get_z _ _ _ _ _ Hz3)).
  rewrite (bind_ok _ _ _ _ _ (run_get_x _ _ _ _ _ Ho3)), (bind_ok _ _ _ _ _ (run_get_y _ _ _ _ _ Ho3)),
          (bind_ok _ _ _ _ _ (run_get_z _ _ _ _ _ Ho3)).
  unfold array_lit, Matrix4x4.new.
  rewrite (bind_ok _ _ h3 (length h3) (h3 ++ [Arr [xx; xy; xz; Num 0%R;  yx; yy; yz; Num 0%R;
                   zx; zy; zz; Num 0%R;  ox; oy; oz; Num 1%R]]) eq_refl).
  unfold ret, h3, h2, h1. rewrite !length_app, <- !app_assoc. cbn [length app].
  f_equal. lia.
Qed.

Local Open Scope R_scope.

Lemma normalized_long x y z :
  let len := sqrt (x ^ 2 + y ^ 2 + z ^ 2) in
  / 2 ^ 52 < len ->
  Val.normalized (Num x) (Num y) (Num z) = (Num (x / len), Num (y / len), Num (z / len)).
Proof.
  intros len Hlen. pose proof epsilon_pos. unfold Val.normalized. rewrite length_val. fold len.
  unfold JsNum.gt, JsNum.EPSILON.
  destruct (Rlt_dec (/ 2 ^ 52) len) as [_|Hn]; [|contradiction].
  now rewrite !div_Num by lra.
Qed.

Lemma normalized_short x y z :
  sqrt (x ^ 2 + y ^ 2 + z ^ 2) <= / 2 ^ 52 ->
  Val.normalized (Num x) (Num y) (Num z) = (Num 0, Num 0, Num 0).
Proof.
  intros Hlen. unfold Val.normalized. rewrite length_val.
  unfold JsNum.gt, JsNum.EPSILON.
  destruct (Rlt_dec (/ 2 ^ 52) _) as [Hn|_]; [exfalso; lra|reflexivity].
Qed.

Lemma normalized_zero x y z :
  x = 0 -> y = 0 -> z = 0 -> Val.normalized (Num x) (Num y) (Num z) = (Num 0, Num 0, Num 0).
Proof.
  intros -> -> ->. apply normalized_short.
  replace (0 ^ 2 + 0 ^ 2 + 0 ^ 2) with 0 by ring. rewrite sqrt_0.
  pose proof epsilon_pos. lra.
Qed.

Lemma unit_squares x y z :
  let len := sqrt (x ^ 2 + y ^ 2 + z ^ 2) in
  0 < len ->
  (x / len) * (x / len) + (y / len) * (y / len) + (z / len) * (z / len) = 1.
Proof.
  intros len Hlen.
  assert (Hs : 0 <= x ^ 2 + y ^ 2 + z ^ 2).
  { pose proof (pow2_ge_0 x). pose proof (pow2_ge_0 y). pose proof (pow2_ge_0 z). lra. }
  assert (Hsq : len ^ 2 = x ^ 2 + y ^ 2 + z ^ 2) by (unfold len; now apply pow2_sqrt).
  replace ((x / len) * (x / len) + (y / len) * (y / len) + (z / len) * (z / len))
    with ((x ^ 2 + y ^ 2 + z ^ 2) / len ^ 2) by (field; lra).
  rewrite <- Hsq. field. lra.
Qed.

(** X17.  When [origin] and [target] have the same real components (or are
    the same object) there is no viewing direction: [lookAt] still returns
    a matrix, all three axis rows of which are zero and the last row of
    which is the origin, and [inverse()] of that matrix throws. *)
Theorem lookAt_same_point h origin target u ox oy oz ux uy uz :
  lookup h origin = Some (Vec (Num ox) (Num oy) (Num oz)) ->
  lookup h target = Some (Vec (Num ox) (Num oy) (Num oz)) ->
  lookup h u = Some (Vec (Num ux) (Num uy) (Num uz)) ->
  exists m h',
    Matrix4x4.lookAt origin target (Some u) h = Ok m h'
    /\ holds h' m [0; 0; 0; 0;  0; 0; 0; 0;  0; 0; 0; 0;  ox; oy; oz; 1]
    /\ exists h'', Matrix4x4.inverse m h' = Thrown h''.
Proof.
  intros Ho Ht Hu.
  assert (Nz : Val.normalized (Num ox - Num ox) (Num oy - Num oy) (Num oz - Num oz)
               = (Num 0, Num 0, Num 0)).
  { cbn [JsNum.sub JsNum.lift2]. apply normalized_zero; ring. }
  assert (Nx : Val.normalized (Num uy * Num 0 - Num uz * Num 0)
                 (Num uz * Num 0 - Num ux * Num 0) (Num ux * Num 0 - Num uy * Num 0)
               = (Num 0, Num 0, Num 0)).
  { cbn [JsNum.sub JsNum.mul JsNum.lift2]. apply normalized_zero; ring. }
  assert (Ny : Val.normalized (Num 0 * Num 0 - Num 0 * Num 0)
                 (Num 0 * Num 0 - Num 0 * Num 0) (Num 0 * Num 0 - Num 0 * Num 0)
               = (Num 0, Num 0, Num 0)).
  { cbn [JsNum.sub JsNum.mul JsNum.lift2]. apply normalized_zero; ring. }
  pose proof (run_lookAt_axes _ _ _ _ _ _ _ _ _ _ _ _ _ _ _ _ _ _ _ _ _ _
                Ho Ht Hu Nz Nx Ny) as E.
  eexists _, _. split; [exact E|].
  match type of E with _ = Ok ?m (?k ++ [?a; ?b; ?c; ?d]) =>
    assert (Hm : lookup (k ++ [a; b; c; d]) m = Some d)
  end.
  { replace (h ++ _) with ((h ++ [Vec (Num 0) (Num 0) (Num 0); Vec (Num 0) (Num 0) (Num 0);
                                  Vec (Num 0) (Num 0) (Num 0)]) ++
                           [Arr [Num 0; Num 0; Num 0; Num 0; Num 0; Num 0; Num 0; Num 0;
                                 Num 0; Num 0; Num 0; Num 0; Num ox; Num oy; Num oz; Num 1]])
      by (now rewrite <- app_assoc).
    replace (3 + length h)%nat
      with (length (h ++ [Vec (Num 0) (Num 0) (Num 0); Vec (Num 0) (Num 0) (Num 0);
                          Vec (Num 0) (Num 0) (Num 0)]))
      by (rewrite length_app; cbn [length]; lia).
    apply lookup_app_new. }
  split; [exact Hm|].
  destruct (run_inverse4_throw _ _ _ Hm) as (h'' & E' & _).
  - val_compute. f_equal. ring.
  - now exists h''.
Qed.

Lemma lookAt_same_point_witness :
  let h := [Vec (Num 1) (Num 2) (Num 3); Vec (Num 0) (Num 1) (Num 0)] in
  exists m h',
    Matrix4x4.lookAt 0%nat 0%nat (Some 1%nat) h = Ok m h'
    /\ holds h' m [0; 0; 0; 0;  0; 0; 0; 0;  0; 0; 0; 0;  1; 2; 3; 1]
    /\ exists h'', Matrix4x4.inverse m h' = Thrown h''.
Proof.
  intros h. exact (lookAt_same_point h 0%nat 0%nat 1%nat 1 2 3 0 1 0 eq_refl eq_refl eq_refl).
Defined.

(** X18.  A camera with a viewing direction and an [up] vector that is not
    parallel to it: when the distance from [target] to [origin] and the
    length of the cross product of [up] with the unit viewing axis are both
    above [Number.EPSILON], the three axis rows of the matrix [lookAt]
    returns are unit vectors, orthogonal to each other, the third row is
    the normalised difference [origin - target], the last row is the
    origin, and [inverse()] of the matrix does not throw. *)
Theorem lookAt_orthonormal h origin target u ox oy oz tx ty tz ux uy uz :
  lookup h origin = Some (Vec (Num ox) (Num oy) (Num oz)) ->
  lookup h target = Some (Vec (Num tx) (Num ty) (Num tz)) ->
  lookup h u = Some (Vec (Num ux) (Num uy) (Num uz)) ->
  let len := sqrt ((ox - tx) ^ 2 + (oy - ty) ^ 2 + (oz - tz) ^ 2) in
  let zx := (ox - tx) / len in
  let zy := (oy - ty) / len in
  let zz := (oz - tz) / len in
  / 2 ^ 52 < len ->
  / 2 ^ 52 < sqrt ((uy * zz - uz * zy) ^ 2 + (uz * zx - ux * zz) ^ 2 + (ux * zy - uy * zx) ^ 2) ->
  exists m h' xx xy xz yx yy yz,
    Matrix4x4.lookAt origin target (Some u) h = Ok m h'
    /\ holds h' m [xx; xy; xz; 0;  yx; yy; yz; 0;  zx; zy; zz; 0;  ox; oy; oz; 1]
    /\ (xx * xx + xy * xy + xz * xz = 1
        /\ yx * yx + yy * yy + yz * yz = 1
        /\ zx * zx + zy * zy + zz * zz = 1)
    /\ (xx * yx + xy * yy + xz * yz = 0
        /\ xx * zx + xy * zy + xz * zz = 0
        /\ yx * zx + yy * zy + yz * zz = 0)
    /\ exists inv h'', Matrix4x4.inverse m h' = Ok inv h''.
Proof.
  intros Ho Ht Hu len zx zy zz Hlen Hc.
  pose proof epsilon_pos as Heps.
  set (cx := uy * zz - uz * zy) in *.
  set (cy := uz * zx - ux * zz) in *.
  set (cz := ux * zy - uy * zx) in *.
  set (lc := sqrt (cx ^ 2 + cy ^ 2 + cz ^ 2)) in *.
  set (xx := cx / lc). set (xy := cy / lc). set (xz := cz / lc).
  set (yx := zy * xz - zz * xy). set (yy := zz * xx - zx * xz). set (yz := zx * xy - zy * xx).
  assert (Uz : zx * zx + zy * zy + zz * zz = 1).
  { apply (unit_squares (ox - tx) (oy - ty) (oz - tz)). fold len. lra. }
  assert (Ux : xx * xx + xy * xy + xz * xz = 1).
  { apply (unit_squares cx cy cz). fold lc. lra. }
  assert (Oxz : xx * zx + xy * zy + xz * zz = 0).
  { unfold xx, xy, xz.
    replace (cx / lc * zx + cy / lc * zy + cz / lc * zz)
      with ((cx * zx + cy * zy + cz * zz) / lc) by (field; lra).
    replace (cx * zx + cy * zy + cz * zz) with 0 by (unfold cx, cy, cz; ring).
    field. lra. }
  assert (Uy : yx * yx + yy * yy + yz * yz = 1).
  { replace (yx * yx + yy * yy + yz * yz)
      with ((zx * zx + zy * zy + zz * zz) * (xx * xx + xy * xy + xz * xz)
            - (xx * zx + xy * zy + xz * zz) ^ 2) by (unfold yx, yy, yz; ring).
    rewrite Uz, Ux, Oxz. ring. }
  assert (Oxy : xx * yx + xy * yy + xz * yz = 0) by (unfold yx, yy, yz; ring).
  assert (Oyz : yx * zx + yy * zy + yz * zz = 0) by (unfold yx, yy, yz; ring).
  assert (Ly : sqrt (yx ^ 2 + yy ^ 2 + yz ^ 2) = 1).
  { replace (yx ^ 2 + yy ^ 2 + yz ^ 2) with 1 by (rewrite <- Uy; ring). apply sqrt_1. }
  assert (Nz : Val.normalized (Num ox - Num tx) (Num oy - Num ty) (Num oz - Num tz)
               = (Num zx, Num zy, Num zz)).
  { cbn [JsNum.sub JsNum.lift2]. now apply normalized_long. }
  assert (Nx : Val.normalized (Num uy * Num zz - Num uz * Num zy)
                 (Num uz * Num zx - Num ux * Num zz) (Num ux * Num zy - Num uy * Num zx)
               = (Num xx, Num xy, Num xz)).
  { cbn [JsNum.sub JsNum.mul JsNum.lift2]. now apply normalized_long. }
  assert (Ny : Val.normalized (Num zy * Num xz - Num zz * Num xy)
                 (Num zz * Num xx - Num zx * Num xz) (Num zx * Num xy - Num zy * Num xx)
               = (Num yx, Num yy, Num yz)).
  { cbn [JsNum.sub JsNum.mul JsNum.lift2]. fold yx yy yz.
    assert (H1 : / 2 ^ 52 < 1).
    { assert (H52 : 1 < 2 ^ 52) by (apply Rlt_pow_R1; [lra|lia]).
      rewrite <- Rinv_1. apply Rinv_lt_contravar; lra. }
    rewrite normalized_long by (rewrite Ly; exact H1). rewrite Ly.
    replace (yx / 1) with yx by field.
    replace (yy / 1) with yy by field.
    replace (yz / 1) with yz by field.
    reflexivity. }
  pose proof (run_lookAt_axes _ _ _ _ _ _ _ _ _ _ _ _ _ _ _ _ _ _ _ _ _ _
                Ho Ht Hu Nz Nx Ny) as E.
  exists (3 + length h)%nat. eexists. exists xx, xy, xz, yx, yy, yz.
  split; [exact E|].
  assert (Hm : lookup (h ++ [Vec (Num zx) (Num zy) (Num zz); Vec (Num xx) (Num xy) (Num xz);
                             Vec (Num yx) (Num yy) (Num yz);
                             Arr [Num xx; Num xy; Num xz; Num 0;  Num yx; Num yy; Num yz; Num 0;
                                  Num zx; Num zy; Num zz; Num 0;  Num ox; Num oy; Num oz; Num 1]])
                 (3 + length h)%nat
               = Some (Arr (map Num [xx; xy; xz; 0;  yx; yy; yz; 0;
                                     zx; zy; zz; 0;  ox; oy; oz; 1]))).
  { replace (h ++ _)
      with ((h ++ [Vec (Num zx) (Num zy) (Num zz); Vec (Num xx) (Num xy) (Num xz);
                   Vec (Num yx) (Num yy) (Num yz)]) ++
            [Arr [Num xx; Num xy; Num xz; Num 0;  Num yx; Num yy; Num yz; Num 0;
                  Num zx; Num zy; Num zz; Num 0;  Num ox; Num oy; Num oz; Num 1]])
      by (now rewrite <- app_assoc).
    replace (3 + length h)%nat
      with (length (h ++ [Vec (Num zx) (Num zy) (Num zz); Vec (Num xx) (Num xy) (Num xz);
                          Vec (Num yx) (Num yy) (Num yz)]))
      by (rewrite length_app; cbn [length]; lia).
    apply lookup_app_new. }
  split; [exact Hm|]. split; [now repeat split|]. split; [now repeat split|].
  destruct (run_inverse4_ok _ _ _ Hm) as (inv & h'' & Ei & _).
  - assert (D : Val.det4 (map Num [xx; xy; xz; 0;  yx; yy; yz; 0;
                                   zx; zy; zz; 0;  ox; oy; oz; 1])
                = Num ((zx * zx + zy * zy + zz * zz) * (xx * xx + xy * xy + xz * xz)
                       - (xx * zx + xy * zy + xz * zz) ^ 2)).
    { val_compute. f_equal. unfold yx, yy, yz. ring. }
    rewrite D, Uz, Ux, Oxz. intros H. injection H. lra.
  - now exists inv, h''.
Qed.

Lemma lookAt_orthonormal_witness :
  let h := [Vec (Num 0) (Num 0) (Num 5); Vec (Num 0) (Num 0) (Num 0);
            Vec (Num 0) (Num 1) (Num 0)] in
  exists m h' xx xy xz yx yy yz,
    Matrix4x4.lookAt 0%nat 1%nat (Some 2%nat) h = Ok m h'
    /\ xx * xx + xy * xy + xz * xz = 1
    /\ xx * yx + xy * yy + xz * yz = 0
    /\ exists inv h'', Matrix4x4.inverse m h' = Ok inv h''.
Proof.
  intros h.
  assert (H52 : / 2 ^ 52 < 1).
  { assert (H : 1 < 2 ^ 52) by (apply Rlt_pow_R1; [lra|lia]).
    rewrite <- Rinv_1. apply Rinv_lt_contravar; lra. }
  assert (L5 : sqrt ((0 - 0) ^ 2 + (0 - 0) ^ 2 + (5 - 0) ^ 2) = 5).
  { replace ((0 - 0) ^ 2 + (0 - 0) ^ 2 + (5 - 0) ^ 2) with (5 ^ 2) by ring.
    apply sqrt_pow2. lra. }
  assert (H1 : / 2 ^ 52 < sqrt ((0 - 0) ^ 2 + (0 - 0) ^ 2 + (5 - 0) ^ 2)) by (rewrite L5; lra).
  assert (H2 : / 2 ^ 52 <
               sqrt ((1 * ((5 - 0) / sqrt ((0 - 0) ^ 2 + (0 - 0) ^ 2 + (5 - 0) ^ 2))
                      - 0 * ((0 - 0) / sqrt ((0 - 0) ^ 2 + (0 - 0) ^ 2 + (5 - 0) ^ 2))) ^ 2
                     + (0 * ((0 - 0) / sqrt ((0 - 0) ^ 2 + (0 - 0) ^ 2 + (5 - 0) ^ 2))
                        - 0 * ((5 - 0) / sqrt ((0 - 0) ^ 2 + (0 - 0) ^ 2 + (5 - 0) ^ 2))) ^ 2
                     + (0 * ((0 - 0) / sqrt ((0 - 0) ^ 2 + (0 - 0) ^ 2 + (5 - 0) ^ 2))
                        - 1 * ((0 - 0) / sqrt ((0 - 0) ^ 2 + (0 - 0) ^ 2 + (5 - 0) ^ 2))) ^ 2)).
  { rewrite L5.
    replace ((1 * ((5 - 0) / 5) - 0 * ((0 - 0) / 5)) ^ 2
             + (0 * ((0 - 0) / 5) - 0 * ((5 - 0) / 5)) ^ 2
             + (0 * ((0 - 0) / 5) - 1 * ((0 - 0) / 5)) ^ 2) with 1 by field.
    rewrite sqrt_1. exact H52. }
  destruct (lookAt_orthonormal h 0%nat 1%nat 2%nat 0 0 5 0 0 0 0 1 0 eq_refl eq_refl eq_refl H1 H2)
    as (m & h' & xx & xy & xz & yx & yy & yz & E & _ & (Ux & _) & (Oxy & _) & Hinv).
  exists m, h', xx, xy, xz, yx, yy, yz. repeat split; assumption.
Defined.

Local Close Scope R_scope.

(** ** [computeKernelWeight] *)

Local Open Scope R_scope.

Lemma fold_add_reals rs r :
  fold_left (fun prev curr => (prev + curr)%num) (map Num rs) (Num r)
  = Num (r + fold_right Rplus 0 rs).
Proof.
  revert r. induction rs as [|x rs IH]; intros r; cbn [map fold_left fold_right].
  - f_equal. ring.
  - cbn [JsNum.add JsNum.lift2]. rewrite IH. f_equal. ring.
Qed.

(** X19.  [computeKernelWeight] on a kernel of real numbers returns their
    sum when the sum is positive and 1 otherwise, so the weight is always
    positive; it does not change the kernel.  On an empty kernel the
    [reduce] call, which has no initial value, throws. *)
Theorem kernel_weight h k r rs e :
  lookup h k = Some (Arr (map Num (r :: rs))) ->
  lookup h e = Some (Arr []) ->
  (exists w, ImageProcessing.computeKernelWeight k h = Ok (Num w) h
             /\ 0 < w
             /\ (0 < fold_right Rplus 0 (r :: rs) -> w = fold_right Rplus 0 (r :: rs))
             /\ (fold_right Rplus 0 (r :: rs) <= 0 -> w = 1))
  /\ ImageProcessing.computeKernelWeight e h = Thrown h.
Proof.
  intros Hk He. split.
  - assert (E : ImageProcessing.reduce_sum k h = Ok (Num (fold_right Rplus 0 (r :: rs))) h).
    { unfold ImageProcessing.reduce_sum, bind, read_arr. rewrite Hk.
      cbn [map]. unfold ret. now rewrite fold_add_reals. }
    unfold ImageProcessing.computeKernelWeight. rewrite (bind_ok _ _ _ _ _ E).
    unfold JsNum.le, ret.
    destruct (Rle_dec (fold_right Rplus 0 (r :: rs)) 0) as [Hle|Hgt].
    + exists 1. repeat split; try lra. 
    + exists (fold_right Rplus 0 (r :: rs)). repeat split; try lra.
  - unfold ImageProcessing.computeKernelWeight, ImageProcessing.reduce_sum, bind, read_arr.
    now rewrite He.
Qed.

Lemma kernel_weight_witness :
  let h := [Arr (map Num [-1; -1; -1; -1; 8; -1; -1; -1; -1]); Arr []] in
  (exists w, ImageProcessing.computeKernelWeight 0%nat h = Ok (Num w) h /\ 0 < w)
  /\ ImageProcessing.computeKernelWeight 1%nat h = Thrown h.
Proof.
  intros h.
  destruct (kernel_weight h 0%nat (-1) [-1; -1; -1; 8; -1; -1; -1; -1] 1%nat
              eq_refl eq_refl) as ((w & E & Hw & _) & Ht).
  split; [exists w; split; assumption|assumption].
Defined.

Local Close Scope R_scope.

(** ** Pixels to clip space *)






Local Open Scope R_scope.











Local Close Scope R_scope.

(** ** Aliasing, copies and [premult] *)

(** The product loops when the right operand is the receiver itself: the
    cell (i, j) reads the receiver as the cells before it have left it. *)
Lemma run_product_self (n : nat) (this p : ref) (h1 : heap) (T P : list num) :
  lookup h1 this = Some (Arr T) -> lookup h1 p = Some (Arr P) -> p <> this ->
  for_ n (fun i => for_ n (fun j =>
     sum <- for_acc n (Num 0%R) (fun sum k =>
              x <- aget p (i * n + k) ;;
              y <- aget this (k * n + j) ;;
              ret (sum + x * y)%num) ;;
     aset this (i * n + j) sum)) h1
  = Ok tt (upd h1 this (Arr (fold_left
       (fun X i => fold_left
          (fun X' j => arr_set X' (i * n + j)
             (Val.sum_terms n (fun k => Val.entry P (i * n + k) * Val.entry X' (k * n + j))%num))
          (seq 0 n) X)
       (seq 0 n) T))).
Proof.
  intros Hthis Hp Hne.
  assert (Hlt : this < length h1) by (eapply lookup_valid; eauto).
  rewrite <- (upd_same h1 this (Arr T) Hthis) at 1.
  unfold for_.
  apply (for_each_fold (fun X => upd h1 this (Arr X))).
  intros X i _.
  apply (for_each_fold (fun X => upd h1 this (Arr X))
           (fun X' j => arr_set X' (i * n + j)
              (Val.sum_terms n (fun k => Val.entry P (i * n + k) * Val.entry X' (k * n + j))%num))).
  intros X' j _.
  assert (Hp' : lookup (upd h1 this (Arr X')) p = Some (Arr P))
    by (rewrite lookup_upd_neq; auto).
  assert (Ht' : lookup (upd h1 this (Arr X')) this = Some (Arr X'))
    by (now apply lookup_upd_eq).
  assert (E : for_acc n (Num 0%R) (fun sum k =>
                x <- aget p (i * n + k) ;; y <- aget this (k * n + j) ;; ret (sum + x * y)%num)
                (upd h1 this (Arr X'))
              = Ok (Val.sum_terms n
                      (fun k => Val.entry P (i * n + k) * Val.entry X' (k * n + j))%num)
                   (upd h1 this (Arr X'))).
  { unfold for_acc, Val.sum_terms.
    apply (fold_each_pure (seq 0 n) _
             (fun s k => (s + Val.entry P (i * n + k) * Val.entry X' (k * n + j))%num)).
    intros s k _.
    rewrite (bind_ok _ _ _ _ _ (run_aget _ _ _ _ Hp')).
    rewrite (bind_ok _ _ _ _ _ (run_aget _ _ _ _ Ht')).
    reflexivity. }
  rewrite (bind_ok _ _ _ _ _ E).
  rewrite (run_aset _ _ X') by exact Ht'.
  now rewrite upd_upd.
Qed.

Local Open Scope R_scope.

(** X24.  [mult(b)] copies the receiver but not its argument, so a matrix
    cannot be squared in place: on a Matrix2x2 of reals [a, b, c, d],
    [m.mult(m)] computes the first row of the square, and then the second
    row from the first row it has just written: it leaves
    [a*a + b*c, a*b + b*d, c*(a*a + b*c) + d*c, c*(a*b + b*d) + d*d], while
    the square has [c*a + d*c, c*b + d*d] in its second row. *)
Theorem mult_by_itself h m a b c d :
  holds h m [a; b; c; d] ->
  exists h',
    Matrix2x2.mult m m h = Ok tt h'
    /\ holds h' m [a * a + b * c; a * b + b * d;
                   c * (a * a + b * c) + d * c; c * (a * b + b * d) + d * d]
    /\ product 2 [a; b; c; d] [a; b; c; d]
       = [a * a + b * c; a * b + b * d;  c * a + d * c; c * b + d * d]
    /\ unchanged_except m h h'.
Proof.
  intros Hm. pose proof (lookup_valid _ _ _ Hm) as Hlt.
  unfold Matrix2x2.mult.
  rewrite (bind_ok _ _ _ _ _ (run_copy2 _ _ _ Hm)).
  rewrite (run_product_self 2 m (length h) (h ++ [Arr (map Num [a; b; c; d])])
             (map Num [a; b; c; d]) (map Num [a; b; c; d]));
    [|now rewrite lookup_app_old|apply lookup_app_new|lia].
  eexists. split; [reflexivity|]. split; [|split].
  - unfold holds. rewrite lookup_upd_eq by (rewrite length_app; lia).
    val_compute. do 2 f_equal. nums_eq ltac:(ring).
  - reals_compute. real_lists_eq.
  - intros r Hr Hne. rewrite lookup_upd_neq by auto. now apply lookup_app_old.
Qed.

Lemma mult_by_itself_witness :
  let h := [Arr (map Num [1; 1; 1; 1])] in
  exists h',
    Matrix2x2.mult 0%nat 0%nat h = Ok tt h'
    /\ holds h' 0%nat [1 * 1 + 1 * 1; 1 * 1 + 1 * 1;
                       1 * (1 * 1 + 1 * 1) + 1 * 1; 1 * (1 * 1 + 1 * 1) + 1 * 1]
    /\ product 2 [1; 1; 1; 1] [1; 1; 1; 1]
       = [1 * 1 + 1 * 1; 1 * 1 + 1 * 1;  1 * 1 + 1 * 1; 1 * 1 + 1 * 1].
Proof.
  intros h. destruct (mult_by_itself h 0%nat 1 1 1 1 eq_refl) as (h' & E & Hl & Hp & _).
  exists h'. repeat split; assumption.
Defined.

Local Close Scope R_scope.

(** [c = m.copy(); c.mult(b)] for a class of order [n]. *)
Lemma copy_then_mult (n : nat) (copy_n : ref -> M ref) (mult_n : ref -> ref -> M unit)
      h m b A B :
  (forall h this T, lookup h this = Some (Arr T) ->
     copy_n this h = Ok (length h) (h ++ [Arr T])) ->
  (forall h this b T B,
     lookup h this = Some (Arr T) -> lookup h b = Some (Arr B) -> this <> b ->
     mult_n this b h = Ok tt (upd (h ++ [Arr T]) this (Arr (Val.mult n T B)))) ->
  (forall X Y, length X = n * n -> length Y = n * n ->
     Val.mult n (map Num X) (map Num Y) = map Num (product n X Y)) ->
  holds h m A -> holds h b B -> length A = n * n -> length B = n * n ->
  exists c h',
    (c <- copy_n m ;; mult_n c b ;; ret c) h = Ok c h'
    /\ holds h' c (product n A B)
    /\ c <> m
    /\ (forall r o, lookup h r = Some o -> lookup h' r = Some o).
Proof.
  intros Hcopy Hmult Hval Hm Hb LA LB.
  pose proof (lookup_valid _ _ _ Hm) as Hltm. pose proof (lookup_valid _ _ _ Hb) as Hltb.
  rewrite (bind_ok _ _ _ _ _ (Hcopy _ _ _ Hm)).
  destruct (mult_product n mult_n Hmult Hval (h ++ [Arr (map Num A)]) (length h) b A B)
    as (h' & E & Hl & Hf & _).
  - apply lookup_app_new.
  - unfold holds. now rewrite lookup_app_old.
  - lia.
  - exact LA.
  - exact LB.
  - rewrite (bind_ok _ _ _ _ _ E). exists (length h), h'.
    split; [reflexivity|]. split; [exact Hl|]. split; [lia|].
    intros r o Hr. pose proof (lookup_valid _ _ _ Hr) as Hlt.
    rewrite Hf by (rewrite ?length_app; simpl; lia).
    now rewrite lookup_app_old.
Qed.

(** X25.  [copy()] returns a new matrix with the entries of the receiver
    and an array of its own: in each of the three classes,
    [c = m.copy(); c.mult(b)] leaves the product m × b in [c] and changes
    no object that existed before, [m] and [b] included; [b] may be [m]
    itself, so this squares a matrix correctly. *)
Theorem copy_is_independent h m2 b2 A2 B2 m3 b3 A3 B3 m4 b4 A4 B4 :
  holds h m2 A2 -> holds h b2 B2 -> length A2 = 4 -> length B2 = 4 ->
  holds h m3 A3 -> holds h b3 B3 -> length A3 = 9 -> length B3 = 9 ->
  holds h m4 A4 -> holds h b4 B4 -> length A4 = 16 -> length B4 = 16 ->
  (exists c h',
     (c <- Matrix2x2.copy m2 ;; Matrix2x2.mult c b2 ;; ret c) h = Ok c h'
     /\ holds h' c (product 2 A2 B2) /\ c <> m2
     /\ (forall r o, lookup h r = Some o -> lookup h' r = Some o))
  /\ (exists c h',
        (c <- Matrix3x3.copy m3 ;; Matrix3x3.mult c b3 ;; ret c) h = Ok c h'
        /\ holds h' c (product 3 A3 B3) /\ c <> m3
        /\ (forall r o, lookup h r = Some o -> lookup h' r = Some o))
  /\ (exists c h',
        (c <- Matrix4x4.copy m4 ;; Matrix4x4.mult c b4 ;; ret c) h = Ok c h'
        /\ holds h' c (product 4 A4 B4) /\ c <> m4
        /\ (forall r o, lookup h r = Some o -> lookup h' r = Some o)).
Proof.
  intros Hm2 Hb2 LA2 LB2 Hm3 Hb3 LA3 LB3 Hm4 Hb4 LA4 LB4.
  split; [|split].
  - exact (copy_then_mult 2 Matrix2x2.copy Matrix2x2.mult h m2 b2 A2 B2
             run_copy2 run_mult2 (proj1 mult_val_product) Hm2 Hb2 LA2 LB2).
  - exact (copy_then_mult 3 Matrix3x3.copy Matrix3x3.mult h m3 b3 A3 B3
             run_copy3 run_mult3 (proj1 (proj2 mult_val_product)) Hm3 Hb3 LA3 LB3).
  - exact (copy_then_mult 4 Matrix4x4.copy Matrix4x4.mult h m4 b4 A4 B4
             run_copy4 run_mult4 (proj2 (proj2 mult_val_product)) Hm4 Hb4 LA4 LB4).
Qed.

Lemma copy_is_independent_witness :
  let A2 := [1; 1; 1; 1]%R in
  let A3 := [1; 2; 3;  4; 5; 6;  7; 8; 9]%R in
  let A4 := [1; 2; 3; 4;  5; 6; 7; 8;  9; 10; 11; 12;  13; 14; 15; 16]%R in
  let h := [Arr (map Num A2); Arr (map Num A3); Arr (map Num A4)] in
  exists c h',
    (c <- Matrix2x2.copy 0 ;; Matrix2x2.mult c 0 ;; ret c) h = Ok c h'
    /\ holds h' c (product 2 A2 A2) /\ holds h' 0 A2.
Proof.
  intros A2 A3 A4 h.
  destruct (copy_is_independent h 0 0 A2 A2 1 1 A3 A3 2 2 A4 A4
              eq_refl eq_refl eq_refl eq_refl eq_refl eq_refl eq_refl eq_refl
              eq_refl eq_refl eq_refl eq_refl) as ((c & h' & E & Hl & _ & Hf) & _).
  exists c, h'. split; [exact E|]. split; [exact Hl|]. now apply Hf.
Defined.

(** X26.  [premult(b)] of Matrix4x4 leaves b × this in the receiver, the
    operands in the other order than [mult(b)]; [premult(b)] of Matrix2x2
    multiplies the same factors as its [mult(b)] and leaves this × b.
    Neither changes another existing object. *)
Theorem premult_orders h a2 b2 A2 B2 a4 b4 A4 B4 :
  holds h a2 A2 -> holds h b2 B2 -> a2 <> b2 -> length A2 = 4 -> length B2 = 4 ->
  holds h a4 A4 -> holds h b4 B4 -> a4 <> b4 -> length A4 = 16 -> length B4 = 16 ->
  (exists h', Matrix2x2.premult a2 b2 h = Ok tt h'
              /\ holds h' a2 (product 2 A2 B2) /\ unchanged_except a2 h h')
  /\ (exists h', Matrix4x4.premult a4 b4 h = Ok tt h'
                 /\ holds h' a4 (product 4 B4 A4) /\ unchanged_except a4 h h').
Proof.
  intros Ha2 Hb2 Hne2 LA2 LB2 Ha4 Hb4 Hne4 LA4 LB4. split.
  - pose proof (lookup_valid _ _ _ Ha2) as Hlt.
    rewrite (run_premult2 _ _ _ _ _ Ha2 Hb2 Hne2).
    eexists; split; [reflexivity|]. split.
    + unfold holds. rewrite lookup_upd_eq by (rewrite length_app; lia).
      now rewrite (proj1 premult_kj_ik_val_product).
    + intros r Hr Hra. rewrite lookup_upd_neq by auto. now apply lookup_app_old.
  - now apply premult4_product_frame.
Qed.

Lemma premult_orders_witness :
  let A2 := [1; 2;  3; 4]%R in
  let B2 := [0; 1;  1; 0]%R in
  let A4 := [1; 2; 3; 4;  5; 6; 7; 8;  9; 10; 11; 12;  13; 14; 15; 16]%R in
  let B4 := translation4 1 2 3 in
  let h := [Arr (map Num A2); Arr (map Num B2); Arr (map Num A4); Arr (map Num B4)] in
  (exists h', Matrix2x2.premult 0 1 h = Ok tt h' /\ holds h' 0 (product 2 A2 B2))
  /\ (exists h', Matrix4x4.premult 2 3 h = Ok tt h' /\ holds h' 2 (product 4 B4 A4)).
Proof.
  intros A2 B2 A4 B4 h.
  assert (N2 : 0 <> 1) by discriminate.
  assert (N4 : 2 <> 3) by discriminate.
  destruct (premult_orders h 0 1 A2 B2 2 3 A4 B4 eq_refl eq_refl N2 eq_refl eq_refl
              eq_refl eq_refl N4 eq_refl eq_refl) as ((h2 & E2 & H2 & _) & (h4 & E4 & H4 & _)).
  split; [exists h2|exists h4]; split; assumption.
Defined.

(** ** Matrices with a missing entry *)

Lemma add_NaN_l a : (NaN + a)%num = NaN.
Proof. reflexivity. Qed.
Lemma add_NaN_r a : (a + NaN)%num = NaN.
Proof. now destruct a. Qed.
Lemma sub_NaN_l a : (NaN - a)%num = NaN.
Proof. reflexivity. Qed.
Lemma sub_NaN_r a : (a - NaN)%num = NaN.
Proof. now destruct a. Qed.
Lemma mul_NaN_l a : (NaN * a)%num = NaN.
Proof. reflexivity. Qed.
Lemma mul_NaN_r a : (a * NaN)%num = NaN.
Proof. now destruct a. Qed.
Lemma div_NaN_r a : (a / NaN)%num = NaN.
Proof. now destruct a. Qed.

Ltac nan_absorb :=
  repeat (rewrite ?add_NaN_l, ?add_NaN_r, ?sub_NaN_l, ?sub_NaN_r, ?mul_NaN_l, ?mul_NaN_r);
  reflexivity.

(** One entry that is NaN, or that the array does not have, makes the
    determinant NaN. *)
Lemma det3_NaN T i : i < 9 -> Val.entry T i = NaN -> Val.det3 T = NaN.
Proof.
  intros Hi E.
  cbv [Val.det3 Val.cofactor fold_left seq app Nat.eqb Nat.mul Nat.add].
  revert E. generalize (Val.entry T). intros f E.
  cbv [Val.det2 Val.entry nth].
  index_cases i 9 ltac:(rewrite E; nan_absorb).
Qed.

Lemma det4_NaN T i : i < 16 -> Val.entry T i = NaN -> Val.det4 T = NaN.
Proof.
  intros Hi E.
  cbv [Val.det4 Val.cofactor fold_left seq app Nat.eqb Nat.mul Nat.add].
  revert E. generalize (Val.entry T). intros f E.
  cbv [Val.det3 Val.cofactor Val.det2 Val.entry nth fold_left seq app Nat.eqb Nat.mul Nat.add].
  index_cases i 16 ltac:(rewrite E; nan_absorb).
Qed.

Lemma inverse_entries_NaN adj :
  Val.inverse_entries 4 adj NaN = repeat NaN 16.
Proof.
  cbv [Val.inverse_entries fold_left seq app repeat]. now rewrite !div_NaN_r.
Qed.

(** X27.  [inverse()] tests the determinant with [=== 0], which NaN does
    not satisfy: on a Matrix3x3 or a Matrix4x4 with an entry that is NaN or
    missing (as after [new Matrix4x4()], or with too short an array), the
    determinant is NaN, [inverse()] does not throw, and the matrix it
    returns has sixteen entries that are all NaN. *)
Theorem inverse_of_incomplete_matrix h m3 T3 i3 m4 T4 i4 :
  lookup h m3 = Some (Arr T3) -> i3 < 9 -> Val.entry T3 i3 = NaN ->
  lookup h m4 = Some (Arr T4) -> i4 < 16 -> Val.entry T4 i4 = NaN ->
  (exists h', Matrix3x3.determinant m3 h = Ok NaN h')
  /\ (exists inv h', Matrix3x3.inverse m3 h = Ok inv h'
                     /\ lookup h' inv = Some (Arr (repeat NaN 16)))
  /\ (exists h', Matrix4x4.determinant m4 h = Ok NaN h')
  /\ (exists inv h', Matrix4x4.inverse m4 h = Ok inv h'
                     /\ lookup h' inv = Some (Arr (repeat NaN 16))).
Proof.
  intros H3 Hi3 E3 H4 Hi4 E4.
  pose proof (det3_NaN T3 i3 Hi3 E3) as D3.
  pose proof (det4_NaN T4 i4 Hi4 E4) as D4.
  split; [|split; [|split]].
  - destruct (run_det3 _ _ _ H3) as (h' & E & _). exists h'. now rewrite E, D3.
  - destruct (run_inverse3_ok _ _ _ H3) as (inv & h' & E & _ & _ & Hl).
    + rewrite D3. discriminate.
    + exists inv, h'. split; [exact E|].
      rewrite Hl. unfold Val.inverse3. now rewrite D3, inverse_entries_NaN.
  - destruct (run_det4 _ _ _ H4) as (h' & E & _). exists h'. now rewrite E, D4.
  - destruct (run_inverse4_ok _ _ _ H4) as (inv & h' & E & _ & _ & Hl).
    + rewrite D4. discriminate.
    + exists inv, h'. split; [exact E|].
      rewrite Hl. unfold Val.inverse4. now rewrite D4, inverse_entries_NaN.
Qed.

Lemma inverse_of_incomplete_matrix_witness :
  let h := [Arr (repeat NaN 9); Arr [Num 1%R; Num 2%R]] in
  (exists inv h', Matrix3x3.inverse 0 h = Ok inv h'
                  /\ lookup h' inv = Some (Arr (repeat NaN 16)))
  /\ (exists inv h', Matrix4x4.inverse 1 h = Ok inv h'
                     /\ lookup h' inv = Some (Arr (repeat NaN 16))).
Proof.
  intros h.
  assert (L3 : 0 < 9) by lia.
  assert (L4 : 2 < 16) by lia.
  destruct (inverse_of_incomplete_matrix h 0 (repeat NaN 9) 0 1 [Num 1%R; Num 2%R] 2
              eq_refl L3 eq_refl eq_refl L4 eq_refl) as (_ & I3 & _ & I4).
  split; assumption.
Defined.

(** ** Determinants of the transforms *)

Local Open Scope R_scope.

Lemma det3_transforms (tx ty sx sy a : R) :
  Val.det3 (map Num (translation3 tx ty)) = Num 1
  /\ Val.det3 (map Num (scaling3 sx sy)) = Num (sx * sy)
  /\ Val.det3 (map Num (rotation3 a)) = Num 1.
Proof.
  pose proof (sin2_cos2 a) as Hcs. unfold Rsqr in Hcs.
  repeat split; builders_compute; val_compute; f_equal; try ring;
    ring_simplify; nra.
Qed.

Local Close Scope R_scope.

Lemma run_builder_det3 (builder : M ref) (T : list R) h :
  (forall k, builder k = Ok (length k) (k ++ [Arr (map Num T)])) ->
  exists h', (m <- builder ;; Matrix3x3.determinant m) h = Ok (Val.det3 (map Num T)) h'.
Proof.
  intros Hb. rewrite (bind_ok _ _ _ _ _ (Hb h)).
  destruct (run_det3 _ _ _ (lookup_app_new h (Arr (map Num T)))) as (h' & E & _).
  now exists h'.
Qed.

Lemma run_builder_det4 (builder : M ref) (T : list R) h :
  (forall k, builder k = Ok (length k) (k ++ [Arr (map Num T)])) ->
  exists h', (m <- builder ;; Matrix4x4.determinant m) h = Ok (Val.det4 (map Num T)) h'.
Proof.
  intros Hb. rewrite (bind_ok _ _ _ _ _ (Hb h)).
  destruct (run_det4 _ _ _ (lookup_app_new h (Arr (map Num T)))) as (h' & E & _).
  now exists h'.
Qed.

(** X28.  The determinant of a translation or of a rotation is 1, and the
    determinant of a scaling is the product of its factors: this is what
    [determinant()] returns on the matrices the builders of Matrix3x3 and
    Matrix4x4 return, whatever the real arguments. *)
Theorem determinant_of_transforms h (tx ty tz sx sy sz a : R) :
  ((exists h', (m <- Matrix3x3.translation (Num tx) (Num ty) ;; Matrix3x3.determinant m) h
               = Ok (Num 1%R) h')
   /\ (exists h', (m <- Matrix3x3.rotation (Num a) ;; Matrix3x3.determinant m) h
                  = Ok (Num 1%R) h')
   /\ (exists h', (m <- Matrix3x3.scaling (Num sx) (Num sy) ;; Matrix3x3.determinant m) h
                  = Ok (Num (sx * sy)%R) h'))
  /\
  ((exists h', (m <- Matrix4x4.fromTranslation (Num tx) (Num ty) (Num tz) ;;
                Matrix4x4.determinant m) h = Ok (Num 1%R) h')
   /\ (exists h', (m <- Matrix4x4.fromXRotation (Num a) ;; Matrix4x4.determinant m) h
                  = Ok (Num 1%R) h')
   /\ (exists h', (m <- Matrix4x4.fromYRotation (Num a) ;; Matrix4x4.determinant m) h
                  = Ok (Num 1%R) h')
   /\ (exists h', (m <- Matrix4x4.fromZRotation (Num a) ;; Matrix4x4.determinant m) h
                  = Ok (Num 1%R) h')
   /\ (exists h', (m <- Matrix4x4.fromScaling (Num sx) (Num sy) (Num sz) ;;
                   Matrix4x4.determinant m) h = Ok (Num (sx * sy * sz)%R) h')).
Proof.
  destruct (det3_transforms tx ty sx sy a) as (T3 & S3 & R3).
  destruct (det4_transforms tx ty tz sx sy sz a) as (T4 & S4 & X4 & Y4 & Z4).
  split; [split; [|split]|split; [|split; [|split; [|split]]]].
  - rewrite <- T3. apply run_builder_det3. intros k; reflexivity.
  - rewrite <- R3. apply run_builder_det3. intros k; reflexivity.
  - rewrite <- S3. apply run_builder_det3. intros k; reflexivity.
  - rewrite <- T4. apply run_builder_det4. intros k; reflexivity.
  - rewrite <- X4. apply run_builder_det4. intros k; reflexivity.
  - rewrite <- Y4. apply run_builder_det4. intros k; reflexivity.
  - rewrite <- Z4. apply run_builder_det4. intros k; reflexivity.
  - rewrite <- S4. apply run_builder_det4. intros k; reflexivity.
Qed.
